(** * The metadata changelog (VersionEdit) and the write batch of the
    fence-partitioned LevelDB variant, embedded in Rocq.

    Sources embedded: db/version_edit.h, db/version_edit.cc and
    db/write_batch.cc.  Byte strings ([std::string], [Slice]) are lists of
    bytes, unsigned machine integers are [Z] with their wrap-around written
    out, and a call that ends in a failed [assert] (or that reads a local
    that was never written) has no result: it is [Aborted]. *)

From Stdlib Require Import ZArith List Lia String Bool Sorted.
From Stdlib.Strings Require Import Byte.
From stdpp Require Import base list.
Import ListNotations.
Local Open Scope Z_scope.

(** ** Bytes *)

Definition b2z (b : byte) : Z := Z.of_N (Byte.to_N b).

(** The conversion of an integer to [uint8_t] / [char]: the low eight bits. *)
Definition z2b (z : Z) : byte :=
  match Byte.of_N (Z.to_N (z mod 256)) with
  | Some b => b
  | None => x00
  end.

Lemma b2z_range (b : byte) : 0 <= b2z b < 256.
Proof.
  unfold b2z. pose proof (Byte.to_N_bounded b). lia.
Qed.

Lemma b2z_z2b (z : Z) : b2z (z2b z) = z mod 256.
Proof.
  unfold b2z, z2b.
  assert (Hr : 0 <= z mod 256 < 256) by (apply Z.mod_pos_bound; lia).
  destruct (Byte.of_N (Z.to_N (z mod 256))) as [b|] eqn:E.
  - apply Byte.to_of_N in E. rewrite E. lia.
  - apply Byte.of_N_None_iff in E. lia.
Qed.

Lemma b2z_z2b_small (z : Z) : 0 <= z < 256 -> b2z (z2b z) = z.
Proof.
  intros H. rewrite b2z_z2b. apply Z.mod_small; lia.
Qed.

Lemma z2b_b2z (b : byte) : z2b (b2z b) = b.
Proof.
  unfold z2b, b2z. pose proof (Byte.to_N_bounded b).
  rewrite Z.mod_small by lia. rewrite N2Z.id. now rewrite Byte.of_to_N.
Qed.

(** ** Bit-level facts shared by the two codecs *)

Lemma lor_shiftl_add (a b s : Z) :
  0 <= s -> 0 <= a < 2 ^ s -> Z.lor a (Z.shiftl b s) = a + b * 2 ^ s.
Proof.
  intros Hs Ha. rewrite <- Z.shiftl_mul_pow2 by lia.
  symmetry. apply Z.add_nocarry_lor.
  apply Z.bits_inj'. intros i Hi.
  rewrite Z.land_spec, Z.bits_0.
  destruct (Z.lt_ge_cases i s) as [Hlt|Hge].
  - rewrite (Z.shiftl_spec_low b s i) by lia. apply andb_false_r.
  - rewrite <- (Z.mod_small a (2 ^ s)) by lia.
    rewrite Z.mod_pow2_bits_high by lia. reflexivity.
Qed.

Lemma land_127 (v : Z) : Z.land v 127 = v mod 128.
Proof.
  change 127 with (Z.ones 7). rewrite Z.land_ones by lia. reflexivity.
Qed.

Lemma lor_128_mod (v : Z) : (Z.lor v 128) mod 256 = v mod 128 + 128.
Proof.
  change 256 with (2 ^ 8). rewrite <- Z.land_ones by lia.
  rewrite Z.land_lor_distr_l.
  change (Z.land 128 (Z.ones 8)) with (Z.shiftl 1 7).
  rewrite Z.land_ones by lia.
  assert (E : Z.lor (v mod 2 ^ 8) (Z.shiftl 1 7)
              = Z.lor (v mod 2 ^ 7) (Z.shiftl 1 7)).
  { apply Z.bits_inj'. intros i Hi. rewrite !Z.lor_spec.
    destruct (Z.eq_dec i 7) as [->|Hne].
    - rewrite (Z.shiftl_spec_high 1 7 7) by lia. simpl. now rewrite !orb_true_r.
    - f_equal.
      destruct (Z.lt_ge_cases i 7).
      + rewrite !Z.mod_pow2_bits_low by lia. reflexivity.
      + rewrite !Z.mod_pow2_bits_high by lia. reflexivity. }
  rewrite E. rewrite lor_shiftl_add; [reflexivity | lia |].
  apply Z.mod_pos_bound. lia.
Qed.

(** [byte & 128] is non-zero exactly for the bytes from 128 up. *)
Lemma land_128_test (b : byte) :
  negb (Z.land (b2z b) 128 =? 0) = (128 <=? b2z b).
Proof.
  destruct b; reflexivity.
Qed.

(** ** util/coding: varints, fixed-width integers, length-prefixed slices *)

Module Coding.

(** Modelled from the spec: util/coding.h and util/coding.cc are not among
    the sources.  The spec names the encodings ("unsigned varint",
    "fixed-width", "varstring = varint(len) bytes[len]"); they are LevelDB's:
    a varint is little-endian base 128, seven payload bits a byte, bit 7 set
    on every byte but the last; [n] bounds the number of continuation
    bytes (four for 32 bits, nine for 64). *)
Fixpoint EncodeVarint (n : nat) (v : Z) : list byte :=
  match n with
  | O => [z2b v]
  | S n' =>
      if 128 <=? v
      then z2b (Z.lor v 128) :: EncodeVarint n' (Z.shiftr v 7)
      else [z2b v]
  end.

(** Modelled from the spec: [PutVarint32(dst, v)] appends the varint of the
    value converted to [uint32_t]. *)
Definition PutVarint32 (dst : list byte) (v : Z) : list byte :=
  dst ++ EncodeVarint 4 (v mod 2 ^ 32).

(** Modelled from the spec: [PutVarint64(dst, v)]. *)
Definition PutVarint64 (dst : list byte) (v : Z) : list byte :=
  dst ++ EncodeVarint 9 (v mod 2 ^ 64).

(** Modelled from the spec: the varint reader.  It looks at no more than [n]
    bytes, accumulates into a [w]-bit result, and fails (leaving the input
    where it was) when the input ends, or [n] bytes pass, before a byte
    without the continuation bit. *)
Fixpoint GetVarintPtr (w : Z) (n : nat) (shift result : Z) (p : list byte)
  : option (Z * list byte) :=
  match n with
  | O => None
  | S n' =>
      match p with
      | [] => None
      | b :: p' =>
          let byte := b2z b in
          if negb (Z.land byte 128 =? 0)
          then GetVarintPtr w n' (shift + 7)
                 (Z.lor result (Z.shiftl (Z.land byte 127) shift mod 2 ^ w)) p'
          else Some (Z.lor result (Z.shiftl byte shift mod 2 ^ w), p')
      end
  end.

Definition GetVarint32 (input : list byte) : option (Z * list byte) :=
  GetVarintPtr 32 5 0 0 input.

Definition GetVarint64 (input : list byte) : option (Z * list byte) :=
  GetVarintPtr 64 10 0 0 input.

(** Modelled from the spec: [PutLengthPrefixedSlice]; the length is written
    as a 32-bit varint. *)
Definition PutLengthPrefixedSlice (dst value : list byte) : list byte :=
  PutVarint32 dst (Z.of_nat (length value)) ++ value.

(** Modelled from the spec: [GetLengthPrefixedSlice] fails when the length
    cannot be read or exceeds what is left. *)
Definition GetLengthPrefixedSlice (input : list byte)
  : option (list byte * list byte) :=
  match GetVarint32 input with
  | Some (len, input') =>
      if len <=? Z.of_nat (length input')
      then Some (take (Z.to_nat len) input', drop (Z.to_nat len) input')
      else None
  | None => None
  end.

(** Modelled from the spec: little-endian fixed-width integers. *)
Definition EncodeFixed32 (v : Z) : list byte :=
  [z2b v; z2b (Z.shiftr v 8); z2b (Z.shiftr v 16); z2b (Z.shiftr v 24)].

Definition EncodeFixed64 (v : Z) : list byte :=
  EncodeFixed32 v ++ EncodeFixed32 (Z.shiftr v 32).

(** Reading past the end of the buffer is outside the model: the callers
    keep at least twelve bytes in a batch. *)
Definition DecodeFixed32 (p : list byte) : Z :=
  match p with
  | b0 :: b1 :: b2 :: b3 :: _ =>
      Z.lor (Z.lor (Z.lor (b2z b0) (Z.shiftl (b2z b1) 8))
                   (Z.shiftl (b2z b2) 16))
            (Z.shiftl (b2z b3) 24)
  | _ => 0
  end.

Definition DecodeFixed64 (p : list byte) : Z :=
  Z.lor (DecodeFixed32 p) (Z.shiftl (DecodeFixed32 (drop 4 p)) 32).

(** *** Facts about the codecs *)

Lemma EncodeVarint_nonempty n v : EncodeVarint n v <> [].
Proof.
  destruct n; simpl; [discriminate|]. destruct (128 <=? v); discriminate.
Qed.

Lemma GetVarintPtr_cons w n shift result b p :
  GetVarintPtr w (S n) shift result (b :: p)
  = if negb (Z.land (b2z b) 128 =? 0)
    then GetVarintPtr w n (shift + 7)
           (Z.lor result (Z.shiftl (Z.land (b2z b) 127) shift mod 2 ^ w)) p
    else Some (Z.lor result (Z.shiftl (b2z b) shift mod 2 ^ w), p).
Proof. reflexivity. Qed.

Lemma GetVarintPtr_Encode w n v shift result rest :
  0 <= shift -> 0 <= result < 2 ^ shift ->
  0 <= v < 128 ^ Z.of_nat (S n) ->
  result + v * 2 ^ shift < 2 ^ w ->
  GetVarintPtr w (S n) shift result (EncodeVarint n v ++ rest)
  = Some (result + v * 2 ^ shift, rest).
Proof.
  revert v shift result.
  assert (Last : forall n v shift result,
    0 <= shift -> 0 <= result < 2 ^ shift -> 0 <= v < 128 ->
    result + v * 2 ^ shift < 2 ^ w ->
    GetVarintPtr w (S n) shift result (z2b v :: rest)
    = Some (result + v * 2 ^ shift, rest)).
  { intros m v shift result Hs Hr Hv Hw. rewrite GetVarintPtr_cons.
    rewrite land_128_test, b2z_z2b_small by lia.
    destruct (Z.leb_spec 128 v); [lia|].
    assert (0 <= v * 2 ^ shift) by (apply Z.mul_nonneg_nonneg; lia).
    rewrite (Z.mod_small (Z.shiftl v shift))
      by (rewrite Z.shiftl_mul_pow2 by lia; lia).
    rewrite lor_shiftl_add by lia. reflexivity. }
  induction n as [|n IH]; intros v shift result Hs Hr Hv Hw.
  - simpl EncodeVarint. apply Last; try lia.
  - cbn [EncodeVarint]. destruct (Z.leb_spec 128 v) as [Hge|Hlt].
    2:{ apply Last; lia. }
    rewrite <- app_comm_cons, GetVarintPtr_cons.
    rewrite land_128_test, b2z_z2b, lor_128_mod.
    assert (Hm : 0 <= v mod 128 < 128) by (apply Z.mod_pos_bound; lia).
    destruct (Z.leb_spec 128 (v mod 128 + 128)); [|lia]. cbn [negb].
    rewrite land_127.
    replace ((v mod 128 + 128) mod 128) with (v mod 128)
      by (rewrite Z.add_mod, Z.mod_same, Z.add_0_r, !Z.mod_mod by lia; reflexivity).
    assert (Hp : 0 < 2 ^ shift) by (apply Z.pow_pos_nonneg; lia).
    assert (Hd : 0 <= v / 128) by (apply Z.div_pos; lia).
    assert (Hv2 : v = 128 * (v / 128) + v mod 128) by (apply Z.div_mod; lia).
    assert (Hpow : 2 ^ (shift + 7) = 2 ^ shift * 128)
      by (rewrite Z.pow_add_r by lia; reflexivity).
    assert (Hle : (v mod 128) * 2 ^ shift <= v * 2 ^ shift) by nia.
    rewrite (Z.mod_small (Z.shiftl (v mod 128) shift))
      by (rewrite Z.shiftl_mul_pow2 by lia; nia).
    rewrite lor_shiftl_add by lia.
    rewrite Z.shiftr_div_pow2 by lia. change (2 ^ 7) with 128.
    rewrite IH.
    + f_equal. f_equal. rewrite Hpow. nia.
    + lia.
    + rewrite Hpow. nia.
    + split; [lia|].
      apply Z.div_lt_upper_bound; [lia|].
      replace (Z.of_nat (S (S n))) with (1 + Z.of_nat (S n)) in Hv by lia.
      rewrite Z.pow_add_r in Hv by lia. lia.
    + rewrite Hpow. nia.
Qed.

Lemma GetVarint32_Put v rest :
  0 <= v < 2 ^ 32 ->
  GetVarint32 (PutVarint32 [] v ++ rest) = Some (v, rest).
Proof.
  intros Hv. unfold GetVarint32, PutVarint32. rewrite app_nil_l.
  rewrite Z.mod_small by lia.
  rewrite GetVarintPtr_Encode.
  - do 2 f_equal. lia.
  - lia.
  - lia.
  - change (128 ^ Z.of_nat 5) with (2 ^ 35). lia.
  - lia.
Qed.

Lemma GetVarint64_Put v rest :
  0 <= v < 2 ^ 64 ->
  GetVarint64 (PutVarint64 [] v ++ rest) = Some (v, rest).
Proof.
  intros Hv. unfold GetVarint64, PutVarint64. rewrite app_nil_l.
  rewrite Z.mod_small by lia.
  rewrite GetVarintPtr_Encode.
  - do 2 f_equal. lia.
  - lia.
  - lia.
  - change (128 ^ Z.of_nat 10) with (2 ^ 70). lia.
  - lia.
Qed.

(** A read that succeeds looks only at what it consumes. *)
Lemma GetVarintPtr_app w n shift result p v rest y :
  GetVarintPtr w n shift result p = Some (v, rest) ->
  GetVarintPtr w n shift result (p ++ y) = Some (v, rest ++ y).
Proof.
  revert shift result p. induction n as [|n IH]; intros shift result p;
    [discriminate|].
  destruct p as [|b p]; [discriminate|].
  rewrite <- app_comm_cons, !GetVarintPtr_cons.
  destruct (negb (Z.land (b2z b) 128 =? 0)).
  - apply IH.
  - intros [= <- <-]. reflexivity.
Qed.

Lemma GetVarintPtr_shorter w n shift result p v rest :
  GetVarintPtr w n shift result p = Some (v, rest) ->
  (length rest < length p)%nat.
Proof.
  revert shift result p. induction n as [|n IH]; intros shift result p;
    [discriminate|].
  destruct p as [|b p]; [discriminate|].
  rewrite GetVarintPtr_cons.
  destruct (negb (Z.land (b2z b) 128 =? 0)).
  - intros E. apply IH in E. simpl. lia.
  - intros [= <- <-]. simpl. lia.
Qed.

Lemma GetVarintPtr_bound w n shift result p v rest :
  0 <= w -> 0 <= result < 2 ^ w ->
  GetVarintPtr w n shift result p = Some (v, rest) -> 0 <= v < 2 ^ w.
Proof.
  intros Hw. revert shift result p.
  assert (Hlor : forall a b, 0 <= a < 2 ^ w -> 0 <= Z.lor a (b mod 2 ^ w) < 2 ^ w).
  { intros a b Ha.
    assert (E : Z.lor a (b mod 2 ^ w) = Z.lor a b mod 2 ^ w).
    { rewrite <- !Z.land_ones by lia. rewrite Z.land_lor_distr_l.
      rewrite (Z.land_ones a) by lia. now rewrite (Z.mod_small a) by lia. }
    rewrite E. apply Z.mod_pos_bound, Z.pow_pos_nonneg; lia. }
  induction n as [|n IH]; intros shift result p Hr; [discriminate|].
  destruct p as [|b p]; [discriminate|].
  rewrite GetVarintPtr_cons.
  destruct (negb (Z.land (b2z b) 128 =? 0)).
  - apply IH. apply Hlor, Hr.
  - intros [= <- <-]. apply Hlor, Hr.
Qed.

(** A varint that is cut short is not read. *)
Lemma GetVarintPtr_truncated w n v shift result q r :
  EncodeVarint n v = q ++ r -> r <> [] ->
  GetVarintPtr w (S n) shift result q = None.
Proof.
  revert v shift result q. induction n as [|n IH]; intros v shift result q E Hr.
  - destruct q as [|b q]; [reflexivity|].
    simpl in E. injection E as _ E. symmetry in E.
    apply app_eq_nil in E as [_ ->]. contradiction.
  - destruct q as [|b q]; [reflexivity|].
    cbn [EncodeVarint] in E. destruct (128 <=? v).
    + rewrite <- app_comm_cons in E. injection E as <- E.
      rewrite GetVarintPtr_cons, land_128_test, b2z_z2b, lor_128_mod.
      assert (0 <= v mod 128 < 128) by (apply Z.mod_pos_bound; lia).
      destruct (Z.leb_spec 128 (v mod 128 + 128)); [|lia].
      cbn [negb]. eapply IH; eauto.
    + rewrite <- app_comm_cons in E. injection E as _ E. symmetry in E.
      apply app_eq_nil in E as [_ ->]. contradiction.
Qed.

Lemma GetVarint32_app p v rest y :
  GetVarint32 p = Some (v, rest) -> GetVarint32 (p ++ y) = Some (v, rest ++ y).
Proof. apply GetVarintPtr_app. Qed.

Lemma GetVarint64_app p v rest y :
  GetVarint64 p = Some (v, rest) -> GetVarint64 (p ++ y) = Some (v, rest ++ y).
Proof. apply GetVarintPtr_app. Qed.

Lemma GetVarint32_shorter p v rest :
  GetVarint32 p = Some (v, rest) -> (length rest < length p)%nat.
Proof. apply GetVarintPtr_shorter. Qed.

Lemma GetVarint64_shorter p v rest :
  GetVarint64 p = Some (v, rest) -> (length rest < length p)%nat.
Proof. apply GetVarintPtr_shorter. Qed.

Lemma GetVarint32_bound p v rest :
  GetVarint32 p = Some (v, rest) -> 0 <= v < 2 ^ 32.
Proof. apply GetVarintPtr_bound; lia. Qed.

Lemma GetVarint32_truncated v q r :
  PutVarint32 [] v = q ++ r -> r <> [] -> GetVarint32 q = None.
Proof. apply GetVarintPtr_truncated. Qed.


(** The writers only append. *)
Lemma PutVarint32_app dst v : PutVarint32 dst v = dst ++ PutVarint32 [] v.
Proof. reflexivity. Qed.

Lemma PutVarint64_app dst v : PutVarint64 dst v = dst ++ PutVarint64 [] v.
Proof. reflexivity. Qed.

Lemma PutLengthPrefixedSlice_app dst s :
  PutLengthPrefixedSlice dst s = dst ++ PutLengthPrefixedSlice [] s.
Proof.
  unfold PutLengthPrefixedSlice, PutVarint32. now rewrite app_nil_l, app_assoc.
Qed.

Lemma GetLengthPrefixedSlice_Put s rest :
  Z.of_nat (length s) < 2 ^ 32 ->
  GetLengthPrefixedSlice (PutLengthPrefixedSlice [] s ++ rest) = Some (s, rest).
Proof.
  intros Hs. unfold GetLengthPrefixedSlice, PutLengthPrefixedSlice.
  rewrite <- app_assoc, GetVarint32_Put by lia.
  rewrite length_app, Nat2Z.id.
  destruct (Z.leb_spec (Z.of_nat (length s)) (Z.of_nat (length s + length rest)));
    [|lia].
  now rewrite take_app_length, drop_app_length.
Qed.

Lemma GetLengthPrefixedSlice_app p s rest y :
  GetLengthPrefixedSlice p = Some (s, rest) ->
  GetLengthPrefixedSlice (p ++ y) = Some (s, rest ++ y).
Proof.
  unfold GetLengthPrefixedSlice.
  destruct (GetVarint32 p) as [[len p']|] eqn:E; [|discriminate].
  rewrite (GetVarint32_app _ _ _ y E).
  pose proof (GetVarint32_bound _ _ _ E).
  destruct (Z.leb_spec len (Z.of_nat (length p'))); [|discriminate].
  intros [= <- <-]. rewrite length_app.
  destruct (Z.leb_spec len (Z.of_nat (length p' + length y))); [|lia].
  rewrite take_app_le, drop_app_le by lia. reflexivity.
Qed.

Lemma GetLengthPrefixedSlice_shorter p s rest :
  GetLengthPrefixedSlice p = Some (s, rest) -> (length rest < length p)%nat.
Proof.
  unfold GetLengthPrefixedSlice.
  destruct (GetVarint32 p) as [[len p']|] eqn:E; [|discriminate].
  apply GetVarint32_shorter in E.
  destruct (len <=? Z.of_nat (length p')); [|discriminate].
  intros [= <- <-]. rewrite length_drop. lia.
Qed.

(** How a cut through [x ++ y] lies: inside [x], or at or after its end. *)
Lemma cut_app {A : Type} (q r x y : list A) :
  q ++ r = x ++ y ->
  (exists r', x = q ++ r' /\ r' <> []) \/ (exists q', q = x ++ q' /\ y = q' ++ r).
Proof.
  revert x. induction q as [|a q IH]; intros x E.
  - destruct x as [|b x].
    + right. exists []. split; [reflexivity|]. simpl in *. now subst.
    + left. exists (b :: x). split; [reflexivity|discriminate].
  - destruct x as [|b x].
    + right. exists (a :: q). simpl in *. now subst.
    + simpl in E. injection E as -> E.
      destruct (IH _ E) as [(r' & -> & Hr)|(q' & -> & ->)].
      * left. exists r'. now split.
      * right. exists q'. now split.
Qed.

Lemma GetLengthPrefixedSlice_truncated s q r :
  Z.of_nat (length s) < 2 ^ 32 ->
  PutLengthPrefixedSlice [] s = q ++ r -> r <> [] ->
  GetLengthPrefixedSlice q = None.
Proof.
  intros Hs E Hr. unfold PutLengthPrefixedSlice in E. symmetry in E.
  apply cut_app in E as [(r' & E & Hr')|(q' & -> & ->)].
  - unfold GetLengthPrefixedSlice.
    now rewrite (GetVarint32_truncated _ _ _ E Hr').
  - unfold GetLengthPrefixedSlice. rewrite GetVarint32_Put by lia.
    rewrite length_app.
    destruct r; [contradiction|]. simpl length.
    destruct (Z.leb_spec (Z.of_nat (length q' + S (length r)))
                (Z.of_nat (length q'))); [lia|reflexivity].
Qed.

(** Fixed-width integers. *)
Lemma DecodeFixed32_Encode v rest :
  DecodeFixed32 (EncodeFixed32 v ++ rest) = v mod 2 ^ 32.
Proof.
  unfold EncodeFixed32, DecodeFixed32. cbn [app].
  rewrite !b2z_z2b, !Z.shiftr_div_pow2 by lia.
  change (2 ^ 8) with 256. change (2 ^ 16) with (256 * 256).
  change (2 ^ 24) with (256 * 256 * 256).
  change (2 ^ 32) with (256 * 256 * 256 * 256).
  rewrite <- !Z.div_div by lia.
  set (q1 := v / 256). set (q2 := q1 / 256). set (q3 := q2 / 256).
  assert (H0 : 0 <= v mod 256 < 256) by (apply Z.mod_pos_bound; lia).
  assert (H1 : 0 <= q1 mod 256 < 256) by (apply Z.mod_pos_bound; lia).
  assert (H2 : 0 <= q2 mod 256 < 256) by (apply Z.mod_pos_bound; lia).
  assert (H3 : 0 <= q3 mod 256 < 256) by (apply Z.mod_pos_bound; lia).
  rewrite (lor_shiftl_add _ _ 8) by lia.
  rewrite (lor_shiftl_add _ _ 16) by lia.
  rewrite (lor_shiftl_add _ _ 24) by lia.
  change (2 ^ 8) with 256 in *. change (2 ^ 16) with 65536 in *.
  change (2 ^ 24) with 16777216 in *.
  pose proof (Z.div_mod v 256 ltac:(lia)) as E0. fold q1 in E0.
  pose proof (Z.div_mod q1 256 ltac:(lia)) as E1. fold q2 in E1.
  pose proof (Z.div_mod q2 256 ltac:(lia)) as E2. fold q3 in E2.
  pose proof (Z.div_mod q3 256 ltac:(lia)) as E3.
  apply Z.mod_unique with (q := q3 / 256); lia.
Qed.


Lemma DecodeFixed64_Encode v rest :
  DecodeFixed64 (EncodeFixed64 v ++ rest) = v mod 2 ^ 64.
Proof.
  unfold DecodeFixed64, EncodeFixed64.
  rewrite <- app_assoc, DecodeFixed32_Encode.
  change (drop 4 (EncodeFixed32 v ++ EncodeFixed32 (Z.shiftr v 32) ++ rest))
    with (EncodeFixed32 (Z.shiftr v 32) ++ rest).
  rewrite DecodeFixed32_Encode, Z.shiftr_div_pow2 by lia.
  assert (0 <= v mod 2 ^ 32 < 2 ^ 32) by (apply Z.mod_pos_bound; lia).
  assert (0 <= (v / 2 ^ 32) mod 2 ^ 32 < 2 ^ 32) by (apply Z.mod_pos_bound; lia).
  rewrite lor_shiftl_add by lia.
  pose proof (Z.div_mod v (2 ^ 32) ltac:(lia)).
  pose proof (Z.div_mod (v / 2 ^ 32) (2 ^ 32) ltac:(lia)).
  change (2 ^ 64) with (2 ^ 32 * 2 ^ 32).
  change (2 ^ 32) with 4294967296 in *.
  apply Z.mod_unique with (q := v / 4294967296 / 4294967296); lia.
Qed.

Lemma EncodeFixed32_length v : length (EncodeFixed32 v) = 4%nat.
Proof. reflexivity. Qed.

Lemma EncodeFixed64_length v : length (EncodeFixed64 v) = 8%nat.
Proof. reflexivity. Qed.

End Coding.

(** ** Status values and results of calls *)

Inductive Status : Type :=
| OK
| Corruption (msg msg2 : string).

(** What a call produces: it returns (a status and the object it worked
    on), it ends the process in a failed [assert], or, for the loops that
    are run on fuel, the fuel was too small (shown not to happen). *)
Inductive outcome (A : Type) : Type :=
| Returned (s : Status) (a : A)
| Aborted
| OutOfFuel.
Arguments Returned {A} s a.
Arguments Aborted {A}.
Arguments OutOfFuel {A}.

Notation "'let?' p := e 'in' k" :=
  (match e with Some p => k | None => None end)
  (at level 10, p pattern, e at level 200, k at level 200, only parsing).

(** A [std::set] with comparison [ltb]: a strictly increasing list.  Inserting
    an element equivalent to one already there changes nothing. *)
Fixpoint set_insert {A : Type} (ltb : A -> A -> bool) (x : A) (l : list A)
  : list A :=
  match l with
  | [] => [x]
  | y :: r =>
      if ltb x y then x :: y :: r
      else if ltb y x then y :: set_insert ltb x r
      else y :: r
  end.

(** [std::pair<int, uint64_t>] under its built-in lexicographic [operator<]. *)
Definition pair_ltb (p1 p2 : Z * Z) : bool :=
  (fst p1 <? fst p2) || ((fst p1 =? fst p2) && (snd p1 <? snd p2)).

(** Facts about [set_insert] for a comparison that is a strict order. *)
Section SetInsert.

Context {A : Type} (ltb : A -> A -> bool).
Hypothesis ltb_trans : forall a b c, ltb a b = true -> ltb b c = true -> ltb a c = true.
Hypothesis ltb_asym : forall a b, ltb a b = true -> ltb b a = false.

Definition increasing (l : list A) : Prop :=
  StronglySorted (fun a b => ltb a b = true) l.

Lemma set_insert_elem x y l :
  In y (set_insert ltb x l) -> y = x \/ In y l.
Proof.
  induction l as [|z l IH]; simpl.
  - intros [->|[]]. now left.
  - destruct (ltb x z).
    + intros [->|H]; [now left|now right].
    + destruct (ltb z x).
      * intros [->|H]; [right; now left|].
        destruct (IH H) as [->|H']; [now left|right; now right].
      * intros H. now right.
Qed.

Lemma set_insert_Forall (P : A -> Prop) x l :
  P x -> Forall P l -> Forall P (set_insert ltb x l).
Proof.
  intros Hx Hl. apply List.Forall_forall. intros y Hy.
  apply set_insert_elem in Hy as [->|Hy]; [exact Hx|].
  rewrite List.Forall_forall in Hl. now apply Hl.
Qed.

Lemma set_insert_increasing x l :
  increasing l -> increasing (set_insert ltb x l).
Proof.
  unfold increasing. induction l as [|z l IH]; simpl; intros S.
  - repeat constructor.
  - apply StronglySorted_inv in S as [S Hz].
    destruct (ltb x z) eqn:Exz.
    + constructor; [constructor; assumption|].
      constructor; [exact Exz|].
      eapply List.Forall_impl; [|exact Hz]. intros a Ha. simpl in Ha.
      eapply ltb_trans; eauto.
    + destruct (ltb z x) eqn:Ezx.
      * constructor; [now apply IH|].
        apply set_insert_Forall; assumption.
      * constructor; assumption.
Qed.



End SetInsert.

Lemma pair_ltb_trans a b c :
  pair_ltb a b = true -> pair_ltb b c = true -> pair_ltb a c = true.
Proof. unfold pair_ltb. lia. Qed.

Lemma pair_ltb_asym a b : pair_ltb a b = true -> pair_ltb b a = false.
Proof. unfold pair_ltb. lia. Qed.

(** ** More on sets as increasing lists *)

Lemma set_insert_keeps {A : Type} (ltb : A -> A -> bool) x y (l : list A) :
  In y l -> In y (set_insert ltb x l).
Proof.
  induction l as [|z l IH]; [intros []|].
  intros Hy. cbn [set_insert].
  destruct (ltb x z); [now right|].
  destruct (ltb z x); [|exact Hy].
  destruct Hy as [->|Hy]; [now left|right; auto].
Qed.



(** Under a total order the list is determined by its elements. *)

Section SetInsertTotal.

Context {A : Type} (ltb : A -> A -> bool).
Hypothesis ltb_trans :
  forall a b c, ltb a b = true -> ltb b c = true -> ltb a c = true.
Hypothesis ltb_asym : forall a b, ltb a b = true -> ltb b a = false.
Hypothesis ltb_total : forall a b, ltb a b = false -> ltb b a = false -> a = b.

Lemma ltb_irrefl a : ltb a a = false.
Proof.
  destruct (ltb a a) eqn:E; [|reflexivity].
  pose proof (ltb_asym _ _ E). congruence.
Qed.

Lemma set_insert_In x z (l : list A) :
  In z (set_insert ltb x l) <-> z = x \/ In z l.
Proof.
  split; [apply set_insert_elem|].
  intros [->|Hz]; [|now apply set_insert_keeps].
  induction l as [|y l IH]; cbn [set_insert]; [now left|].
  destruct (ltb x y) eqn:Exy; [now left|].
  destruct (ltb y x) eqn:Eyx; [right; exact IH|].
  left. symmetry. now apply ltb_total.
Qed.


(** Two strictly increasing lists with the same elements are the same
    list. *)
Lemma increasing_ext (l1 l2 : list A) :
  increasing ltb l1 -> increasing ltb l2 ->
  (forall z, In z l1 <-> In z l2) -> l1 = l2.
Proof.
  unfold increasing. intros S1. revert l2.
  induction S1 as [|a l1 S1 IH Ha]; intros l2 S2 E.
  - destruct l2 as [|b l2]; [reflexivity|].
    destruct (proj2 (E b) (or_introl eq_refl)).
  - destruct l2 as [|b l2].
    + destruct (proj1 (E a) (or_introl eq_refl)).
    + apply StronglySorted_inv in S2 as [S2 Hb].
      rewrite List.Forall_forall in Ha, Hb.
      assert (Eab : a = b).
      { destruct (proj1 (E a) (or_introl eq_refl)) as [Hab|Hab];
          [now symmetry|].
        destruct (proj2 (E b) (or_introl eq_refl)) as [Hba|Hba];
          [exact Hba|].
        specialize (Ha _ Hba). specialize (Hb _ Hab).
        rewrite (ltb_asym _ _ Ha) in Hb. discriminate. }
      subst b. f_equal. apply IH; [exact S2|].
      intros z. split; intros Hz.
      * destruct (proj1 (E z) (or_intror Hz)) as [<-|H]; [|exact H].
        specialize (Ha _ Hz). rewrite ltb_irrefl in Ha. discriminate.
      * destruct (proj2 (E z) (or_intror Hz)) as [<-|H]; [|exact H].
        specialize (Hb _ Hz). rewrite ltb_irrefl in Hb. discriminate.
Qed.

Lemma set_insert_comm x y (l : list A) :
  increasing ltb l ->
  set_insert ltb x (set_insert ltb y l) = set_insert ltb y (set_insert ltb x l).
Proof.
  intros S. apply increasing_ext.
  - do 2 (apply set_insert_increasing; [exact ltb_trans|]). exact S.
  - do 2 (apply set_insert_increasing; [exact ltb_trans|]). exact S.
  - intros z. rewrite !set_insert_In. tauto.
Qed.

Lemma set_insert_idem x (l : list A) :
  increasing ltb l ->
  set_insert ltb x (set_insert ltb x l) = set_insert ltb x l.
Proof.
  intros S. apply increasing_ext.
  - do 2 (apply set_insert_increasing; [exact ltb_trans|]). exact S.
  - apply set_insert_increasing; [exact ltb_trans|exact S].
  - intros z. rewrite !set_insert_In. tauto.
Qed.

End SetInsertTotal.

Lemma pair_ltb_total a b : pair_ltb a b = false -> pair_ltb b a = false -> a = b.
Proof.
  destruct a as [a1 a2], b as [b1 b2]. unfold pair_ltb. cbn [fst snd].
  intros H1 H2. f_equal; lia.
Qed.

(** ** db/version_edit *)

Module VersionEdit.

(** Tag numbers for serialized VersionEdit. *)
Definition kComparator : Z := 1.
Definition kLogNumber : Z := 2.
Definition kNextFileNumber : Z := 3.
Definition kLastSequence : Z := 4.
Definition kCompactPointer : Z := 5.
Definition kDeletedFile : Z := 6.
Definition kNewFile : Z := 7.
Definition kPrevLogNumber : Z := 9.
Definition kNewFence : Z := 10.
Definition kDeletedFence : Z := 11.
Definition kFileInsideFence : Z := 12.
Definition kNewSentinelFile : Z := 13.
Definition kDeletedSentinelFile : Z := 14.
Definition kNewCompleteFence : Z := 15.
Definition kNewSentinelFileNo : Z := 16.

(** A raw pointer kept for reference only ([FenceMetaData*],
    [FileMetaData*]): an opaque address, [None] for the null pointer. *)
Definition pointer : Type := option nat.

Section WithKeys.

(** [config::kNumLevels] and the internal-key class live in db/dbformat.h,
    which is not among the sources: the level count, the key type, its
    [Encode] and [DecodeFrom] ([None] when it reports failure), the
    default-constructed key and the comparator's three-way [Compare] are
    parameters. *)
Variable kNumLevels : Z.
Variable InternalKey : Type.
Variable ikey_Encode : InternalKey -> list byte.
Variable ikey_DecodeFrom : list byte -> option InternalKey.
Variable ikey_empty : InternalKey.
Variable Compare : InternalKey -> InternalKey -> Z.

Record FileMetaData : Type := mkFile {
  f_refs : Z;
  f_allowed_seeks : Z;
  f_number : Z;
  f_file_size : Z;
  f_smallest : InternalKey;
  f_largest : InternalKey;
  f_fence : pointer
}.

(** [FileMetaData()]; the constructor leaves [number] unset, and every use
    below writes it before the value is stored. *)
Definition FileMetaData_new : FileMetaData :=
  mkFile 0 (2 ^ 30) 0 0 ikey_empty ikey_empty None.

Record FenceMetaData : Type := mkFence {
  g_refs : Z;
  g_level : Z;
  g_number_segments : Z;
  g_fence_key : InternalKey;
  g_smallest : InternalKey;
  g_largest : InternalKey;
  g_files : list Z;
  g_file_metas : list pointer
}.

(** [FenceMetaData()]. *)
Definition FenceMetaData_new : FenceMetaData :=
  mkFence 0 (-1) 0 ikey_empty ikey_empty ikey_empty [] [].

(** [BySmallestPair]: level first, then the injected comparator. *)
Definition BySmallestPair (p1 p2 : Z * InternalKey) : bool :=
  if negb (fst p1 =? fst p2) then fst p1 <? fst p2
  else Compare (snd p1) (snd p2) <? 0.

(** The private members of [class VersionEdit].  The four arrays indexed by
    level are lists with one entry a level. *)
Record t : Type := mk {
  comparator_ : list byte;
  log_number_ : Z;
  prev_log_number_ : Z;
  next_file_number_ : Z;
  last_sequence_ : Z;
  has_comparator_ : bool;
  has_log_number_ : bool;
  has_prev_log_number_ : bool;
  has_next_file_number_ : bool;
  has_last_sequence_ : bool;
  compact_pointers_ : list (Z * InternalKey);
  deleted_files_ : list (Z * Z);
  new_files_ : list (Z * FileMetaData);
  sentinel_files_ : list (list FileMetaData);
  sentinel_file_nos_ : list (list Z);
  deleted_sentinel_files_ : list (Z * Z);
  new_fences_ : list (list FenceMetaData);
  new_complete_fences_ : list (list FenceMetaData);
  deleted_fences_ : list (Z * InternalKey)
}.

(** [arr[level].push_back(x)] on a per-level array. *)
Definition push_at {A : Type} (level : Z) (x : A) (arr : list (list A))
  : list (list A) :=
  alter (fun v => v ++ [x]) (Z.to_nat level) arr.

(** [for (i = 0; i < kNumLevels; i++) arr[i].clear()], counting [i] up from
    [kNumLevels - n]. *)
Fixpoint clear_levels {A : Type} (n : nat) (i : nat) (arr : list (list A))
  : list (list A) :=
  match n with
  | O => arr
  | S n' => clear_levels n' (S i) (<[i := []]> arr)
  end.

Definition Clear (e : t) : t :=
  mk [] 0 0 0 0 false false false false false
     [] [] []
     (clear_levels (Z.to_nat kNumLevels) 0 (sentinel_files_ e))
     (sentinel_file_nos_ e)
     (deleted_sentinel_files_ e)
     (clear_levels (Z.to_nat kNumLevels) 0 (new_fences_ e))
     (new_complete_fences_ e)
     (deleted_fences_ e).

(** [VersionEdit() { Clear(); }]: the members are default-constructed, the
    level arrays hold [kNumLevels] empty vectors, then [Clear] runs. *)
Definition empty_levels {A : Type} : list (list A) :=
  replicate (Z.to_nat kNumLevels) [].

Definition new : t :=
  Clear (mk [] 0 0 0 0 false false false false false [] [] []
            empty_levels empty_levels [] empty_levels empty_levels []).


(** Field updates. *)
Definition with_compact_pointers (v : list (Z * InternalKey)) (e : t) : t :=
  mk (comparator_ e) (log_number_ e) (prev_log_number_ e)
     (next_file_number_ e) (last_sequence_ e) (has_comparator_ e)
     (has_log_number_ e) (has_prev_log_number_ e) (has_next_file_number_ e)
     (has_last_sequence_ e) v (deleted_files_ e) (new_files_ e)
     (sentinel_files_ e) (sentinel_file_nos_ e) (deleted_sentinel_files_ e)
     (new_fences_ e) (new_complete_fences_ e) (deleted_fences_ e).

Definition with_deleted_files (v : list (Z * Z)) (e : t) : t :=
  mk (comparator_ e) (log_number_ e) (prev_log_number_ e)
     (next_file_number_ e) (last_sequence_ e) (has_comparator_ e)
     (has_log_number_ e) (has_prev_log_number_ e) (has_next_file_number_ e)
     (has_last_sequence_ e) (compact_pointers_ e) v (new_files_ e)
     (sentinel_files_ e) (sentinel_file_nos_ e) (deleted_sentinel_files_ e)
     (new_fences_ e) (new_complete_fences_ e) (deleted_fences_ e).

Definition with_new_files (v : list (Z * FileMetaData)) (e : t) : t :=
  mk (comparator_ e) (log_number_ e) (prev_log_number_ e)
     (next_file_number_ e) (last_sequence_ e) (has_comparator_ e)
     (has_log_number_ e) (has_prev_log_number_ e) (has_next_file_number_ e)
     (has_last_sequence_ e) (compact_pointers_ e) (deleted_files_ e) v
     (sentinel_files_ e) (sentinel_file_nos_ e) (deleted_sentinel_files_ e)
     (new_fences_ e) (new_complete_fences_ e) (deleted_fences_ e).

Definition with_sentinel_files (v : list (list FileMetaData)) (e : t) : t :=
  mk (comparator_ e) (log_number_ e) (prev_log_number_ e)
     (next_file_number_ e) (last_sequence_ e) (has_comparator_ e)
     (has_log_number_ e) (has_prev_log_number_ e) (has_next_file_number_ e)
     (has_last_sequence_ e) (compact_pointers_ e) (deleted_files_ e)
     (new_files_ e) v (sentinel_file_nos_ e) (deleted_sentinel_files_ e)
     (new_fences_ e) (new_complete_fences_ e) (deleted_fences_ e).

Definition with_sentinel_file_nos (v : list (list Z)) (e : t) : t :=
  mk (comparator_ e) (log_number_ e) (prev_log_number_ e)
     (next_file_number_ e) (last_sequence_ e) (has_comparator_ e)
     (has_log_number_ e) (has_prev_log_number_ e) (has_next_file_number_ e)
     (has_last_sequence_ e) (compact_pointers_ e) (deleted_files_ e)
     (new_files_ e) (sentinel_files_ e) v (deleted_sentinel_files_ e)
     (new_fences_ e) (new_complete_fences_ e) (deleted_fences_ e).

Definition with_deleted_sentinel_files (v : list (Z * Z)) (e : t) : t :=
  mk (comparator_ e) (log_number_ e) (prev_log_number_ e)
     (next_file_number_ e) (last_sequence_ e) (has_comparator_ e)
     (has_log_number_ e) (has_prev_log_number_ e) (has_next_file_number_ e)
     (has_last_sequence_ e) (compact_pointers_ e) (deleted_files_ e)
     (new_files_ e) (sentinel_files_ e) (sentinel_file_nos_ e) v
     (new_fences_ e) (new_complete_fences_ e) (deleted_fences_ e).

Definition with_new_fences (v : list (list FenceMetaData)) (e : t) : t :=
  mk (comparator_ e) (log_number_ e) (prev_log_number_ e)
     (next_file_number_ e) (last_sequence_ e) (has_comparator_ e)
     (has_log_number_ e) (has_prev_log_number_ e) (has_next_file_number_ e)
     (has_last_sequence_ e) (compact_pointers_ e) (deleted_files_ e)
     (new_files_ e) (sentinel_files_ e) (sentinel_file_nos_ e)
     (deleted_sentinel_files_ e) v (new_complete_fences_ e)
     (deleted_fences_ e).

Definition with_new_complete_fences (v : list (list FenceMetaData)) (e : t)
  : t :=
  mk (comparator_ e) (log_number_ e) (prev_log_number_ e)
     (next_file_number_ e) (last_sequence_ e) (has_comparator_ e)
     (has_log_number_ e) (has_prev_log_number_ e) (has_next_file_number_ e)
     (has_last_sequence_ e) (compact_pointers_ e) (deleted_files_ e)
     (new_files_ e) (sentinel_files_ e) (sentinel_file_nos_ e)
     (deleted_sentinel_files_ e) (new_fences_ e) v (deleted_fences_ e).

Definition with_deleted_fences (v : list (Z * InternalKey)) (e : t) : t :=
  mk (comparator_ e) (log_number_ e) (prev_log_number_ e)
     (next_file_number_ e) (last_sequence_ e) (has_comparator_ e)
     (has_log_number_ e) (has_prev_log_number_ e) (has_next_file_number_ e)
     (has_last_sequence_ e) (compact_pointers_ e) (deleted_files_ e)
     (new_files_ e) (sentinel_files_ e) (sentinel_file_nos_ e)
     (deleted_sentinel_files_ e) (new_fences_ e) (new_complete_fences_ e) v.

(** *** The public mutators (db/version_edit.h) *)

Definition SetComparatorName (name : list byte) (e : t) : t :=
  mk name (log_number_ e) (prev_log_number_ e)
     (next_file_number_ e) (last_sequence_ e) true
     (has_log_number_ e) (has_prev_log_number_ e) (has_next_file_number_ e)
     (has_last_sequence_ e) (compact_pointers_ e) (deleted_files_ e)
     (new_files_ e) (sentinel_files_ e) (sentinel_file_nos_ e)
     (deleted_sentinel_files_ e) (new_fences_ e) (new_complete_fences_ e)
     (deleted_fences_ e).

Definition SetLogNumber (num : Z) (e : t) : t :=
  mk (comparator_ e) num (prev_log_number_ e)
     (next_file_number_ e) (last_sequence_ e) (has_comparator_ e)
     true (has_prev_log_number_ e) (has_next_file_number_ e)
     (has_last_sequence_ e) (compact_pointers_ e) (deleted_files_ e)
     (new_files_ e) (sentinel_files_ e) (sentinel_file_nos_ e)
     (deleted_sentinel_files_ e) (new_fences_ e) (new_complete_fences_ e)
     (deleted_fences_ e).

Definition SetPrevLogNumber (num : Z) (e : t) : t :=
  mk (comparator_ e) (log_number_ e) num
     (next_file_number_ e) (last_sequence_ e) (has_comparator_ e)
     (has_log_number_ e) true (has_next_file_number_ e)
     (has_last_sequence_ e) (compact_pointers_ e) (deleted_files_ e)
     (new_files_ e) (sentinel_files_ e) (sentinel_file_nos_ e)
     (deleted_sentinel_files_ e) (new_fences_ e) (new_complete_fences_ e)
     (deleted_fences_ e).

Definition SetNextFile (num : Z) (e : t) : t :=
  mk (comparator_ e) (log_number_ e) (prev_log_number_ e)
     num (last_sequence_ e) (has_comparator_ e)
     (has_log_number_ e) (has_prev_log_number_ e) true
     (has_last_sequence_ e) (compact_pointers_ e) (deleted_files_ e)
     (new_files_ e) (sentinel_files_ e) (sentinel_file_nos_ e)
     (deleted_sentinel_files_ e) (new_fences_ e) (new_complete_fences_ e)
     (deleted_fences_ e).

Definition SetLastSequence (seq : Z) (e : t) : t :=
  mk (comparator_ e) (log_number_ e) (prev_log_number_ e)
     (next_file_number_ e) seq (has_comparator_ e)
     (has_log_number_ e) (has_prev_log_number_ e) (has_next_file_number_ e)
     true (compact_pointers_ e) (deleted_files_ e)
     (new_files_ e) (sentinel_files_ e) (sentinel_file_nos_ e)
     (deleted_sentinel_files_ e) (new_fences_ e) (new_complete_fences_ e)
     (deleted_fences_ e).

Definition SetCompactPointer (level : Z) (key : InternalKey) (e : t) : t :=
  with_compact_pointers (compact_pointers_ e ++ [(level, key)]) e.

Definition AddFile (level file file_size : Z) (smallest largest : InternalKey)
  (e : t) : t :=
  let f := mkFile (f_refs FileMetaData_new) (f_allowed_seeks FileMetaData_new)
                  file file_size smallest largest (f_fence FileMetaData_new) in
  with_new_files (new_files_ e ++ [(level, f)]) e.

(** [assert(0 <= level && level < config::kNumLevels)]. *)
Definition level_ok (level : Z) : bool :=
  (0 <=? level) && (level <? kNumLevels).

(** The mutators that index a per-level array give [None] when the array
    is indexed out of bounds: those that assert the bound stop there, the
    two that do not ([AddSentinelFile], [AddSentinelFileNo]) have no defined
    behaviour. *)
Definition AddFileToSentinel (f : FileMetaData) (level : Z) (e : t)
  : option t :=
  if level_ok level
  then Some (with_sentinel_files (push_at level f (sentinel_files_ e)) e)
  else None.

Definition AddSentinelFile (level allowed_seeks file_size : Z) (f : pointer)
  (largest smallest : InternalKey) (number refs : Z) (e : t) : option t :=
  let meta := mkFile refs allowed_seeks number file_size smallest largest f in
  if level_ok level
  then Some (with_sentinel_files (push_at level meta (sentinel_files_ e)) e)
  else None.

Definition AddSentinelFileNo (level no : Z) (e : t) : option t :=
  if level_ok level
  then Some (with_sentinel_file_nos
               (push_at level no (sentinel_file_nos_ e)) e)
  else None.

Definition AddFence (level : Z) (fence_key : InternalKey) (e : t) : option t :=
  if level_ok level then
    let g := mkFence (g_refs FenceMetaData_new) level 0 fence_key
               (g_smallest FenceMetaData_new) (g_largest FenceMetaData_new)
               (g_files FenceMetaData_new) (g_file_metas FenceMetaData_new) in
    Some (with_new_fences (push_at level g (new_fences_ e)) e)
  else None.

Definition AddCompleteFence (level : Z) (fence_key : InternalKey) (e : t)
  : option t :=
  if level_ok level then
    let f := mkFence (g_refs FenceMetaData_new) level 0 fence_key
               (g_smallest FenceMetaData_new) (g_largest FenceMetaData_new)
               (g_files FenceMetaData_new) (g_file_metas FenceMetaData_new) in
    Some (with_new_complete_fences
            (push_at level f (new_complete_fences_ e)) e)
  else None.

Definition AddFenceFromExisting (level : Z) (g : FenceMetaData) (e : t)
  : option t :=
  if level_ok level
  then Some (with_new_fences (push_at level g (new_fences_ e)) e)
  else None.

Definition AddCompleteFenceFromExisting (level : Z) (f : FenceMetaData)
  (e : t) : option t :=
  if level_ok level
  then Some (with_new_complete_fences
               (push_at level f (new_complete_fences_ e)) e)
  else None.

(** A version of AddFence that contains files. *)
Definition AddFenceWithFiles (level number_segments : Z)
  (fence_key smallest largest : InternalKey) (files : list Z) (e : t)
  : option t :=
  if level_ok level then
    let g := mkFence (g_refs FenceMetaData_new) level number_segments
               fence_key smallest largest
               (g_files FenceMetaData_new ++ files)
               (g_file_metas FenceMetaData_new) in
    Some (with_new_fences (push_at level g (new_fences_ e)) e)
  else None.

Definition RemoveFile (level file : Z) (e : t) : t :=
  with_deleted_files (set_insert pair_ltb (level, file) (deleted_files_ e)) e.

Definition DeleteFence (level : Z) (fence : InternalKey) (e : t) : t :=
  with_deleted_fences
    (set_insert BySmallestPair (level, fence) (deleted_fences_ e)) e.

Definition DeleteSentinelFile (level file : Z) (e : t) : t :=
  with_deleted_sentinel_files
    (set_insert pair_ltb (level, file) (deleted_sentinel_files_ e)) e.


(** *** EncodeTo *)

Import Coding.

Definition put_level_number (tag : Z) (dst : list byte) (p : Z * Z)
  : list byte :=
  PutVarint64 (PutVarint32 (PutVarint32 dst tag) (fst p)) (snd p).

Definition put_level_key (tag : Z) (dst : list byte) (p : Z * InternalKey)
  : list byte :=
  PutLengthPrefixedSlice (PutVarint32 (PutVarint32 dst tag) (fst p))
    (ikey_Encode (snd p)).

Definition put_new_file (dst : list byte) (p : Z * FileMetaData) : list byte :=
  let f := snd p in
  PutLengthPrefixedSlice
    (PutLengthPrefixedSlice
       (PutVarint64
          (PutVarint64 (PutVarint32 (PutVarint32 dst kNewFile) (fst p))
             (f_number f))
          (f_file_size f))
       (ikey_Encode (f_smallest f)))
    (ikey_Encode (f_largest f)).

(** The segment count written is the constant 0, not [number_segments]. *)
Definition put_fence (tag : Z) (dst : list byte) (f : FenceMetaData)
  : list byte :=
  PutLengthPrefixedSlice
    (PutVarint64 (PutVarint32 (PutVarint32 dst tag) (g_level f)) 0)
    (ikey_Encode (g_fence_key f)).

(** The inner loop, over the fences of one level. *)
Definition put_fences (tag : Z) (dst : list byte) (fences : list FenceMetaData)
  : list byte :=
  fold_left (put_fence tag) fences dst.

(** The body follows the statements of the source in their order; a loop
    over a vector or a set is a left fold, the two loops over the levels
    fold over the per-level array. *)
Definition EncodeTo (e : t) (dst : list byte) : list byte :=
  let dst := if has_comparator_ e
             then PutLengthPrefixedSlice (PutVarint32 dst kComparator)
                    (comparator_ e)
             else dst in
  let dst := if has_log_number_ e
             then PutVarint64 (PutVarint32 dst kLogNumber) (log_number_ e)
             else dst in
  let dst := if has_prev_log_number_ e
             then PutVarint64 (PutVarint32 dst kPrevLogNumber)
                    (prev_log_number_ e)
             else dst in
  let dst := if has_next_file_number_ e
             then PutVarint64 (PutVarint32 dst kNextFileNumber)
                    (next_file_number_ e)
             else dst in
  let dst := if has_last_sequence_ e
             then PutVarint64 (PutVarint32 dst kLastSequence)
                    (last_sequence_ e)
             else dst in
  let dst := fold_left (put_level_key kCompactPointer)
               (compact_pointers_ e) dst in
  let dst := fold_left (put_level_number kDeletedFile)
               (deleted_files_ e) dst in
  let dst := fold_left put_new_file (new_files_ e) dst in
  let dst := fold_left (put_level_key kDeletedFence)
               (deleted_fences_ e) dst in
  let dst := fold_left (put_fences kNewFence) (new_fences_ e) dst in
  let dst := fold_left (put_fences kNewCompleteFence)
               (new_complete_fences_ e) dst in
  fold_left (put_level_number kDeletedSentinelFile)
    (deleted_sentinel_files_ e) dst.

(** *** DecodeFrom *)

Definition GetInternalKey (input : list byte)
  : option (InternalKey * list byte) :=
  let? (str, input) := GetLengthPrefixedSlice input in
  let? key := ikey_DecodeFrom str in
  Some (key, input).

Definition GetLevel (input : list byte) : option (Z * list byte) :=
  let? (v, input) := GetVarint32 input in
  if v <? kNumLevels then Some (v, input) else None.

(** The locals of [DecodeFrom] that carry values from one entry to the
    next: [tag2] and [fnumber] start unset, [g] is a [FenceMetaData()].
    The other temporaries are written in full before each use. *)
Record locals : Type := mkLocals {
  l_tag2 : option Z;
  l_fnumber : option Z;
  l_g : FenceMetaData
}.

Definition locals_init : locals := mkLocals None None FenceMetaData_new.

(** One turn of the [switch]: go on with the rest of the input, leave the
    loop with [msg] set, or stop in a failed assertion. *)
Inductive step : Type :=
| Continue (input : list byte) (l : locals) (e : t)
| Malformed (msg : string)
| Abort.

(** The loop that gathers the files inside a fence.  The results of the
    two reads are not tested: a read that fails leaves [tag2] or [fnumber]
    as it was.  The assertion on [tag2] stops the call; using [tag2] or
    [fnumber] while still unset has no defined result and is [None] too. *)
Fixpoint read_fence_files (n : nat) (input : list byte)
  (tag2 fnumber : option Z) (files : list Z)
  : option (list byte * option Z * option Z * list Z) :=
  match n with
  | O => Some (input, tag2, fnumber, files)
  | S n' =>
      let '(tag2, input) :=
        match GetVarint32 input with
        | Some (v, input') => (Some v, input')
        | None => (tag2, input)
        end in
      match tag2 with
      | Some v =>
          if v =? kFileInsideFence then
            let '(fnumber, input) :=
              match GetVarint64 input with
              | Some (x, input') => (Some x, input')
              | None => (fnumber, input)
              end in
            match fnumber with
            | Some x => read_fence_files n' input tag2 fnumber (files ++ [x])
            | None => None
            end
          else None
      | None => None
      end
  end.

(** [assert(GetInternalKey(&input, &g.smallest) &&
            GetInternalKey(&input, &g.largest))], run with assertions
    enabled. *)
Definition assert_key_pair (input : list byte)
  : option (InternalKey * InternalKey * list byte) :=
  let? (smallest, input) := GetInternalKey input in
  let? (largest, input) := GetInternalKey input in
  Some (smallest, largest, input).

Definition get_file_entry (input : list byte)
  : option (Z * FileMetaData * list byte) :=
  let? (level, input) := GetLevel input in
  let? (number, input) := GetVarint64 input in
  let? (file_size, input) := GetVarint64 input in
  let? (smallest, input) := GetInternalKey input in
  let? (largest, input) := GetInternalKey input in
  Some (level,
        mkFile (f_refs FileMetaData_new) (f_allowed_seeks FileMetaData_new)
          number file_size smallest largest (f_fence FileMetaData_new),
        input).

Definition get_level_number (input : list byte) : option (Z * Z * list byte) :=
  let? (level, input) := GetLevel input in
  let? (number, input) := GetVarint64 input in
  Some (level, number, input).

Definition get_level_key (input : list byte)
  : option (Z * InternalKey * list byte) :=
  let? (level, input) := GetLevel input in
  let? (key, input) := GetInternalKey input in
  Some (level, key, input).

Definition get_fence_head (input : list byte)
  : option (Z * Z * InternalKey * list byte) :=
  let? (level, input) := GetLevel input in
  let? (number_segments, input) := GetVarint64 input in
  let? (fence_key, input) := GetInternalKey input in
  Some (level, number_segments, fence_key, input).

Definition DecodeStep (tag : Z) (input : list byte) (l : locals) (e : t)
  : step :=
  if tag =? kComparator then
    match GetLengthPrefixedSlice input with
    | Some (str, input) => Continue input l (SetComparatorName str e)
    | None => Malformed "comparator name"
    end
  else if tag =? kLogNumber then
    match GetVarint64 input with
    | Some (v, input) => Continue input l (SetLogNumber v e)
    | None => Malformed "log number"
    end
  else if tag =? kPrevLogNumber then
    match GetVarint64 input with
    | Some (v, input) => Continue input l (SetPrevLogNumber v e)
    | None => Malformed "previous log number"
    end
  else if tag =? kNextFileNumber then
    match GetVarint64 input with
    | Some (v, input) => Continue input l (SetNextFile v e)
    | None => Malformed "next file number"
    end
  else if tag =? kLastSequence then
    match GetVarint64 input with
    | Some (v, input) => Continue input l (SetLastSequence v e)
    | None => Malformed "last sequence number"
    end
  else if tag =? kCompactPointer then
    match get_level_key input with
    | Some (level, key, input) =>
        Continue input l
          (with_compact_pointers (compact_pointers_ e ++ [(level, key)]) e)
    | None => Malformed "compaction pointer"
    end
  else if tag =? kDeletedFile then
    match get_level_number input with
    | Some (level, number, input) =>
        Continue input l
          (with_deleted_files
             (set_insert pair_ltb (level, number) (deleted_files_ e)) e)
    | None => Malformed "deleted file"
    end
  else if tag =? kDeletedFence then
    match get_level_key input with
    | Some (level, key, input) =>
        Continue input l
          (with_deleted_fences
             (set_insert BySmallestPair (level, key) (deleted_fences_ e)) e)
    | None => Malformed "deleted guard"
    end
  else if tag =? kDeletedSentinelFile then
    match get_level_number input with
    | Some (level, number, input) =>
        Continue input l
          (with_deleted_sentinel_files
             (set_insert pair_ltb (level, number)
                (deleted_sentinel_files_ e)) e)
    | None => Malformed "deleted sentinel file"
    end
  else if tag =? kNewFile then
    match get_file_entry input with
    | Some (level, f, input) =>
        Continue input l (with_new_files (new_files_ e ++ [(level, f)]) e)
    | None => Malformed "new-file entry"
    end
  else if tag =? kNewSentinelFile then
    match get_level_number input with
    | Some (level, fnumber, input) =>
        Continue input (mkLocals (l_tag2 l) (Some fnumber) (l_g l))
          (with_sentinel_file_nos
             (push_at level fnumber (sentinel_file_nos_ e)) e)
    | None => Malformed "new-sentinel-file entry"
    end
  else if tag =? kNewSentinelFileNo then
    match get_file_entry input with
    | Some (level, f, input) =>
        Continue input l (with_new_files (new_files_ e ++ [(level, f)]) e)
    | None => Malformed "new-sentinel-file entry"
    end
  else if tag =? kNewFence then
    match get_fence_head input with
    | Some (level, number_segments, fence_key, input) =>
        let g := l_g l in
        if 0 <? number_segments then
          match assert_key_pair input with
          | Some (smallest, largest, input) =>
              match read_fence_files (Z.to_nat number_segments) input
                      (l_tag2 l) (l_fnumber l) [] with
              | Some (input, tag2, fnumber, files) =>
                  let g := mkFence (g_refs g) level number_segments fence_key
                             smallest largest files (g_file_metas g) in
                  Continue input (mkLocals tag2 fnumber g)
                    (with_new_fences (push_at level g (new_fences_ e)) e)
              | None => Abort
              end
          | None => Abort
          end
        else
          let g := mkFence (g_refs g) level number_segments fence_key
                     (g_smallest g) (g_largest g) [] (g_file_metas g) in
          Continue input (mkLocals (l_tag2 l) (l_fnumber l) g)
            (with_new_fences (push_at level g (new_fences_ e)) e)
    | None => Malformed "new-fence entry"
    end
  else if tag =? kNewCompleteFence then
    match get_fence_head input with
    | Some (level, number_segments, fence_key, input) =>
        let g := l_g l in
        (* For complete fences, we do not decode the individual file details *)
        if 0 <? number_segments then
          match assert_key_pair input with
          | Some (smallest, largest, input) =>
              let g := mkFence (g_refs g) level number_segments fence_key
                         smallest largest [] (g_file_metas g) in
              Continue input (mkLocals (l_tag2 l) (l_fnumber l) g)
                (with_new_complete_fences
                   (push_at level g (new_complete_fences_ e)) e)
          | None => Abort
          end
        else
          let g := mkFence (g_refs g) level number_segments fence_key
                     (g_smallest g) (g_largest g) [] (g_file_metas g) in
          Continue input (mkLocals (l_tag2 l) (l_fnumber l) g)
            (with_new_complete_fences
               (push_at level g (new_complete_fences_ e)) e)
    | None => Malformed "new-complete-fence entry"
    end
  else Malformed "unknown tag".

(** [while (msg == nullptr && GetVarint32(&input, &tag))], then the test
    for bytes left over.  Every turn consumes at least the tag, so a fuel
    above the length of the input is never used up. *)
Fixpoint DecodeLoop (fuel : nat) (input : list byte) (l : locals) (e : t)
  : outcome t :=
  match fuel with
  | O => OutOfFuel
  | S fuel' =>
      match GetVarint32 input with
      | Some (tag, input') =>
          match DecodeStep tag input' l e with
          | Continue input'' l' e' => DecodeLoop fuel' input'' l' e'
          | Malformed msg => Returned (Corruption "VersionEdit" msg) e
          | Abort => Aborted
          end
      | None =>
          match input with
          | [] => Returned OK e
          | _ :: _ => Returned (Corruption "VersionEdit" "invalid tag") e
          end
      end
  end.

Definition DecodeFrom (src : list byte) (e : t) : outcome t :=
  DecodeLoop (S (length src)) src locals_init (Clear e).


(** *** The decoder consumes its input *)

Lemma GetLevel_shorter input v rest :
  GetLevel input = Some (v, rest) -> (length rest < length input)%nat.
Proof.
  unfold GetLevel. destruct (GetVarint32 input) as [[x i]|] eqn:E; [|discriminate].
  apply GetVarint32_shorter in E. destruct (x <? kNumLevels); [|discriminate].
  now intros [= <- <-].
Qed.

Lemma GetLevel_bound input v rest :
  GetLevel input = Some (v, rest) -> 0 <= v < kNumLevels.
Proof.
  unfold GetLevel. destruct (GetVarint32 input) as [[x i]|] eqn:E; [|discriminate].
  apply GetVarint32_bound in E. destruct (Z.ltb_spec x kNumLevels); [|discriminate].
  intros [= <- <-]. lia.
Qed.

Lemma GetInternalKey_shorter input k rest :
  GetInternalKey input = Some (k, rest) -> (length rest < length input)%nat.
Proof.
  unfold GetInternalKey.
  destruct (GetLengthPrefixedSlice input) as [[x i]|] eqn:E; [|discriminate].
  apply GetLengthPrefixedSlice_shorter in E.
  destruct (ikey_DecodeFrom x); [|discriminate]. now intros [= <- <-].
Qed.

Ltac getter_shorter :=
  repeat match goal with
  | H : GetVarint32 _ = Some _ |- _ => apply GetVarint32_shorter in H
  | H : GetVarint64 _ = Some _ |- _ => apply GetVarint64_shorter in H
  | H : GetLevel _ = Some _ |- _ => apply GetLevel_shorter in H
  | H : GetInternalKey _ = Some _ |- _ => apply GetInternalKey_shorter in H
  | H : GetLengthPrefixedSlice _ = Some _ |- _ =>
      apply GetLengthPrefixedSlice_shorter in H
  end.

Ltac split_getters :=
  repeat match goal with
  | |- context [match ?g ?i with Some _ => _ | None => _ end] =>
      let E := fresh "E" in
      destruct (g i) as [[? ?]|] eqn:E; [|discriminate]
  end.

Lemma get_level_number_shorter input level n rest :
  get_level_number input = Some (level, n, rest) ->
  (length rest < length input)%nat.
Proof.
  unfold get_level_number. split_getters. intros [= <- <- <-].
  getter_shorter. lia.
Qed.

Lemma get_level_key_shorter input level k rest :
  get_level_key input = Some (level, k, rest) ->
  (length rest < length input)%nat.
Proof.
  unfold get_level_key. split_getters. intros [= <- <- <-].
  getter_shorter. lia.
Qed.

Lemma get_file_entry_shorter input level f rest :
  get_file_entry input = Some (level, f, rest) ->
  (length rest < length input)%nat.
Proof.
  unfold get_file_entry. split_getters. intros [= <- <- <-].
  getter_shorter. lia.
Qed.

Lemma get_fence_head_shorter input level n k rest :
  get_fence_head input = Some (level, n, k, rest) ->
  (length rest < length input)%nat.
Proof.
  unfold get_fence_head. split_getters. intros [= <- <- <- <-].
  getter_shorter. lia.
Qed.

Lemma assert_key_pair_shorter input a b rest :
  assert_key_pair input = Some (a, b, rest) ->
  (length rest < length input)%nat.
Proof.
  unfold assert_key_pair. split_getters. intros [= <- <- <-].
  getter_shorter. lia.
Qed.

Lemma read_fence_files_shorter n input tag2 fnumber files rest t' f' files' :
  read_fence_files n input tag2 fnumber files = Some (rest, t', f', files') ->
  (length rest <= length input)%nat.
Proof.
  revert input tag2 fnumber files.
  induction n as [|n IH]; intros input tag2 fnumber files; simpl.
  - intros [= <- _ _ _]. lia.
  - destruct (GetVarint32 input) as [[v i]|] eqn:E1.
    + apply GetVarint32_shorter in E1.
      destruct (v =? kFileInsideFence); [|discriminate].
      destruct (GetVarint64 i) as [[x i']|] eqn:E2.
      * apply GetVarint64_shorter in E2. intros H. apply IH in H. lia.
      * destruct fnumber; [|discriminate]. intros H. apply IH in H. lia.
    + destruct tag2 as [v|]; [|discriminate].
      destruct (v =? kFileInsideFence); [|discriminate].
      destruct (GetVarint64 input) as [[x i']|] eqn:E2.
      * apply GetVarint64_shorter in E2. intros H. apply IH in H. lia.
      * destruct fnumber; [|discriminate]. intros H. apply IH in H. lia.
Qed.

Lemma DecodeStep_shorter tag input l e input' l' e' :
  DecodeStep tag input l e = Continue input' l' e' ->
  (length input' <= length input)%nat.
Proof.
  unfold DecodeStep.
  repeat match goal with
  | |- context [if ?t =? ?k then _ else _] => destruct (t =? k)
  end;
  try discriminate;
  repeat match goal with
  | |- context [match ?g input with Some _ => _ | None => _ end] =>
      let E := fresh "E" in
      destruct (g input) as [?p|] eqn:E; [|discriminate];
      repeat match goal with p : (_ * _)%type |- _ => destruct p end
  end;
  try (intros [= <- _ _];
       first [ apply GetLengthPrefixedSlice_shorter in E
             | apply GetVarint64_shorter in E
             | apply get_level_key_shorter in E
             | apply get_level_number_shorter in E
             | apply get_file_entry_shorter in E ]; lia).
  all: apply get_fence_head_shorter in E.
  all: match goal with |- context [0 <? ?n] => destruct (0 <? n) end.
  all: try (intros [= <- _ _]; lia).
  all: match goal with
       | |- context [assert_key_pair ?i] =>
           let E2 := fresh "E" in
           destruct (assert_key_pair i) as [[[? ?] ?]|] eqn:E2; [|discriminate];
           apply assert_key_pair_shorter in E2
       end.
  all: try (intros [= <- _ _]; lia).
  match goal with
  | |- context [read_fence_files ?n ?i ?a ?b ?c] =>
      let E3 := fresh "E" in
      destruct (read_fence_files n i a b c) as [[[[? ?] ?] ?]|] eqn:E3;
        [|discriminate];
      apply read_fence_files_shorter in E3
  end.
  intros [= <- _ _]. lia.
Qed.

(** Any fuel above the length of the input gives the same result, and it
    is a result: the loop of [DecodeFrom] terminates. *)
Lemma DecodeLoop_fuel f1 f2 input l e :
  (length input < f1)%nat -> (length input < f2)%nat ->
  DecodeLoop f1 input l e = DecodeLoop f2 input l e.
Proof.
  revert f2 input l e. induction f1 as [|f1 IH]; intros f2 input l e H1 H2;
    [lia|].
  destruct f2 as [|f2]; [lia|]. simpl.
  destruct (GetVarint32 input) as [[tag i]|] eqn:E; [|reflexivity].
  apply GetVarint32_shorter in E.
  destruct (DecodeStep tag i l e) as [i' l' e'| |] eqn:S; try reflexivity.
  apply DecodeStep_shorter in S. apply IH; lia.
Qed.

Lemma DecodeLoop_total fuel input l e :
  (length input < fuel)%nat -> DecodeLoop fuel input l e <> OutOfFuel.
Proof.
  revert input l e. induction fuel as [|fuel IH]; intros input l e H; [lia|].
  simpl. destruct (GetVarint32 input) as [[tag i]|] eqn:E.
  - apply GetVarint32_shorter in E.
    destruct (DecodeStep tag i l e) as [i' l' e'| |] eqn:S; try discriminate.
    apply DecodeStep_shorter in S. apply IH. lia.
  - destruct input; discriminate.
Qed.

Lemma DecodeFrom_total src e : DecodeFrom src e <> OutOfFuel.
Proof. apply DecodeLoop_total. lia. Qed.

(** The positions the decoding loop passes through. *)
Inductive Reaches : list byte -> locals -> t -> list byte -> locals -> t -> Prop :=
| Reaches_here input l e : Reaches input l e input l e
| Reaches_step input l e tag input1 input2 l2 e2 input' l' e' :
    GetVarint32 input = Some (tag, input1) ->
    DecodeStep tag input1 l e = Continue input2 l2 e2 ->
    Reaches input2 l2 e2 input' l' e' ->
    Reaches input l e input' l' e'.

Lemma DecodeLoop_Reaches input l e input' l' e' f f' :
  Reaches input l e input' l' e' ->
  (length input < f)%nat -> (length input' < f')%nat ->
  DecodeLoop f input l e = DecodeLoop f' input' l' e'.
Proof.
  intros R. revert f. induction R as [|input l e tag i1 i2 l2 e2 input' l' e' G S R IH];
    intros f Hf Hf'.
  - now apply DecodeLoop_fuel.
  - destruct f as [|f]; [lia|]. simpl. rewrite G, S.
    apply GetVarint32_shorter in G. apply DecodeStep_shorter in S.
    apply IH; lia.
Qed.


(** *** Clear *)

Lemma clear_levels_outside {A : Type} n i (arr : list (list A)) :
  (length arr <= i)%nat -> clear_levels n i arr = arr.
Proof.
  revert i arr. induction n as [|n IH]; intros i arr H; simpl; [reflexivity|].
  rewrite list_insert_ge by lia. apply IH. lia.
Qed.

Lemma clear_levels_app {A : Type} n (pre rest : list (list A)) :
  clear_levels n (length pre) (pre ++ rest)
  = pre ++ replicate (Nat.min n (length rest)) [] ++ drop n rest.
Proof.
  revert pre rest. induction n as [|n IH]; intros pre rest; simpl.
  - now rewrite drop_0.
  - destruct rest as [|x rest].
    + simpl. rewrite app_nil_r, list_insert_ge by lia.
      rewrite clear_levels_outside by lia. reflexivity.
    + replace (<[length pre:=[]]> (pre ++ x :: rest))
        with ((pre ++ [[]]) ++ rest).
      2:{ rewrite insert_app_r_alt, Nat.sub_diag by lia.
          simpl. now rewrite <- app_assoc. }
      replace (S (length pre)) with (length (pre ++ [[]]))
        by (rewrite length_app; simpl; lia).
      rewrite IH. simpl. now rewrite <- app_assoc.
Qed.

Lemma clear_levels_spec {A : Type} n (arr : list (list A)) :
  clear_levels n 0 arr = replicate (Nat.min n (length arr)) [] ++ drop n arr.
Proof. apply (clear_levels_app n [] arr). Qed.

(** C10. [Clear] resets the five optional scalars and their flags and
    empties the compaction pointers, the deleted files, the new files, and
    the new-fence and sentinel-file vectors of every level; the deleted-fence
    set, the complete-fence vectors, the sentinel-file-number vectors and the
    deleted-sentinel-file set are left as they were.  [DecodeFrom] starts
    from that state: decoding the empty buffer returns OK with exactly the
    cleared edit, stale members included. *)
Theorem Clear_frame (e : t) :
  (comparator_ (Clear e) = [] /\ has_comparator_ (Clear e) = false /\
   log_number_ (Clear e) = 0 /\ has_log_number_ (Clear e) = false /\
   prev_log_number_ (Clear e) = 0 /\ has_prev_log_number_ (Clear e) = false /\
   next_file_number_ (Clear e) = 0 /\ has_next_file_number_ (Clear e) = false /\
   last_sequence_ (Clear e) = 0 /\ has_last_sequence_ (Clear e) = false) /\
  (compact_pointers_ (Clear e) = [] /\ deleted_files_ (Clear e) = [] /\
   new_files_ (Clear e) = []) /\
  (new_fences_ (Clear e)
   = replicate (Nat.min (Z.to_nat kNumLevels) (length (new_fences_ e))) []
     ++ drop (Z.to_nat kNumLevels) (new_fences_ e) /\
   sentinel_files_ (Clear e)
   = replicate (Nat.min (Z.to_nat kNumLevels) (length (sentinel_files_ e))) []
     ++ drop (Z.to_nat kNumLevels) (sentinel_files_ e)) /\
  (deleted_fences_ (Clear e) = deleted_fences_ e /\
   new_complete_fences_ (Clear e) = new_complete_fences_ e /\
   sentinel_file_nos_ (Clear e) = sentinel_file_nos_ e /\
   deleted_sentinel_files_ (Clear e) = deleted_sentinel_files_ e) /\
  DecodeFrom [] e = Returned OK (Clear e).
Proof.
  repeat split; try reflexivity; simpl; apply clear_levels_spec.
Qed.

(** *** Levels out of range *)

(** The tags whose payload starts with a level, with the field name the
    decoder reports for each. *)
Definition level_entry_msg (tag : Z) : option string :=
  if tag =? kCompactPointer then Some "compaction pointer"%string
  else if tag =? kDeletedFile then Some "deleted file"%string
  else if tag =? kDeletedFence then Some "deleted guard"%string
  else if tag =? kDeletedSentinelFile then Some "deleted sentinel file"%string
  else if tag =? kNewFile then Some "new-file entry"%string
  else if tag =? kNewSentinelFile then Some "new-sentinel-file entry"%string
  else if tag =? kNewSentinelFileNo then Some "new-sentinel-file entry"%string
  else if tag =? kNewFence then Some "new-fence entry"%string
  else if tag =? kNewCompleteFence then Some "new-complete-fence entry"%string
  else None.

Lemma GetLevel_out_of_range input v rest :
  GetVarint32 input = Some (v, rest) -> kNumLevels <= v -> GetLevel input = None.
Proof.
  intros E H. unfold GetLevel. rewrite E.
  destruct (Z.ltb_spec v kNumLevels); [lia|reflexivity].
Qed.

Lemma DecodeStep_level_out_of_range tag msg input l e :
  level_entry_msg tag = Some msg -> GetLevel input = None ->
  DecodeStep tag input l e = Malformed msg.
Proof.
  unfold level_entry_msg, DecodeStep. intros M G.
  unfold get_level_key, get_level_number, get_file_entry, get_fence_head.
  rewrite G.
  repeat match goal with
  | H : context [if ?t =? ?k then _ else _] |- _ =>
      destruct (Z.eqb_spec t k) as [->|?]; [vm_compute in H |]
  end; try congruence; try discriminate.
  all: vm_compute; congruence.
Qed.

(** C9. Wherever the decoding loop stands, if the next entry has a
    level-carrying tag and the level read for it is not below
    [kNumLevels], [DecodeFrom] returns the corruption status naming that
    entry, and the edit is as it was before the entry: nothing is stored
    and no level is clamped. *)
Theorem DecodeFrom_level_out_of_range
  (src : list byte) (e0 : t) (input : list byte) (l : locals) (e : t)
  (tag : Z) (input1 : list byte) (v : Z) (input2 : list byte) (msg : string) :
  Reaches src locals_init (Clear e0) input l e ->
  GetVarint32 input = Some (tag, input1) ->
  level_entry_msg tag = Some msg ->
  GetVarint32 input1 = Some (v, input2) ->
  kNumLevels <= v ->
  DecodeFrom src e0 = Returned (Corruption "VersionEdit" msg) e.
Proof.
  intros R T M V Hv. unfold DecodeFrom.
  rewrite (DecodeLoop_Reaches _ _ _ _ _ _ _ (S (length input)) R) by lia.
  simpl. rewrite T.
  rewrite (DecodeStep_level_out_of_range tag msg); auto.
  eapply GetLevel_out_of_range; eauto.
Qed.


(** *** The entries of an encoded edit *)

(** What makes a key fit for the wire: the key class reads back what it
    wrote, and the encoding fits a 32-bit length. *)
Definition key_ok (k : InternalKey) : Prop :=
  ikey_DecodeFrom (ikey_Encode k) = Some k /\
  Z.of_nat (length (ikey_Encode k)) < 2 ^ 32.

Definition u64 (v : Z) : Prop := 0 <= v < 2 ^ 64.

Definition in_levels (level : Z) : Prop := 0 <= level < kNumLevels.

(** The entries [EncodeTo] can write, by payload shape. *)
Inductive entry : Type :=
| EComparator (name : list byte)
| ENumber (tag : Z) (v : Z)
| ELevelKey (tag : Z) (level : Z) (key : InternalKey)
| ELevelNumber (tag : Z) (level number : Z)
| ENewFile (level number file_size : Z) (smallest largest : InternalKey)
| EFence (tag : Z) (level : Z) (fence_key : InternalKey).

Definition entry_tag (x : entry) : Z :=
  match x with
  | EComparator _ => kComparator
  | ENumber tag _ => tag
  | ELevelKey tag _ _ => tag
  | ELevelNumber tag _ _ => tag
  | ENewFile _ _ _ _ _ => kNewFile
  | EFence tag _ _ => tag
  end.

Definition entry_body (x : entry) : list byte :=
  match x with
  | EComparator name => PutLengthPrefixedSlice [] name
  | ENumber _ v => PutVarint64 [] v
  | ELevelKey _ level key =>
      PutVarint32 [] level ++ PutLengthPrefixedSlice [] (ikey_Encode key)
  | ELevelNumber _ level number =>
      PutVarint32 [] level ++ PutVarint64 [] number
  | ENewFile level number file_size smallest largest =>
      PutVarint32 [] level ++ PutVarint64 [] number
      ++ PutVarint64 [] file_size
      ++ PutLengthPrefixedSlice [] (ikey_Encode smallest)
      ++ PutLengthPrefixedSlice [] (ikey_Encode largest)
  | EFence _ level fence_key =>
      PutVarint32 [] level ++ PutVarint64 [] 0
      ++ PutLengthPrefixedSlice [] (ikey_Encode fence_key)
  end.

Definition enc_entry (x : entry) : list byte :=
  PutVarint32 [] (entry_tag x) ++ entry_body x.

Definition file_entry (p : Z * FileMetaData) : entry :=
  ENewFile (fst p) (f_number (snd p)) (f_file_size (snd p))
    (f_smallest (snd p)) (f_largest (snd p)).

Definition fence_entry (tag : Z) (f : FenceMetaData) : entry :=
  EFence tag (g_level f) (g_fence_key f).

Definition entries (e : t) : list entry :=
  (if has_comparator_ e then [EComparator (comparator_ e)] else [])
  ++ (if has_log_number_ e then [ENumber kLogNumber (log_number_ e)] else [])
  ++ (if has_prev_log_number_ e
      then [ENumber kPrevLogNumber (prev_log_number_ e)] else [])
  ++ (if has_next_file_number_ e
      then [ENumber kNextFileNumber (next_file_number_ e)] else [])
  ++ (if has_last_sequence_ e
      then [ENumber kLastSequence (last_sequence_ e)] else [])
  ++ map (fun p => ELevelKey kCompactPointer (fst p) (snd p))
       (compact_pointers_ e)
  ++ map (fun p => ELevelNumber kDeletedFile (fst p) (snd p))
       (deleted_files_ e)
  ++ map file_entry (new_files_ e)
  ++ map (fun p => ELevelKey kDeletedFence (fst p) (snd p))
       (deleted_fences_ e)
  ++ map (fence_entry kNewFence) (concat (new_fences_ e))
  ++ map (fence_entry kNewCompleteFence) (concat (new_complete_fences_ e))
  ++ map (fun p => ELevelNumber kDeletedSentinelFile (fst p) (snd p))
       (deleted_sentinel_files_ e).

Lemma fold_left_put {A : Type} (f : list byte -> A -> list byte)
  (g : A -> entry) (l : list A) (dst : list byte) :
  (forall dst x, f dst x = dst ++ enc_entry (g x)) ->
  fold_left f l dst = dst ++ flat_map enc_entry (map g l).
Proof.
  intros Hf. revert dst. induction l as [|x l IH]; intros dst; simpl.
  - now rewrite app_nil_r.
  - rewrite IH, Hf, <- app_assoc. reflexivity.
Qed.

Lemma put_level_key_entry tag dst p :
  put_level_key tag dst p = dst ++ enc_entry (ELevelKey tag (fst p) (snd p)).
Proof.
  unfold put_level_key, enc_entry. cbn [entry_tag entry_body].
  rewrite (PutLengthPrefixedSlice_app (PutVarint32 _ _)),
    (PutVarint32_app (PutVarint32 _ _)), (PutVarint32_app dst).
  now rewrite <- !app_assoc.
Qed.

Lemma put_level_number_entry tag dst p :
  put_level_number tag dst p
  = dst ++ enc_entry (ELevelNumber tag (fst p) (snd p)).
Proof.
  unfold put_level_number, enc_entry. cbn [entry_tag entry_body].
  rewrite (PutVarint64_app (PutVarint32 _ _)),
    (PutVarint32_app (PutVarint32 _ _)), (PutVarint32_app dst).
  now rewrite <- !app_assoc.
Qed.

Lemma put_new_file_entry dst p :
  put_new_file dst p = dst ++ enc_entry (file_entry p).
Proof.
  unfold put_new_file, file_entry, enc_entry. cbn [entry_tag entry_body].
  rewrite (PutLengthPrefixedSlice_app (PutLengthPrefixedSlice _ _)),
    (PutLengthPrefixedSlice_app (PutVarint64 _ _)),
    (PutVarint64_app (PutVarint64 _ _)),
    (PutVarint64_app (PutVarint32 _ _)),
    (PutVarint32_app (PutVarint32 _ _)), (PutVarint32_app dst).
  now rewrite <- !app_assoc.
Qed.

Lemma put_fence_entry tag dst f :
  put_fence tag dst f = dst ++ enc_entry (fence_entry tag f).
Proof.
  unfold put_fence, fence_entry, enc_entry. cbn [entry_tag entry_body].
  rewrite (PutLengthPrefixedSlice_app (PutVarint64 _ _)),
    (PutVarint64_app (PutVarint32 _ _)),
    (PutVarint32_app (PutVarint32 _ _)), (PutVarint32_app dst).
  now rewrite <- !app_assoc.
Qed.

Lemma put_fences_entries tag (arr : list (list FenceMetaData)) dst :
  fold_left (put_fences tag) arr dst
  = dst ++ flat_map enc_entry (map (fence_entry tag) (concat arr)).
Proof.
  revert dst. induction arr as [|v arr IH]; intros dst; simpl.
  - now rewrite app_nil_r.
  - rewrite IH. unfold put_fences.
    rewrite (fold_left_put _ (fence_entry tag)) by apply put_fence_entry.
    rewrite map_app, flat_map_app, <- app_assoc. reflexivity.
Qed.

(** [EncodeTo] only appends, and what it appends is the entries in order. *)
Lemma EncodeTo_entries (e : t) (dst : list byte) :
  EncodeTo e dst = dst ++ flat_map enc_entry (entries e).
Proof.
  unfold EncodeTo, entries.
  rewrite (fold_left_put _ (fun p => ELevelNumber kDeletedSentinelFile (fst p) (snd p)))
    by apply put_level_number_entry.
  rewrite !put_fences_entries.
  rewrite (fold_left_put _ (fun p => ELevelKey kDeletedFence (fst p) (snd p)))
    by apply put_level_key_entry.
  rewrite (fold_left_put _ file_entry) by apply put_new_file_entry.
  rewrite (fold_left_put _ (fun p => ELevelNumber kDeletedFile (fst p) (snd p)))
    by apply put_level_number_entry.
  rewrite (fold_left_put _ (fun p => ELevelKey kCompactPointer (fst p) (snd p)))
    by apply put_level_key_entry.
  rewrite !flat_map_app.
  destruct (has_comparator_ e), (has_log_number_ e), (has_prev_log_number_ e),
    (has_next_file_number_ e), (has_last_sequence_ e);
    cbn [flat_map app enc_entry entry_tag entry_body];
    rewrite ?app_nil_r;
    rewrite ?(PutLengthPrefixedSlice_app (PutVarint32 _ _)),
      ?(PutVarint64_app (PutVarint32 _ _)), ?(PutVarint32_app (_ ++ _)),
      ?(PutVarint32_app dst);
    rewrite <- ?app_assoc; reflexivity.
Qed.


(** *** Reading back what was written, and what was cut short *)

(** [kNumLevels] is an [int]. *)
Hypothesis kNumLevels_int : kNumLevels <= 2 ^ 31.

Lemma GetLevel_Put level rest :
  in_levels level -> GetLevel (PutVarint32 [] level ++ rest) = Some (level, rest).
Proof.
  intros [H0 H1]. unfold GetLevel. rewrite GetVarint32_Put by lia.
  destruct (Z.ltb_spec level kNumLevels); [reflexivity|lia].
Qed.


Lemma GetInternalKey_Put k rest :
  key_ok k ->
  GetInternalKey (PutLengthPrefixedSlice [] (ikey_Encode k) ++ rest)
  = Some (k, rest).
Proof.
  intros [Hd Hl]. unfold GetInternalKey.
  rewrite GetLengthPrefixedSlice_Put by lia. now rewrite Hd.
Qed.



Lemma get_level_key_Put level key rest :
  in_levels level -> key_ok key ->
  get_level_key (PutVarint32 [] level
                 ++ PutLengthPrefixedSlice [] (ikey_Encode key) ++ rest)
  = Some (level, key, rest).
Proof.
  intros. unfold get_level_key.
  rewrite GetLevel_Put, GetInternalKey_Put by assumption. reflexivity.
Qed.

Lemma get_level_number_Put level number rest :
  in_levels level -> u64 number ->
  get_level_number (PutVarint32 [] level ++ PutVarint64 [] number ++ rest)
  = Some (level, number, rest).
Proof.
  intros. unfold get_level_number.
  rewrite GetLevel_Put, GetVarint64_Put by assumption. reflexivity.
Qed.

Lemma get_file_entry_Put level number file_size smallest largest rest :
  in_levels level -> u64 number -> u64 file_size ->
  key_ok smallest -> key_ok largest ->
  get_file_entry
    (PutVarint32 [] level ++ PutVarint64 [] number ++ PutVarint64 [] file_size
     ++ PutLengthPrefixedSlice [] (ikey_Encode smallest)
     ++ PutLengthPrefixedSlice [] (ikey_Encode largest) ++ rest)
  = Some (level,
          mkFile (f_refs FileMetaData_new) (f_allowed_seeks FileMetaData_new)
            number file_size smallest largest (f_fence FileMetaData_new),
          rest).
Proof.
  intros. unfold get_file_entry.
  rewrite GetLevel_Put, !GetVarint64_Put, !GetInternalKey_Put by assumption.
  reflexivity.
Qed.

Lemma get_fence_head_Put level n key rest :
  in_levels level -> u64 n -> key_ok key ->
  get_fence_head
    (PutVarint32 [] level ++ PutVarint64 [] n
     ++ PutLengthPrefixedSlice [] (ikey_Encode key) ++ rest)
  = Some (level, n, key, rest).
Proof.
  intros. unfold get_fence_head.
  rewrite GetLevel_Put, GetVarint64_Put, GetInternalKey_Put by assumption.
  reflexivity.
Qed.

Lemma assert_key_pair_Put smallest largest rest :
  key_ok smallest -> key_ok largest ->
  assert_key_pair
    (PutLengthPrefixedSlice [] (ikey_Encode smallest)
     ++ PutLengthPrefixedSlice [] (ikey_Encode largest) ++ rest)
  = Some (smallest, largest, rest).
Proof.
  intros. unfold assert_key_pair.
  rewrite !GetInternalKey_Put by assumption. reflexivity.
Qed.






(** *** Decoding one entry *)

Definition valid_entry (x : entry) : Prop :=
  match x with
  | EComparator name => Z.of_nat (length name) < 2 ^ 32
  | ENumber tag v =>
      (tag = kLogNumber \/ tag = kPrevLogNumber \/ tag = kNextFileNumber
       \/ tag = kLastSequence) /\ u64 v
  | ELevelKey tag level key =>
      (tag = kCompactPointer \/ tag = kDeletedFence)
      /\ in_levels level /\ key_ok key
  | ELevelNumber tag level number =>
      (tag = kDeletedFile \/ tag = kDeletedSentinelFile)
      /\ in_levels level /\ u64 number
  | ENewFile level number file_size smallest largest =>
      in_levels level /\ u64 number /\ u64 file_size
      /\ key_ok smallest /\ key_ok largest
  | EFence tag level fence_key =>
      (tag = kNewFence \/ tag = kNewCompleteFence)
      /\ in_levels level /\ key_ok fence_key
  end.

(** The fence [AddFence] and [AddCompleteFence] build. *)
Definition plain_fence (level : Z) (fence_key : InternalKey) : FenceMetaData :=
  mkFence 0 level 0 fence_key ikey_empty ikey_empty [] [].

(** What the decoder does with an entry: it replays the mutator. *)
Definition decode_effect (e : t) (x : entry) : t :=
  match x with
  | EComparator name => SetComparatorName name e
  | ENumber tag v =>
      if tag =? kLogNumber then SetLogNumber v e
      else if tag =? kPrevLogNumber then SetPrevLogNumber v e
      else if tag =? kNextFileNumber then SetNextFile v e
      else SetLastSequence v e
  | ELevelKey tag level key =>
      if tag =? kCompactPointer then SetCompactPointer level key e
      else DeleteFence level key e
  | ELevelNumber tag level number =>
      if tag =? kDeletedFile then RemoveFile level number e
      else DeleteSentinelFile level number e
  | ENewFile level number file_size smallest largest =>
      AddFile level number file_size smallest largest e
  | EFence tag level fence_key =>
      if tag =? kNewFence
      then with_new_fences
             (push_at level (plain_fence level fence_key) (new_fences_ e)) e
      else with_new_complete_fences
             (push_at level (plain_fence level fence_key)
                (new_complete_fences_ e)) e
  end.

(** The parts of the local [g] that no entry written by [EncodeTo] changes. *)
Definition locals_fresh (l : locals) : Prop :=
  g_refs (l_g l) = 0 /\ g_smallest (l_g l) = ikey_empty /\
  g_largest (l_g l) = ikey_empty /\ g_file_metas (l_g l) = [].

Lemma locals_init_fresh : locals_fresh locals_init.
Proof. repeat split. Qed.

Ltac step_tag :=
  unfold DecodeStep; simpl (_ =? _); cbv beta iota.


Lemma valid_entry_tag (x : entry) : valid_entry x -> 0 <= entry_tag x < 128.
Proof.
  destruct x; simpl; intros V;
    repeat match goal with
    | H : _ /\ _ |- _ => destruct H
    | H : _ \/ _ |- _ => destruct H
    end; subst; vm_compute; split; congruence.
Qed.

Lemma enc_entry_nonempty x : enc_entry x <> [].
Proof.
  unfold enc_entry. intros E. apply app_eq_nil in E as [E _].
  revert E. apply EncodeVarint_nonempty.
Qed.

(** A whole entry is read back and the mutator replayed. *)
Lemma decode_entry (x : entry) (rest : list byte) (l : locals) (e : t) :
  valid_entry x -> locals_fresh l ->
  exists l', locals_fresh l' /\
    Reaches (enc_entry x ++ rest) l e rest l' (decode_effect e x).
Proof.
  intros V F. pose proof (valid_entry_tag x V) as Ht.
  assert (One : forall l',
            DecodeStep (entry_tag x) (entry_body x ++ rest) l e
            = Continue rest l' (decode_effect e x) ->
            Reaches (enc_entry x ++ rest) l e rest l' (decode_effect e x)).
  { intros l' S. eapply Reaches_step; [|exact S|apply Reaches_here].
    unfold enc_entry. rewrite <- app_assoc. apply GetVarint32_Put. lia. }
  clear Ht.
  destruct x; cbn [valid_entry entry_tag entry_body] in V, One.
  - exists l. split; [exact F|]. apply One.
    step_tag. now rewrite GetLengthPrefixedSlice_Put.
  - destruct V as [Tg Hv]. exists l. split; [exact F|]. apply One.
    destruct Tg as [->|[->|[->| ->]]]; step_tag; now rewrite GetVarint64_Put.
  - destruct V as (Tg & Hl & Hk). exists l. split; [exact F|]. apply One.
    rewrite <- !app_assoc.
    destruct Tg as [->| ->]; step_tag; now rewrite get_level_key_Put.
  - destruct V as (Tg & Hl & Hn). exists l. split; [exact F|]. apply One.
    rewrite <- !app_assoc.
    destruct Tg as [->| ->]; step_tag; now rewrite get_level_number_Put.
  - destruct V as (Hl & Hn & Hs & Hk1 & Hk2). exists l. split; [exact F|].
    apply One. rewrite <- !app_assoc.
    step_tag. now rewrite get_file_entry_Put.
  - destruct V as (Tg & Hl & Hk). destruct F as (F1 & F2 & F3 & F4).
    assert (U0 : u64 0) by (unfold u64; lia).
    destruct Tg as [->| ->].
    + eexists. split; [|apply One; rewrite <- !app_assoc; step_tag;
        rewrite get_fence_head_Put by assumption;
        unfold plain_fence; simpl (0 <? 0); cbv beta iota;
        rewrite F1, F2, F3, F4; reflexivity].
      repeat split.
    + eexists. split; [|apply One; rewrite <- !app_assoc; step_tag;
        rewrite get_fence_head_Put by assumption;
        unfold plain_fence; simpl (0 <? 0); cbv beta iota;
        rewrite F1, F2, F3, F4; reflexivity].
      repeat split.
Qed.



(** *** Decoding a sequence of entries, whole or cut *)

Lemma Reaches_trans i1 l1 e1 i2 l2 e2 i3 l3 e3 :
  Reaches i1 l1 e1 i2 l2 e2 -> Reaches i2 l2 e2 i3 l3 e3 ->
  Reaches i1 l1 e1 i3 l3 e3.
Proof.
  induction 1; intros R; [exact R|]. eapply Reaches_step; eauto.
Qed.

Lemma decode_entries (xs : list entry) (rest : list byte) (l : locals) (e : t) :
  Forall valid_entry xs -> locals_fresh l ->
  exists l', locals_fresh l' /\
    Reaches (flat_map enc_entry xs ++ rest) l e rest l'
      (fold_left decode_effect xs e).
Proof.
  intros V. revert l e. induction V as [|x xs Vx Vxs IH]; intros l e F; simpl.
  - exists l. split; [exact F|apply Reaches_here].
  - destruct (decode_entry x (flat_map enc_entry xs ++ rest) l e Vx F)
      as (l1 & F1 & R1).
    destruct (IH l1 (decode_effect e x) F1) as (l2 & F2 & R2).
    exists l2. split; [exact F2|].
    rewrite <- app_assoc. eapply Reaches_trans; eauto.
Qed.

Lemma DecodeFrom_entries (xs : list entry) (e0 : t) :
  Forall valid_entry xs ->
  DecodeFrom (flat_map enc_entry xs) e0
  = Returned OK (fold_left decode_effect xs (Clear e0)).
Proof.
  intros V.
  destruct (decode_entries xs [] locals_init (Clear e0) V locals_init_fresh)
    as (l' & _ & R).
  rewrite app_nil_r in R. unfold DecodeFrom.
  rewrite (DecodeLoop_Reaches _ _ _ _ _ _ _ 1%nat R) by (simpl; lia).
  reflexivity.
Qed.



(** *** Edits built through the public mutators *)

Inductive call : Type :=
| CSetComparatorName (name : list byte)
| CSetLogNumber (num : Z)
| CSetPrevLogNumber (num : Z)
| CSetNextFile (num : Z)
| CSetLastSequence (seq : Z)
| CSetCompactPointer (level : Z) (key : InternalKey)
| CAddFile (level file file_size : Z) (smallest largest : InternalKey)
| CAddFileToSentinel (f : FileMetaData) (level : Z)
| CAddSentinelFile (level allowed_seeks file_size : Z) (f : pointer)
    (largest smallest : InternalKey) (number refs : Z)
| CAddSentinelFileNo (level no : Z)
| CAddFence (level : Z) (fence_key : InternalKey)
| CAddCompleteFence (level : Z) (fence_key : InternalKey)
| CAddFenceFromExisting (level : Z) (g : FenceMetaData)
| CAddCompleteFenceFromExisting (level : Z) (f : FenceMetaData)
| CAddFenceWithFiles (level number_segments : Z)
    (fence_key smallest largest : InternalKey) (files : list Z)
| CRemoveFile (level file : Z)
| CDeleteFence (level : Z) (fence : InternalKey)
| CDeleteSentinelFile (level file : Z).

Definition apply_call (c : call) (e : t) : option t :=
  match c with
  | CSetComparatorName name => Some (SetComparatorName name e)
  | CSetLogNumber num => Some (SetLogNumber num e)
  | CSetPrevLogNumber num => Some (SetPrevLogNumber num e)
  | CSetNextFile num => Some (SetNextFile num e)
  | CSetLastSequence seq => Some (SetLastSequence seq e)
  | CSetCompactPointer level key => Some (SetCompactPointer level key e)
  | CAddFile level file file_size smallest largest =>
      Some (AddFile level file file_size smallest largest e)
  | CAddFileToSentinel f level => AddFileToSentinel f level e
  | CAddSentinelFile level allowed_seeks file_size f largest smallest
      number refs =>
      AddSentinelFile level allowed_seeks file_size f largest smallest
        number refs e
  | CAddSentinelFileNo level no => AddSentinelFileNo level no e
  | CAddFence level fence_key => AddFence level fence_key e
  | CAddCompleteFence level fence_key => AddCompleteFence level fence_key e
  | CAddFenceFromExisting level g => AddFenceFromExisting level g e
  | CAddCompleteFenceFromExisting level f =>
      AddCompleteFenceFromExisting level f e
  | CAddFenceWithFiles level number_segments fence_key smallest largest
      files =>
      AddFenceWithFiles level number_segments fence_key smallest largest
        files e
  | CRemoveFile level file => Some (RemoveFile level file e)
  | CDeleteFence level fence => Some (DeleteFence level fence e)
  | CDeleteSentinelFile level file => Some (DeleteSentinelFile level file e)
  end.

(** The calls in their order, on the edit they are made on. *)
Fixpoint apply_calls (cs : list call) (e : t) : option t :=
  match cs with
  | [] => Some e
  | c :: cs =>
      match apply_call c e with
      | Some e' => apply_calls cs e'
      | None => None
      end
  end.

(** A fresh edit, then the calls. *)
Definition build (cs : list call) : option t := apply_calls cs new.


(** The comparator orders keys strictly, as [std::set] requires of it. *)
Hypothesis Compare_trans :
  forall a b c, Compare a b < 0 -> Compare b c < 0 -> Compare a c < 0.
Hypothesis Compare_asym : forall a b, Compare a b < 0 -> ~ Compare b a < 0.

Lemma BySmallestPair_trans a b c :
  BySmallestPair a b = true -> BySmallestPair b c = true ->
  BySmallestPair a c = true.
Proof.
  unfold BySmallestPair. destruct a as [la ka], b as [lb kb], c as [lc kc].
  simpl.
  destruct (Z.eqb_spec la lb), (Z.eqb_spec lb lc), (Z.eqb_spec la lc);
    simpl; try lia.
  intros H1 H2. apply Z.ltb_lt in H1, H2. apply Z.ltb_lt. eauto.
Qed.

Lemma BySmallestPair_asym a b :
  BySmallestPair a b = true -> BySmallestPair b a = false.
Proof.
  unfold BySmallestPair. destruct a as [la ka], b as [lb kb]. simpl.
  destruct (Z.eqb_spec la lb), (Z.eqb_spec lb la); simpl; try lia.
  intros H1. apply Z.ltb_lt in H1. apply Z.ltb_ge.
  pose proof (Compare_asym _ _ H1). lia.
Qed.








Lemma clear_levels_empty {A : Type} :
  clear_levels (Z.to_nat kNumLevels) 0 (@empty_levels A) = empty_levels.
Proof.
  rewrite clear_levels_spec. unfold empty_levels.
  rewrite length_replicate, Nat.min_id, drop_replicate, Nat.sub_diag.
  apply app_nil_r.
Qed.







(** *** What decoding the entries of a built edit rebuilds *)















Lemma Clear_new :
  Clear new
  = mk [] 0 0 0 0 false false false false false [] [] []
       empty_levels empty_levels [] empty_levels empty_levels [].
Proof.
  unfold new, Clear.
  cbn [sentinel_files_ sentinel_file_nos_ deleted_sentinel_files_
       new_fences_ new_complete_fences_ deleted_fences_].
  now rewrite !clear_levels_empty.
Qed.






(** *** Fence records *)


Lemma fence_entries_push tag i f f' (arr : list (list FenceMetaData)) :
  fence_entry tag f = fence_entry tag f' ->
  map (fence_entry tag) (concat (alter (fun v => v ++ [f]) i arr))
  = map (fence_entry tag) (concat (alter (fun v => v ++ [f']) i arr)).
Proof.
  intros E. revert i. induction arr as [|v arr IH]; intros i; [reflexivity|].
  destruct i as [|i].
  - change (map (fence_entry tag) (concat ((v ++ [f]) :: arr))
            = map (fence_entry tag) (concat ((v ++ [f']) :: arr))).
    simpl. rewrite !map_app. simpl. now rewrite E.
  - change (map (fence_entry tag)
              (concat (v :: alter (fun v => v ++ [f]) i arr))
            = map (fence_entry tag)
                (concat (v :: alter (fun v => v ++ [f']) i arr))).
    simpl. rewrite !map_app. now rewrite IH.
Qed.




(** *** Further properties of the encoder *)

(** [EncodeTo] only appends: the bytes already in [dst] stay in front, and
    what is appended does not depend on them.  Two edits encoded one after
    the other into the same string give the concatenation of their
    encodings. *)
Theorem EncodeTo_appends (e1 e2 : t) (dst : list byte) :
  EncodeTo e1 dst = dst ++ EncodeTo e1 [] /\
  EncodeTo e2 (EncodeTo e1 dst) = dst ++ EncodeTo e1 [] ++ EncodeTo e2 [].
Proof.
  rewrite !EncodeTo_entries, !app_nil_l, <- app_assoc. split; reflexivity.
Qed.

(** The three mutators for sentinel files go through for a level below
    [kNumLevels] and leave the encoding as it was: [EncodeTo] has no loop
    over [sentinel_files_] or [sentinel_file_nos_].  In the same way the
    segment count, the key range and the file list given to
    [AddFenceWithFiles] do not reach the encoding, which is that of
    [AddFence] with the same level and fence key. *)
Theorem EncodeTo_skips_sentinels_and_fence_files
  (level : Z) (e : t) (dst : list byte)
  (f : FileMetaData) (allowed_seeks file_size number refs no : Z)
  (p : pointer) (largest smallest fence_key : InternalKey)
  (number_segments : Z) (files : list Z) :
  in_levels level ->
  (exists e1, AddFileToSentinel f level e = Some e1 /\
              EncodeTo e1 dst = EncodeTo e dst) /\
  (exists e1, AddSentinelFile level allowed_seeks file_size p largest
                smallest number refs e = Some e1 /\
              EncodeTo e1 dst = EncodeTo e dst) /\
  (exists e1, AddSentinelFileNo level no e = Some e1 /\
              EncodeTo e1 dst = EncodeTo e dst) /\
  (exists e1 e2,
     AddFenceWithFiles level number_segments fence_key smallest largest
       files e = Some e1 /\
     AddFence level fence_key e = Some e2 /\
     EncodeTo e1 dst = EncodeTo e2 dst).
Proof.
  intros [H0 H1].
  assert (Hl : level_ok level = true) by (unfold level_ok; lia).
  unfold AddFileToSentinel, AddSentinelFile, AddSentinelFileNo,
    AddFenceWithFiles, AddFence.
  rewrite Hl. cbv zeta.
  split; [|split; [|split]]; try (eexists; split; reflexivity).
  eexists. eexists. split; [reflexivity|]. split; [reflexivity|].
  rewrite !EncodeTo_entries. f_equal. unfold entries, push_at.
  cbn [with_new_fences comparator_ log_number_ prev_log_number_
       next_file_number_ last_sequence_ has_comparator_ has_log_number_
       has_prev_log_number_ has_next_file_number_ has_last_sequence_
       compact_pointers_ deleted_files_ new_files_ sentinel_files_
       sentinel_file_nos_ deleted_sentinel_files_ new_fences_
       new_complete_fences_ deleted_fences_].
  match goal with
  | |- context [alter (fun v => v ++ [?a]) _ _] =>
      match goal with
      | |- _ = ?rhs =>
          match rhs with
          | context [alter (fun v => v ++ [?b]) _ _] =>
              rewrite (fence_entries_push kNewFence _ a b) by reflexivity
          end
      end
  end.
  reflexivity.
Qed.

(** *** Tags the decoder refuses *)

(** The tags with a case in the [switch] of [DecodeFrom]. *)
Definition known_tag (tag : Z) : bool :=
  existsb (Z.eqb tag)
    [kComparator; kLogNumber; kNextFileNumber; kLastSequence;
     kCompactPointer; kDeletedFile; kNewFile; kPrevLogNumber; kNewFence;
     kDeletedFence; kNewSentinelFile; kDeletedSentinelFile;
     kNewCompleteFence; kNewSentinelFileNo].

Lemma DecodeStep_unknown_tag tag input l e :
  known_tag tag = false -> DecodeStep tag input l e = Malformed "unknown tag".
Proof.
  unfold known_tag. cbn [existsb]. intros K.
  repeat (apply orb_false_elim in K as [?E K]).
  unfold DecodeStep.
  repeat match goal with
  | H : (tag =? ?k) = false |- context [if tag =? ?k then _ else _] =>
      rewrite H
  end.
  reflexivity.
Qed.

(** Wherever the decoding loop stands with input left: if the next tag
    cannot be read as a 32-bit varint the call returns the corruption
    "invalid tag"; if it can be read and is none of the fourteen tags of the
    [switch] (0, 8, the file-inside-fence tag 12 met outside a fence, 17 and
    above) the call returns the corruption "unknown tag".  In both cases the
    edit holds what the entries before it put there. *)
Theorem DecodeFrom_bad_tag
  (src : list byte) (e0 : t) (input : list byte) (l : locals) (e : t) :
  Reaches src locals_init (Clear e0) input l e ->
  input <> [] ->
  match GetVarint32 input with
  | None =>
      DecodeFrom src e0 = Returned (Corruption "VersionEdit" "invalid tag") e
  | Some (tag, _) =>
      known_tag tag = false ->
      DecodeFrom src e0 = Returned (Corruption "VersionEdit" "unknown tag") e
  end /\
  known_tag 0 = false /\ known_tag 8 = false /\
  known_tag kFileInsideFence = false /\
  (forall tag, 17 <= tag -> known_tag tag = false).
Proof.
  intros R Hne. split.
  - unfold DecodeFrom.
    rewrite (DecodeLoop_Reaches _ _ _ _ _ _ _ (S (length input)) R) by lia.
    cbn [DecodeLoop].
    destruct (GetVarint32 input) as [[tag input1]|] eqn:G.
    + intros K. now rewrite DecodeStep_unknown_tag.
    + destruct input; [contradiction|reflexivity].
  - repeat split; try reflexivity.
    intros tag Ht. unfold known_tag. cbn [existsb].
    repeat match goal with
    | |- context [tag =? ?k] =>
        let H := fresh in
        destruct (Z.eqb_spec tag k) as [H|H];
          [vm_compute in H; subst tag; lia|]
    end.
    reflexivity.
Qed.

(** *** The comparator of the deleted-fence set *)

(** [BySmallestPair] is a strict order whenever the key comparator is one:
    it relates no pair to itself, never both ways, and is transitive.  The
    level decides first; the keys are compared only within one level. *)
Theorem BySmallestPair_strict_order :
  (forall a, BySmallestPair a a = false) /\
  (forall a b, BySmallestPair a b = true -> BySmallestPair b a = false) /\
  (forall a b c, BySmallestPair a b = true -> BySmallestPair b c = true ->
                 BySmallestPair a c = true) /\
  (forall l1 k1 l2 k2, l1 < l2 ->
     BySmallestPair (l1, k1) (l2, k2) = true /\
     BySmallestPair (l2, k2) (l1, k1) = false) /\
  (forall l k1 k2,
     BySmallestPair (l, k1) (l, k2) = true <-> Compare k1 k2 < 0).
Proof.
  split; [|split; [|split; [|split]]].
  - intros a. destruct (BySmallestPair a a) eqn:E; [|reflexivity].
    pose proof (BySmallestPair_asym _ _ E). congruence.
  - exact BySmallestPair_asym.
  - exact BySmallestPair_trans.
  - intros l1 k1 l2 k2 H. unfold BySmallestPair. cbn [fst snd].
    destruct (Z.eqb_spec l1 l2), (Z.eqb_spec l2 l1); try lia.
    cbn [negb]. split; lia.
  - intros l k1 k2. unfold BySmallestPair. cbn [fst snd].
    rewrite Z.eqb_refl. cbn [negb]. apply Z.ltb_lt.
Qed.

(** *** What the decoder puts into the edit *)

(** One turn of the [switch] that goes on changes the edit as a public
    mutator would; wherever the entry carries a level, [GetLevel] has
    checked it, and a fence goes to the vector of its own level. *)
Inductive decoded_update (e : t) : t -> Prop :=
| DU_comparator name : decoded_update e (SetComparatorName name e)
| DU_log_number v : decoded_update e (SetLogNumber v e)
| DU_prev_log_number v : decoded_update e (SetPrevLogNumber v e)
| DU_next_file v : decoded_update e (SetNextFile v e)
| DU_last_sequence v : decoded_update e (SetLastSequence v e)
| DU_compact_pointer level key :
    in_levels level -> decoded_update e (SetCompactPointer level key e)
| DU_deleted_file level number :
    in_levels level -> decoded_update e (RemoveFile level number e)
| DU_deleted_fence level key :
    in_levels level -> decoded_update e (DeleteFence level key e)
| DU_deleted_sentinel_file level number :
    in_levels level -> decoded_update e (DeleteSentinelFile level number e)
| DU_new_file level f :
    in_levels level ->
    decoded_update e (with_new_files (new_files_ e ++ [(level, f)]) e)
| DU_sentinel_file_no level number :
    in_levels level ->
    decoded_update e
      (with_sentinel_file_nos
         (push_at level number (sentinel_file_nos_ e)) e)
| DU_new_fence level g :
    in_levels level -> g_level g = level ->
    decoded_update e (with_new_fences (push_at level g (new_fences_ e)) e)
| DU_new_complete_fence level g :
    in_levels level -> g_level g = level ->
    decoded_update e
      (with_new_complete_fences
         (push_at level g (new_complete_fences_ e)) e).

Lemma get_level_key_level input level k rest :
  get_level_key input = Some (level, k, rest) -> in_levels level.
Proof.
  unfold get_level_key. split_getters. intros [= <- _ _].
  eapply GetLevel_bound; eauto.
Qed.

Lemma get_level_number_level input level n rest :
  get_level_number input = Some (level, n, rest) -> in_levels level.
Proof.
  unfold get_level_number. split_getters. intros [= <- _ _].
  eapply GetLevel_bound; eauto.
Qed.

Lemma get_file_entry_level input level f rest :
  get_file_entry input = Some (level, f, rest) -> in_levels level.
Proof.
  unfold get_file_entry. split_getters. intros [= <- _ _].
  eapply GetLevel_bound; eauto.
Qed.

Lemma get_fence_head_level input level n k rest :
  get_fence_head input = Some (level, n, k, rest) -> in_levels level.
Proof.
  unfold get_fence_head. split_getters. intros [= <- _ _ _].
  eapply GetLevel_bound; eauto.
Qed.

Lemma DecodeStep_update tag input l e input' l' e' :
  DecodeStep tag input l e = Continue input' l' e' -> decoded_update e e'.
Proof.
  unfold DecodeStep.
  repeat match goal with
  | |- context [if ?t =? ?k then _ else _] => destruct (t =? k)
  end;
  try discriminate;
  repeat match goal with
  | |- context [match ?g input with Some _ => _ | None => _ end] =>
      let E := fresh "E" in
      destruct (g input) as [?p|] eqn:E; [|discriminate];
      repeat match goal with p : (_ * _)%type |- _ => destruct p end
  end;
  try (intros [= _ _ <-];
       first [ apply get_level_key_level in E
             | apply get_level_number_level in E
             | apply get_file_entry_level in E
             | idtac ];
       constructor; assumption).
  all: apply get_fence_head_level in E.
  all: match goal with |- context [0 <? ?n] => destruct (0 <? n) end.
  all: try (intros [= _ _ <-]; constructor; [assumption|reflexivity]).
  all: match goal with
       | |- context [assert_key_pair ?i] =>
           destruct (assert_key_pair i) as [[[? ?] ?]|]; [|discriminate]
       end.
  all: try (intros [= _ _ <-]; constructor; [assumption|reflexivity]).
  match goal with
  | |- context [read_fence_files ?n ?i ?a ?b ?c] =>
      destruct (read_fence_files n i a b c) as [[[[? ?] ?] ?]|];
        [|discriminate]
  end.
  intros [= _ _ <-]. constructor; [assumption|reflexivity].
Qed.

(** What every update keeps holds of the edit the loop returns, with OK or
    with a corruption. *)
Lemma DecodeLoop_updates (P : t -> Prop) :
  (forall e e', P e -> decoded_update e e' -> P e') ->
  forall fuel input l e st e',
    P e -> DecodeLoop fuel input l e = Returned st e' -> P e'.
Proof.
  intros Step. induction fuel as [|fuel IH]; intros input l e st e' He;
    [discriminate|].
  cbn [DecodeLoop].
  destruct (GetVarint32 input) as [[tag i]|].
  - destruct (DecodeStep tag i l e) as [i' l1 e1| |] eqn:S.
    + apply DecodeStep_update in S. apply IH. eapply Step; eauto.
    + intros [= _ <-]. exact He.
    + discriminate.
  - destruct input; intros [= _ <-]; exact He.
Qed.

(** The levels held by an edit are all below [kNumLevels], the per-level
    vectors are [kNumLevels] in number, and a fence sits in the vector of
    its own level. *)
Definition levels_in_range (e : t) : Prop :=
  Forall (fun p => in_levels (fst p)) (compact_pointers_ e) /\
  Forall (fun p => in_levels (fst p)) (deleted_files_ e) /\
  Forall (fun p => in_levels (fst p)) (new_files_ e) /\
  Forall (fun p => in_levels (fst p)) (deleted_fences_ e) /\
  Forall (fun p => in_levels (fst p)) (deleted_sentinel_files_ e) /\
  length (sentinel_file_nos_ e) = Z.to_nat kNumLevels /\
  length (new_fences_ e) = Z.to_nat kNumLevels /\
  length (new_complete_fences_ e) = Z.to_nat kNumLevels /\
  (forall k v, new_fences_ e !! k = Some v ->
     Forall (fun g => g_level g = Z.of_nat k) v) /\
  (forall k v, new_complete_fences_ e !! k = Some v ->
     Forall (fun g => g_level g = Z.of_nat k) v).

Lemma fence_slots_push level g (arr : list (list FenceMetaData)) :
  in_levels level -> g_level g = level ->
  (forall k v, arr !! k = Some v ->
     Forall (fun g => g_level g = Z.of_nat k) v) ->
  forall k v, push_at level g arr !! k = Some v ->
    Forall (fun g => g_level g = Z.of_nat k) v.
Proof.
  intros [H0 _] Hg H k v. unfold push_at. rewrite list_lookup_alter.
  destruct (decide (Z.to_nat level = k)) as [<-|Hne]; [|apply H].
  destruct (arr !! Z.to_nat level) as [v0|] eqn:E; [|discriminate].
  cbn. intros [= <-]. apply Forall_app. split; [now apply H|].
  apply Forall_cons. split; [|apply Forall_nil_2]. lia.
Qed.

Lemma levels_in_range_update e e' :
  levels_in_range e -> decoded_update e e' -> levels_in_range e'.
Proof.
  intros (H1 & H2 & H3 & H4 & H5 & H6 & H7 & H8 & H9 & H10) U.
  destruct U; unfold levels_in_range, push_at;
    cbn [SetComparatorName SetLogNumber SetPrevLogNumber SetNextFile
         SetLastSequence SetCompactPointer RemoveFile DeleteFence
         DeleteSentinelFile
         with_compact_pointers with_deleted_files with_new_files
         with_sentinel_file_nos with_deleted_sentinel_files with_new_fences
         with_new_complete_fences with_deleted_fences
         compact_pointers_ deleted_files_ new_files_ sentinel_file_nos_
         deleted_sentinel_files_ new_fences_ new_complete_fences_
         deleted_fences_];
    rewrite ?length_alter;
    repeat match goal with |- _ /\ _ => split end;
    first
    [ assumption
    | apply set_insert_Forall; assumption
    | apply Forall_app; split; [assumption|];
      apply Forall_cons; split; [assumption|apply Forall_nil_2]
    | apply fence_slots_push; assumption ].
Qed.

Lemma levels_in_range_new : levels_in_range (Clear new).
Proof.
  rewrite Clear_new. unfold levels_in_range, empty_levels.
  cbn [compact_pointers_ deleted_files_ new_files_ sentinel_file_nos_
       deleted_sentinel_files_ new_fences_ new_complete_fences_
       deleted_fences_].
  rewrite !length_replicate.
  repeat match goal with |- _ /\ _ => split end;
    try apply Forall_nil_2; try reflexivity;
    intros k v H; apply lookup_replicate in H as [-> _]; apply Forall_nil_2.
Qed.

(** Whatever the bytes given to [DecodeFrom] on a fresh edit, and whether
    it returns OK or a corruption, every level stored in the edit it leaves
    is at least 0 and below [kNumLevels], no per-level vector was indexed
    out of bounds, and every fence recorded sits in the vector of the level
    it names. *)
Theorem DecodeFrom_levels_in_range (src : list byte) (st : Status) (e' : t) :
  DecodeFrom src new = Returned st e' -> levels_in_range e'.
Proof.
  unfold DecodeFrom.
  apply (DecodeLoop_updates levels_in_range levels_in_range_update).
  exact levels_in_range_new.
Qed.

(** *** The sets of a decoded edit *)




(** *** Decoding into an edit that was used before *)

(** The members [Clear] does not reset, as they were in [e0], are still
    in [e]: the sets hold what they held, the vectors start with what they
    held. *)
Definition keeps_stale (e0 e : t) : Prop :=
  (forall p, In p (deleted_fences_ e0) -> In p (deleted_fences_ e)) /\
  (forall p, In p (deleted_sentinel_files_ e0) ->
             In p (deleted_sentinel_files_ e)) /\
  (forall k v, new_complete_fences_ e0 !! k = Some v ->
     exists w, new_complete_fences_ e !! k = Some (v ++ w)) /\
  (forall k v, sentinel_file_nos_ e0 !! k = Some v ->
     exists w, sentinel_file_nos_ e !! k = Some (v ++ w)).

Lemma push_at_keeps {A : Type} level (x : A) (arr0 arr : list (list A)) :
  (forall k v, arr0 !! k = Some v -> exists w, arr !! k = Some (v ++ w)) ->
  forall k v, arr0 !! k = Some v ->
    exists w, push_at level x arr !! k = Some (v ++ w).
Proof.
  intros H k v Hv. destruct (H k v Hv) as (w & Hw).
  unfold push_at. rewrite list_lookup_alter.
  destruct (decide (Z.to_nat level = k)) as [<-|Hne]; [|eauto].
  rewrite Hw. cbn. exists (w ++ [x]). now rewrite app_assoc.
Qed.

Lemma keeps_stale_update e0 e e' :
  keeps_stale e0 e -> decoded_update e e' -> keeps_stale e0 e'.
Proof.
  intros (H1 & H2 & H3 & H4) U.
  destruct U; unfold keeps_stale;
    cbn [SetComparatorName SetLogNumber SetPrevLogNumber SetNextFile
         SetLastSequence SetCompactPointer RemoveFile DeleteFence
         DeleteSentinelFile
         with_compact_pointers with_deleted_files with_new_files
         with_sentinel_file_nos with_deleted_sentinel_files with_new_fences
         with_new_complete_fences with_deleted_fences
         sentinel_file_nos_ deleted_sentinel_files_ new_complete_fences_
         deleted_fences_];
    repeat match goal with |- _ /\ _ => split end;
    first
    [ assumption
    | intros p Hp; apply set_insert_keeps; auto
    | apply push_at_keeps; assumption ].
Qed.

(** [DecodeFrom] starts with [Clear], which leaves four members alone.
    So when it is called on an edit that was used before, whatever the
    input and whatever the status returned, the deleted fences and deleted
    sentinel files of the old edit are still in the sets, and the complete
    fences and sentinel file numbers of the old edit still stand, level by
    level, in front of what the input added. *)
Theorem DecodeFrom_keeps_stale_members
  (src : list byte) (e0 : t) (st : Status) (e' : t) :
  DecodeFrom src e0 = Returned st e' ->
  (forall p, In p (deleted_fences_ e0) -> In p (deleted_fences_ e')) /\
  (forall p, In p (deleted_sentinel_files_ e0) ->
             In p (deleted_sentinel_files_ e')) /\
  (forall k v, new_complete_fences_ e0 !! k = Some v ->
     exists w, new_complete_fences_ e' !! k = Some (v ++ w)) /\
  (forall k v, sentinel_file_nos_ e0 !! k = Some v ->
     exists w, sentinel_file_nos_ e' !! k = Some (v ++ w)).
Proof.
  unfold DecodeFrom.
  apply (DecodeLoop_updates (keeps_stale e0) (keeps_stale_update e0)).
  unfold keeps_stale, Clear.
  cbn [sentinel_file_nos_ deleted_sentinel_files_ new_complete_fences_
       deleted_fences_].
  repeat split; auto; intros k v H; exists []; now rewrite app_nil_r.
Qed.

(** *** The two sentinel tags on the way in *)

Lemma new_unfold :
  new = mk [] 0 0 0 0 false false false false false [] [] []
           empty_levels empty_levels [] empty_levels empty_levels [].
Proof.
  unfold new, Clear.
  cbn [sentinel_files_ sentinel_file_nos_ deleted_sentinel_files_
       new_fences_ new_complete_fences_ deleted_fences_].
  now rewrite !clear_levels_empty.
Qed.

Lemma Clear_new_new : Clear new = new.
Proof. now rewrite Clear_new, new_unfold. Qed.

Lemma concat_empty_levels {A : Type} : concat (@empty_levels A) = [].
Proof.
  unfold empty_levels. induction (Z.to_nat kNumLevels); [reflexivity|].
  cbn. exact IHn.
Qed.

(** A buffer that holds one entry. *)
Lemma DecodeFrom_one_entry src e0 tag input1 l' e' :
  GetVarint32 src = Some (tag, input1) ->
  DecodeStep tag input1 locals_init (Clear e0) = Continue [] l' e' ->
  DecodeFrom src e0 = Returned OK e'.
Proof.
  intros G St. unfold DecodeFrom.
  rewrite (DecodeLoop_Reaches src locals_init (Clear e0) [] l' e'
             (S (length src)) 1%nat); [reflexivity| |lia|simpl; lia].
  exact (Reaches_step src locals_init (Clear e0) tag input1 [] l' e' [] l' e'
           G St (Reaches_here [] l' e')).
Qed.

(** The decoder's case for [kNewSentinelFile] (13) reads a level and a
    number and does what [AddSentinelFileNo] does; its case for
    [kNewSentinelFileNo] (16) reads a whole file entry (level, number, size,
    smallest and largest key) and does what [AddFile] does, like the case
    for [kNewFile]. *)
Theorem DecodeFrom_sentinel_tags
  (level number file_size : Z) (smallest largest : InternalKey) :
  in_levels level -> u64 number -> u64 file_size ->
  key_ok smallest -> key_ok largest ->
  (exists e',
     AddSentinelFileNo level number new = Some e' /\
     DecodeFrom
       (PutVarint64 (PutVarint32 (PutVarint32 [] kNewSentinelFile) level)
          number) new
     = Returned OK e') /\
  DecodeFrom
    (PutLengthPrefixedSlice
       (PutLengthPrefixedSlice
          (PutVarint64
             (PutVarint64
                (PutVarint32 (PutVarint32 [] kNewSentinelFileNo) level)
                number)
             file_size)
          (ikey_Encode smallest))
       (ikey_Encode largest)) new
  = Returned OK (AddFile level number file_size smallest largest new) /\
  DecodeFrom (EncodeTo (AddFile level number file_size smallest largest new) [])
    new
  = Returned OK (AddFile level number file_size smallest largest new).
Proof.
  intros Hl Hn Hs Hk1 Hk2.
  assert (Ht : forall tag, 0 <= tag < 128 -> 0 <= tag < 2 ^ 32) by lia.
  split; [|split].
  - unfold AddSentinelFileNo, level_ok.
    destruct Hl as [H0 H1].
    destruct (Z.leb_spec 0 level); [|lia].
    destruct (Z.ltb_spec level kNumLevels); [|lia].
    cbn [andb]. eexists. split; [reflexivity|].
    rewrite (PutVarint64_app (PutVarint32 _ _)),
      (PutVarint32_app (PutVarint32 _ _)), <- app_assoc.
    eapply DecodeFrom_one_entry.
    + apply GetVarint32_Put. vm_compute. split; congruence.
    + step_tag.
      rewrite <- (app_nil_r (PutVarint64 [] number)).
      rewrite get_level_number_Put by (try assumption; split; assumption).
      rewrite Clear_new_new. reflexivity.
  - rewrite (PutLengthPrefixedSlice_app (PutLengthPrefixedSlice _ _)),
      (PutLengthPrefixedSlice_app (PutVarint64 _ _)),
      (PutVarint64_app (PutVarint64 _ _)),
      (PutVarint64_app (PutVarint32 _ _)),
      (PutVarint32_app (PutVarint32 _ _)), <- !app_assoc.
    eapply DecodeFrom_one_entry.
    + apply GetVarint32_Put. vm_compute. split; congruence.
    + step_tag.
      rewrite <- (app_nil_r (PutLengthPrefixedSlice [] (ikey_Encode largest))).
      rewrite get_file_entry_Put by assumption.
      rewrite Clear_new_new. reflexivity.
  - assert (E : entries (AddFile level number file_size smallest largest new)
               = [ENewFile level number file_size smallest largest]).
    { rewrite new_unfold. unfold entries, AddFile, with_new_files.
      cbn [comparator_ log_number_ prev_log_number_ next_file_number_
           last_sequence_ has_comparator_ has_log_number_
           has_prev_log_number_ has_next_file_number_ has_last_sequence_
           compact_pointers_ deleted_files_ new_files_
           deleted_sentinel_files_ new_fences_ new_complete_fences_
           deleted_fences_ map app].
      now rewrite concat_empty_levels. }
    rewrite EncodeTo_entries, app_nil_l, E.
    rewrite DecodeFrom_entries.
    + rewrite Clear_new_new. reflexivity.
    + apply Forall_cons. split; [|apply Forall_nil_2].
      cbn [valid_entry]. auto.
Qed.

(** *** The order of the calls that delete files *)

(** The two sets of files stay strictly increasing under every call. *)
Definition file_sets_increasing (e : t) : Prop :=
  increasing pair_ltb (deleted_files_ e) /\
  increasing pair_ltb (deleted_sentinel_files_ e).

Lemma file_sets_increasing_apply_call c e e' :
  file_sets_increasing e -> apply_call c e = Some e' ->
  file_sets_increasing e'.
Proof.
  clear. intros (H1 & H2) A.
  destruct c; cbn [apply_call] in A;
    unfold AddFileToSentinel, AddSentinelFile, AddSentinelFileNo, AddFence,
      AddCompleteFence, AddFenceFromExisting, AddCompleteFenceFromExisting,
      AddFenceWithFiles in A; cbv zeta in A;
    try (injection A as <-);
    try (match type of A with
         | (if ?c then _ else _) = _ =>
             destruct c; [injection A as <-|discriminate]
         end);
    unfold file_sets_increasing;
    cbn [SetComparatorName SetLogNumber SetPrevLogNumber SetNextFile
         SetLastSequence SetCompactPointer AddFile RemoveFile DeleteFence
         DeleteSentinelFile
         with_compact_pointers with_deleted_files with_new_files
         with_sentinel_files with_sentinel_file_nos
         with_deleted_sentinel_files with_new_fences
         with_new_complete_fences with_deleted_fences
         deleted_files_ deleted_sentinel_files_];
    split;
    first
    [ assumption
    | apply set_insert_increasing; [exact pair_ltb_trans|assumption] ].
Qed.

Lemma file_sets_increasing_build cs e :
  build cs = Some e -> file_sets_increasing e.
Proof.
  clear. unfold build.
  assert (S0 : file_sets_increasing new).
  { rewrite new_unfold. split; constructor. }
  revert S0. generalize new as e0. revert e.
  induction cs as [|c cs IH]; intros e e0 S0; cbn [apply_calls].
  - now intros [= <-].
  - destruct (apply_call c e0) as [e1|] eqn:A; [|discriminate].
    apply IH. eapply file_sets_increasing_apply_call; eauto.
Qed.

(** On an edit built by any calls of the public mutators, two calls of
    [RemoveFile] give the same edit in either order, and a call repeated
    changes nothing more; the file named is in the set afterwards.  The
    same holds of [DeleteSentinelFile].  So the bytes [EncodeTo] writes for
    the two sets do not depend on the order or the number of the calls. *)
Theorem RemoveFile_order_irrelevant
  (cs : list call) (e : t) (l1 f1 l2 f2 : Z) :
  build cs = Some e ->
  RemoveFile l1 f1 (RemoveFile l2 f2 e) = RemoveFile l2 f2 (RemoveFile l1 f1 e) /\
  RemoveFile l1 f1 (RemoveFile l1 f1 e) = RemoveFile l1 f1 e /\
  In (l1, f1) (deleted_files_ (RemoveFile l1 f1 e)) /\
  DeleteSentinelFile l1 f1 (DeleteSentinelFile l2 f2 e)
  = DeleteSentinelFile l2 f2 (DeleteSentinelFile l1 f1 e) /\
  DeleteSentinelFile l1 f1 (DeleteSentinelFile l1 f1 e)
  = DeleteSentinelFile l1 f1 e /\
  In (l1, f1) (deleted_sentinel_files_ (DeleteSentinelFile l1 f1 e)).
Proof.
  clear. intros Hb. destruct (file_sets_increasing_build cs e Hb) as (S1 & S2).
  destruct e. unfold RemoveFile, DeleteSentinelFile, with_deleted_files,
    with_deleted_sentinel_files.
  cbn [comparator_ log_number_ prev_log_number_ next_file_number_
       last_sequence_ has_comparator_ has_log_number_ has_prev_log_number_
       has_next_file_number_ has_last_sequence_ compact_pointers_
       deleted_files_ new_files_ sentinel_files_ sentinel_file_nos_
       deleted_sentinel_files_ new_fences_ new_complete_fences_
       deleted_fences_] in S1, S2 |- *.
  repeat split.
  - f_equal.
    now apply (set_insert_comm pair_ltb pair_ltb_trans pair_ltb_asym
                 pair_ltb_total).
  - f_equal.
    now apply (set_insert_idem pair_ltb pair_ltb_trans pair_ltb_asym
                 pair_ltb_total).
  - apply (set_insert_In pair_ltb pair_ltb_total). now left.
  - f_equal.
    now apply (set_insert_comm pair_ltb pair_ltb_trans pair_ltb_asym
                 pair_ltb_total).
  - f_equal.
    now apply (set_insert_idem pair_ltb pair_ltb_trans pair_ltb_asym
                 pair_ltb_total).
  - apply (set_insert_In pair_ltb pair_ltb_total). now left.
Qed.

(** *** Two encodings one after the other *)





(** *** UpdateFences *)

(** [for (int i = 0; i < kNumLevels; i++)
       fence_array[i] += new_fences_[i].size();]
    on an array of [uint64_t]; [n] levels are left, [i] is the next one.
    An index outside the array the caller gave has no defined behaviour:
    [None]. *)
Fixpoint UpdateFences_from (n i : nat) (e : t) (fence_array : list Z)
  : option (list Z) :=
  match n with
  | O => Some fence_array
  | S n' =>
      match fence_array !! i, new_fences_ e !! i with
      | Some v, Some fences =>
          UpdateFences_from n' (S i) e
            (<[i := (v + Z.of_nat (length fences)) mod 2 ^ 64]> fence_array)
      | _, _ => None
      end
  end.

Definition UpdateFences (e : t) (fence_array : list Z) : option (list Z) :=
  UpdateFences_from (Z.to_nat kNumLevels) 0 e fence_array.

(** The calls that put a fence into [new_fences_] of level [k]. *)
Definition adds_fence (k : Z) (c : call) : bool :=
  match c with
  | CAddFence level _ => level =? k
  | CAddFenceFromExisting level _ => level =? k
  | CAddFenceWithFiles level _ _ _ _ _ => level =? k
  | _ => false
  end.

Definition count_fences (k : Z) (cs : list call) : Z :=
  Z.of_nat (length (List.filter (adds_fence k) cs)).

Lemma UpdateFences_from_spec n i e arr :
  (i + n <= length arr)%nat -> (i + n <= length (new_fences_ e))%nat ->
  exists arr',
    UpdateFences_from n i e arr = Some arr' /\
    length arr' = length arr /\
    forall j,
      arr' !! j
      = if decide (i <= j < i + n)%nat
        then match arr !! j, new_fences_ e !! j with
             | Some v, Some fences =>
                 Some ((v + Z.of_nat (length fences)) mod 2 ^ 64)
             | _, _ => None
             end
        else arr !! j.
Proof.
  revert i arr. induction n as [|n IH]; intros i arr Ha Hf.
  - exists arr. split; [reflexivity|]. split; [reflexivity|].
    intros j. rewrite decide_False by lia. reflexivity.
  - cbn [UpdateFences_from].
    destruct (arr !! i) as [v|] eqn:Ev.
    2:{ apply lookup_ge_None in Ev. lia. }
    destruct (new_fences_ e !! i) as [fences|] eqn:Ef.
    2:{ apply lookup_ge_None in Ef. lia. }
    destruct (IH (S i)
                (<[i := (v + Z.of_nat (length fences)) mod 2 ^ 64]> arr))
      as (arr' & U & Hlen & Hj).
    { rewrite length_insert. lia. }
    { lia. }
    exists arr'. split; [exact U|]. split.
    { rewrite Hlen. apply length_insert. }
    intros j. rewrite Hj.
    destruct (decide (i = j)) as [<-|Hne].
    + rewrite decide_False, decide_True by lia.
      rewrite list_lookup_insert_eq by lia. now rewrite Ev, Ef.
    + rewrite list_lookup_insert_ne by exact Hne.
      destruct (decide (S i <= j < S i + n)%nat);
        [rewrite decide_True by lia|rewrite decide_False by lia];
        reflexivity.
Qed.

Lemma push_at_length_at {A : Type} level (x : A) (arr : list (list A)) k v :
  0 <= level -> 0 <= k ->
  push_at level x arr !! Z.to_nat k = Some v ->
  exists v0, arr !! Z.to_nat k = Some v0 /\
    Z.of_nat (length v)
    = Z.of_nat (length v0) + (if level =? k then 1 else 0).
Proof.
  intros Hl Hk. unfold push_at. rewrite list_lookup_alter.
  destruct (Z.eqb_spec level k) as [->|Hne].
  - rewrite decide_True by reflexivity.
    destruct (arr !! Z.to_nat k) as [v0|]; [|discriminate].
    cbn. intros [= <-]. exists v0. split; [reflexivity|].
    rewrite length_app. cbn. lia.
  - rewrite decide_False by lia. intros H. exists v. split; [exact H|lia].
Qed.

(** The number of fences an edit holds at level [k] after some calls. *)
Lemma new_fences_apply_calls cs e0 e k v :
  0 <= k -> apply_calls cs e0 = Some e ->
  new_fences_ e !! Z.to_nat k = Some v ->
  exists v0, new_fences_ e0 !! Z.to_nat k = Some v0 /\
    Z.of_nat (length v) = Z.of_nat (length v0) + count_fences k cs.
Proof.
  intros Hk. revert e0.
  induction cs as [|c cs IH]; intros e0; cbn [apply_calls].
  - intros [= <-] Hv. exists v. split; [exact Hv|].
    unfold count_fences. cbn. lia.
  - destruct (apply_call c e0) as [e1|] eqn:A; [|discriminate].
    intros Hcs Hv. destruct (IH e1 Hcs Hv) as (v1 & Hv1 & Hlen).
    assert (Hc : exists v0, new_fences_ e0 !! Z.to_nat k = Some v0 /\
               Z.of_nat (length v1)
               = Z.of_nat (length v0) + (if adds_fence k c then 1 else 0)).
    { destruct c; cbn [apply_call adds_fence] in A |- *;
        unfold AddFileToSentinel, AddSentinelFile, AddSentinelFileNo,
          AddFence, AddCompleteFence, AddFenceFromExisting,
          AddCompleteFenceFromExisting, AddFenceWithFiles in A;
        cbv zeta in A;
        try (injection A as <-);
        try (match type of A with
             | (if level_ok ?l then _ else _) = _ =>
                 unfold level_ok in A;
                 destruct (Z.leb_spec 0 l); cbn [andb] in A;
                   [|discriminate];
                 destruct (l <? kNumLevels); [|discriminate];
                 injection A as <-
             end);
        cbn [SetComparatorName SetLogNumber SetPrevLogNumber SetNextFile
             SetLastSequence SetCompactPointer AddFile RemoveFile DeleteFence
             DeleteSentinelFile
             with_compact_pointers with_deleted_files with_new_files
             with_sentinel_files with_sentinel_file_nos
             with_deleted_sentinel_files with_new_fences
             with_new_complete_fences with_deleted_fences new_fences_]
          in Hv1;
        first
        [ apply push_at_length_at in Hv1; [exact Hv1|assumption|assumption]
        | exists v1; split; [exact Hv1|lia] ]. }
    destruct Hc as (v0 & Hv0 & Hlen0). exists v0. split; [exact Hv0|].
    unfold count_fences in *. cbn [List.filter].
    destruct (adds_fence k c); cbn [length]; lia.
Qed.

Lemma new_fences_length_apply_calls cs e0 e :
  apply_calls cs e0 = Some e ->
  length (new_fences_ e) = length (new_fences_ e0).
Proof.
  revert e0. induction cs as [|c cs IH]; intros e0; cbn [apply_calls].
  - now intros [= <-].
  - destruct (apply_call c e0) as [e1|] eqn:A; [|discriminate].
    intros Hcs. rewrite (IH e1 Hcs).
    destruct c; cbn [apply_call] in A;
      unfold AddFileToSentinel, AddSentinelFile, AddSentinelFileNo,
        AddFence, AddCompleteFence, AddFenceFromExisting,
        AddCompleteFenceFromExisting, AddFenceWithFiles in A;
      cbv zeta in A;
      try (injection A as <-);
      try (match type of A with
           | (if ?c then _ else _) = _ =>
               destruct c; [injection A as <-|discriminate]
           end);
      cbn [SetComparatorName SetLogNumber SetPrevLogNumber SetNextFile
           SetLastSequence SetCompactPointer AddFile RemoveFile DeleteFence
           DeleteSentinelFile
           with_compact_pointers with_deleted_files with_new_files
           with_sentinel_files with_sentinel_file_nos
           with_deleted_sentinel_files with_new_fences
           with_new_complete_fences with_deleted_fences new_fences_];
      unfold push_at; rewrite ?length_alter; reflexivity.
Qed.

(** For an edit built from a fresh one by any calls of the public
    mutators, and an array of at least [kNumLevels] counters,
    [UpdateFences] adds to the counter of every level [k] the number of
    calls of [AddFence], [AddFenceFromExisting] and [AddFenceWithFiles]
    made for level [k] (modulo 2^64); complete fences are not counted, and
    the counters past [kNumLevels] are left alone. *)
Theorem UpdateFences_counts_calls
  (cs : list call) (e : t) (fence_array : list Z) :
  build cs = Some e ->
  (Z.to_nat kNumLevels <= length fence_array)%nat ->
  exists fence_array',
    UpdateFences e fence_array = Some fence_array' /\
    length fence_array' = length fence_array /\
    (forall k v, 0 <= k < kNumLevels ->
       fence_array !! Z.to_nat k = Some v ->
       fence_array' !! Z.to_nat k
       = Some ((v + count_fences k cs) mod 2 ^ 64)) /\
    (forall j, (Z.to_nat kNumLevels <= j)%nat ->
       fence_array' !! j = fence_array !! j).
Proof.
  intros Hb Hlen. unfold build in Hb.
  pose proof (new_fences_length_apply_calls cs new e Hb) as Hn.
  assert (Hn0 : length (new_fences_ new) = Z.to_nat kNumLevels).
  { rewrite new_unfold. cbn [new_fences_]. unfold empty_levels.
    apply length_replicate. }
  destruct (UpdateFences_from_spec (Z.to_nat kNumLevels) 0 e fence_array)
    as (arr' & U & Hl & Hj); [lia|lia|].
  exists arr'. split; [exact U|]. split; [exact Hl|]. split.
  - intros k v Hk Hv. rewrite Hj, decide_True by lia. rewrite Hv.
    destruct (new_fences_ e !! Z.to_nat k) as [fences|] eqn:Ef.
    2:{ apply lookup_ge_None in Ef. lia. }
    destruct (new_fences_apply_calls cs new e k fences) as (v0 & Hv0 & Hc);
      [lia|exact Hb|exact Ef|].
    rewrite new_unfold in Hv0. cbn [new_fences_] in Hv0.
    unfold empty_levels in Hv0. apply lookup_replicate in Hv0 as [-> _].
    cbn [length] in Hc. do 2 f_equal. lia.
  - intros j Hge. rewrite Hj, decide_False by lia. reflexivity.
Qed.

(** *** Levels the mutators do not check *)

Lemma GetLevel_Put_out_of_range level rest :
  - 2 ^ 31 <= level < 2 ^ 31 -> ~ in_levels level ->
  GetLevel (PutVarint32 [] level ++ rest) = None.
Proof.
  intros Hi Hn.
  assert (Hm : 0 <= level mod 2 ^ 32 < 2 ^ 32) by (apply Z.mod_pos_bound; lia).
  assert (E : PutVarint32 [] level = PutVarint32 [] (level mod 2 ^ 32))
    by (unfold PutVarint32; now rewrite Z.mod_mod by lia).
  rewrite E. apply (GetLevel_out_of_range _ (level mod 2 ^ 32) rest).
  - now apply GetVarint32_Put.
  - unfold in_levels in Hn.
    destruct (Z.lt_ge_cases level 0) as [Hneg|Hpos].
    + replace (level mod 2 ^ 32) with (level + 2 ^ 32); [lia|].
      apply Z.mod_unique with (q := -1); lia.
    + rewrite Z.mod_small by lia. lia.
Qed.

Lemma DecodeFrom_first_level_refused tag msg level body e0 :
  0 <= tag < 2 ^ 32 -> level_entry_msg tag = Some msg ->
  - 2 ^ 31 <= level < 2 ^ 31 -> ~ in_levels level ->
  DecodeFrom (PutVarint32 [] tag ++ PutVarint32 [] level ++ body) e0
  = Returned (Corruption "VersionEdit" msg) (Clear e0).
Proof.
  intros Ht M Hi Hn. unfold DecodeFrom. cbn [DecodeLoop].
  rewrite GetVarint32_Put by exact Ht.
  rewrite (DecodeStep_level_out_of_range tag msg); [reflexivity|exact M|].
  now apply GetLevel_Put_out_of_range.
Qed.

(** [SetCompactPointer], [AddFile], [RemoveFile], [DeleteFence] and
    [DeleteSentinelFile] take any [int] as level, and [EncodeTo] writes it;
    but when the level is not in [0, kNumLevels) the bytes written are
    refused by [DecodeFrom], with the corruption message of that entry and
    nothing stored. *)
Theorem unchecked_level_not_decodable
  (level number file_size : Z) (key smallest largest : InternalKey) :
  - 2 ^ 31 <= level < 2 ^ 31 -> ~ in_levels level ->
  DecodeFrom (EncodeTo (SetCompactPointer level key new) []) new
  = Returned (Corruption "VersionEdit" "compaction pointer") new /\
  DecodeFrom (EncodeTo (AddFile level number file_size smallest largest new) [])
    new
  = Returned (Corruption "VersionEdit" "new-file entry") new /\
  DecodeFrom (EncodeTo (RemoveFile level number new) []) new
  = Returned (Corruption "VersionEdit" "deleted file") new /\
  DecodeFrom (EncodeTo (DeleteFence level key new) []) new
  = Returned (Corruption "VersionEdit" "deleted guard") new /\
  DecodeFrom (EncodeTo (DeleteSentinelFile level number new) []) new
  = Returned (Corruption "VersionEdit" "deleted sentinel file") new.
Proof.
  intros Hi Hn.
  assert (G : forall x tag msg body,
            entry_tag x = tag -> entry_body x = PutVarint32 [] level ++ body ->
            0 <= tag < 2 ^ 32 -> level_entry_msg tag = Some msg ->
            DecodeFrom (flat_map enc_entry [x]) new
            = Returned (Corruption "VersionEdit" msg) new).
  { intros x tag msg body Et Eb Ht M. cbn [flat_map]. unfold enc_entry.
    rewrite app_nil_r, Et, Eb.
    rewrite (DecodeFrom_first_level_refused tag msg level body new Ht M Hi Hn).
    now rewrite Clear_new_new. }
  assert (E : forall e, e = new ->
            entries (SetCompactPointer level key e)
            = [ELevelKey kCompactPointer level key] /\
            entries (AddFile level number file_size smallest largest e)
            = [ENewFile level number file_size smallest largest] /\
            entries (RemoveFile level number e)
            = [ELevelNumber kDeletedFile level number] /\
            entries (DeleteFence level key e)
            = [ELevelKey kDeletedFence level key] /\
            entries (DeleteSentinelFile level number e)
            = [ELevelNumber kDeletedSentinelFile level number]).
  { intros e ->. rewrite new_unfold.
    unfold entries, SetCompactPointer, AddFile, RemoveFile, DeleteFence,
      DeleteSentinelFile, with_compact_pointers, with_new_files,
      with_deleted_files, with_deleted_fences, with_deleted_sentinel_files.
    cbn [comparator_ log_number_ prev_log_number_ next_file_number_
         last_sequence_ has_comparator_ has_log_number_
         has_prev_log_number_ has_next_file_number_ has_last_sequence_
         compact_pointers_ deleted_files_ new_files_
         deleted_sentinel_files_ new_fences_ new_complete_fences_
         deleted_fences_ map app set_insert].
    rewrite !concat_empty_levels. repeat split; reflexivity. }
  destruct (E new eq_refl) as (E1 & E2 & E3 & E4 & E5).
  rewrite !EncodeTo_entries, !app_nil_l, E1, E2, E3, E4, E5.
  repeat split; eapply G; try reflexivity; vm_compute; split; congruence.
Qed.

(** *** Fence entries with a segment count *)

(** With assertions enabled: a new-fence or complete-fence entry whose
    segment count is positive must be followed by the smallest and largest
    key; when they cannot be read the call ends in the failed assertion, it
    does not return a corruption.  For a new fence the same happens when
    the key pair is there but what follows is not tagged
    file-inside-fence. *)
Theorem DecodeFrom_fence_assertions
  (level n : Z) (fence_key smallest largest : InternalKey)
  (rest rest' : list byte) (tag2 : Z) (e0 : t) :
  in_levels level -> u64 n -> 0 < n -> key_ok fence_key ->
  key_ok smallest -> key_ok largest ->
  assert_key_pair rest = None ->
  0 <= tag2 < 2 ^ 32 -> tag2 <> kFileInsideFence ->
  DecodeFrom
    (PutVarint32 [] kNewFence ++ PutVarint32 [] level ++ PutVarint64 [] n
     ++ PutLengthPrefixedSlice [] (ikey_Encode fence_key) ++ rest) e0
  = Aborted /\
  DecodeFrom
    (PutVarint32 [] kNewCompleteFence ++ PutVarint32 [] level
     ++ PutVarint64 [] n
     ++ PutLengthPrefixedSlice [] (ikey_Encode fence_key) ++ rest) e0
  = Aborted /\
  DecodeFrom
    (PutVarint32 [] kNewFence ++ PutVarint32 [] level ++ PutVarint64 [] n
     ++ PutLengthPrefixedSlice [] (ikey_Encode fence_key)
     ++ PutLengthPrefixedSlice [] (ikey_Encode smallest)
     ++ PutLengthPrefixedSlice [] (ikey_Encode largest)
     ++ PutVarint32 [] tag2 ++ rest') e0
  = Aborted /\
  assert_key_pair [] = None.
Proof.
  intros Hl Un Hn Hk Hs Hg Ha Ht2 Hne.
  destruct (Z.ltb_spec 0 n) as [_|]; [|lia].
  assert (Hz : (0 < Z.to_nat n)%nat) by lia.
  unfold DecodeFrom. cbn [DecodeLoop].
  rewrite !GetVarint32_Put by (vm_compute; split; congruence).
  repeat split.
  - step_tag. rewrite get_fence_head_Put by assumption. cbv beta iota.
    destruct (Z.ltb_spec 0 n) as [_|]; [|lia]. now rewrite Ha.
  - step_tag. rewrite get_fence_head_Put by assumption. cbv beta iota.
    destruct (Z.ltb_spec 0 n) as [_|]; [|lia]. now rewrite Ha.
  - step_tag. rewrite get_fence_head_Put by assumption. cbv beta iota.
    destruct (Z.ltb_spec 0 n) as [_|]; [|lia].
    rewrite assert_key_pair_Put by assumption. cbv beta iota.
    destruct (Z.to_nat n) as [|m]; [lia|]. cbn [read_fence_files].
    rewrite GetVarint32_Put by exact Ht2.
    destruct (Z.eqb_spec tag2 kFileInsideFence); [contradiction|].
    reflexivity.
Qed.

(** *** The level a fence is written with *)

Lemma concat_replicate_nil {A : Type} n : concat (replicate n (@nil A)) = [].
Proof. induction n as [|n IH]; [reflexivity|]. cbn. exact IH. Qed.

Lemma concat_push_empty {A : Type} level (x : A) :
  0 <= level < kNumLevels -> concat (push_at level x empty_levels) = [x].
Proof.
  intros Hl. unfold push_at, empty_levels.
  assert (Hlt : (Z.to_nat level < Z.to_nat kNumLevels)%nat) by lia.
  revert Hlt. generalize (Z.to_nat level) as i.
  generalize (Z.to_nat kNumLevels) as n. clear.
  induction n as [|n IH]; intros i Hi; [lia|].
  destruct i as [|i].
  - cbn. now rewrite concat_replicate_nil.
  - cbn. apply IH. lia.
Qed.

(** [AddFenceFromExisting] and [AddCompleteFenceFromExisting] put the copy
    into the vector of the level they are given, but [EncodeTo] writes the
    level held by the fence itself.  So a fence whose own level differs from
    the level of the call comes back, after the round trip, in the vector of
    its own level, and the vector of the level of the call is empty. *)
Theorem fence_comes_back_at_its_own_level
  (level : Z) (g : FenceMetaData) (e : t) :
  in_levels level -> in_levels (g_level g) -> key_ok (g_fence_key g) ->
  level <> g_level g ->
  AddFenceFromExisting level g new = Some e ->
  new_fences_ e !! Z.to_nat level = Some [g] /\
  new_fences_ e !! Z.to_nat (g_level g) = Some [] /\
  exists d,
    DecodeFrom (EncodeTo e []) new = Returned OK d /\
    new_fences_ d !! Z.to_nat level = Some [] /\
    new_fences_ d !! Z.to_nat (g_level g)
    = Some [plain_fence (g_level g) (g_fence_key g)].
Proof.
  intros Hl Hg Hk Hne A.
  destruct Hl as [L0 L1]. destruct Hg as [G0 G1].
  assert (Ee : e = with_new_fences (push_at level g (new_fences_ new)) new).
  { unfold AddFenceFromExisting, level_ok in A.
    destruct (Z.leb_spec 0 level); [|lia].
    destruct (Z.ltb_spec level kNumLevels); [|lia].
    now injection A as <-. }
  subst e. clear A.
  assert (Hn : Z.to_nat level <> Z.to_nat (g_level g)) by lia.
  assert (E0 : forall k, (k < Z.to_nat kNumLevels)%nat ->
            (@empty_levels FenceMetaData) !! k = Some []).
  { intros k Hk'. unfold empty_levels. now apply lookup_replicate_2. }
  assert (En : entries
                 (with_new_fences (push_at level g (new_fences_ new)) new)
               = [EFence kNewFence (g_level g) (g_fence_key g)]).
  { rewrite new_unfold. unfold entries, with_new_fences.
    cbn [comparator_ log_number_ prev_log_number_ next_file_number_
         last_sequence_ has_comparator_ has_log_number_
         has_prev_log_number_ has_next_file_number_ has_last_sequence_
         compact_pointers_ deleted_files_ new_files_
         deleted_sentinel_files_ new_fences_ new_complete_fences_
         deleted_fences_ map app].
    rewrite concat_empty_levels.
    assert (Ec : concat (push_at level g (@empty_levels FenceMetaData)) = [g])
      by (apply concat_push_empty; lia).
    rewrite Ec. reflexivity. }
  assert (Ew : forall a (e1 : t), new_fences_ (with_new_fences a e1) = a)
    by reflexivity.
  assert (Enew : new_fences_ new = empty_levels)
    by (rewrite new_unfold; reflexivity).
  rewrite EncodeTo_entries, app_nil_l, En.
  rewrite Ew, Enew. unfold push_at at 1 2.
  rewrite !list_lookup_alter.
  rewrite decide_True by reflexivity. rewrite decide_False by exact Hn.
  rewrite !E0 by lia.
  split; [reflexivity|]. split; [reflexivity|].
  eexists. split.
  - rewrite DecodeFrom_entries.
    + reflexivity.
    + apply Forall_cons. split; [|apply Forall_nil_2].
      cbn [valid_entry]. unfold in_levels. auto.
  - rewrite Clear_new_new.
    change (fold_left decode_effect
              [EFence kNewFence (g_level g) (g_fence_key g)] new)
      with (with_new_fences
              (push_at (g_level g) (plain_fence (g_level g) (g_fence_key g))
                 (new_fences_ new)) new).
    rewrite Ew, Enew. unfold push_at.
    rewrite !list_lookup_alter.
    rewrite decide_False by lia. rewrite decide_True by reflexivity.
    rewrite !E0 by lia. split; reflexivity.
Qed.

(** *** Keys the key class refuses *)

(** An entry that carries a level and a key, with the level in range and the
    key slice in place: when [InternalKey::DecodeFrom] refuses the slice the
    entry is a corruption, reported under the name of the entry, and nothing
    is stored. *)
Theorem DecodeFrom_key_refused
  (level : Z) (s rest : list byte) (n : Z) (e0 : t) :
  in_levels level -> Z.of_nat (length s) < 2 ^ 32 -> u64 n ->
  ikey_DecodeFrom s = None ->
  DecodeFrom
    (PutVarint32 [] kCompactPointer ++ PutVarint32 [] level
     ++ PutLengthPrefixedSlice [] s ++ rest) e0
  = Returned (Corruption "VersionEdit" "compaction pointer") (Clear e0) /\
  DecodeFrom
    (PutVarint32 [] kDeletedFence ++ PutVarint32 [] level
     ++ PutLengthPrefixedSlice [] s ++ rest) e0
  = Returned (Corruption "VersionEdit" "deleted guard") (Clear e0) /\
  DecodeFrom
    (PutVarint32 [] kNewFence ++ PutVarint32 [] level ++ PutVarint64 [] n
     ++ PutLengthPrefixedSlice [] s ++ rest) e0
  = Returned (Corruption "VersionEdit" "new-fence entry") (Clear e0) /\
  DecodeFrom
    (PutVarint32 [] kNewCompleteFence ++ PutVarint32 [] level
     ++ PutVarint64 [] n ++ PutLengthPrefixedSlice [] s ++ rest) e0
  = Returned (Corruption "VersionEdit" "new-complete-fence entry") (Clear e0).
Proof.
  intros Hl Hs Un Hk.
  assert (Gk : forall r, GetInternalKey (PutLengthPrefixedSlice [] s ++ r)
                         = None).
  { intros r. unfold GetInternalKey.
    rewrite GetLengthPrefixedSlice_Put by exact Hs. now rewrite Hk. }
  unfold DecodeFrom. cbn [DecodeLoop].
  rewrite !GetVarint32_Put by (vm_compute; split; congruence).
  repeat split; step_tag;
    unfold get_level_key, get_fence_head;
    rewrite GetLevel_Put by exact Hl;
    rewrite ?GetVarint64_Put by exact Un;
    rewrite Gk; reflexivity.
Qed.

End WithKeys.
End VersionEdit.

(** ** db/write_batch *)

Module WriteBatch.

Import Coding.

(** WriteBatch header has an 8-byte sequence number followed by a 4-byte
    count. *)
Definition kHeader : nat := 12.

Record t : Type := mk { rep_ : list byte }.

(** [rep_.clear(); rep_.resize(kHeader)]. *)
Definition Clear (b : t) : t := mk (replicate kHeader x00).

(** [WriteBatch::WriteBatch() { Clear(); }]. *)
Definition new : t := Clear (mk []).

Definition ApproximateSize (b : t) : Z := Z.of_nat (length (rep_ b)).

(** The conversion of a [uint32_t] to [int]. *)
Definition to_int (u : Z) : Z := if u <? 2 ^ 31 then u else u - 2 ^ 32.

(** [char] read as an integer (a signed type on the usual targets). *)
Definition char_to_int (c : byte) : Z :=
  if b2z c <? 128 then b2z c else b2z c - 256.

Definition Count (b : t) : Z := to_int (DecodeFixed32 (drop 8 (rep_ b))).

(** [EncodeFixed32(&b->rep_[8], n)] overwrites bytes 8 to 11. *)
Definition SetCount (b : t) (n : Z) : t :=
  mk (take 8 (rep_ b) ++ EncodeFixed32 n ++ drop 12 (rep_ b)).

Definition Sequence (b : t) : Z := DecodeFixed64 (rep_ b).

Definition SetSequence (b : t) (seq : Z) : t :=
  mk (EncodeFixed64 seq ++ drop 8 (rep_ b)).

(** [WriteBatch::Handler]: the three virtual methods, over the state of the
    handler object.  [None] is a handler that stops the process. *)
Class Handler (H : Type) : Type := {
  handler_Put : list byte -> list byte -> H -> option H;
  handler_Delete : list byte -> H -> option H;
  handler_HandleFence : list byte -> Z -> H -> option H
}.

Section WithConfig.

(** db/dbformat.h, db/murmurhash3.h and db/memtable.h are not among the
    sources: the level count, the three [ValueType] tags, the hash (key
    bytes and seed to a 32-bit value) and the table with its [Add] are
    parameters. *)
Variable kNumLevels : Z.
Variables kTypeDeletion kTypeValue kTypeFence : Z.
Variable MurmurHash3_x86_32 : list byte -> Z -> Z.
Variable MemTable : Type.
Variable MemTable_Add : Z -> Z -> list byte -> list byte -> MemTable -> MemTable.

Definition Put (key value : list byte) (b : t) : t :=
  let b := SetCount b (Count b + 1) in
  let rep := rep_ b ++ [z2b kTypeValue] in
  let rep := PutLengthPrefixedSlice rep key in
  mk (PutLengthPrefixedSlice rep value).

Definition PutFence (key : list byte) (level : Z) (b : t) : t :=
  let b := SetCount b (Count b + 1) in
  let rep := rep_ b ++ [z2b kTypeFence] in
  let rep := PutLengthPrefixedSlice rep key in
  mk (PutVarint32 rep level).

Definition Delete (key : list byte) (b : t) : t :=
  let b := SetCount b (Count b + 1) in
  let rep := rep_ b ++ [z2b kTypeDeletion] in
  mk (PutLengthPrefixedSlice rep key).

(** [WriteBatchInternal::Append]; [None] is the failed assertion. *)
Definition Append (dst src : t) : option t :=
  let dst := SetCount dst (Count dst + Count src) in
  if (kHeader <=? length (rep_ src))%nat
  then Some (mk (rep_ dst ++ drop kHeader (rep_ src)))
  else None.

(** [WriteBatchInternal::SetContents]. *)
Definition SetContents (b : t) (contents : list byte) : option t :=
  if (kHeader <=? length contents)%nat then Some (mk contents) else None.

(** The body of [Iterate] after the header: one record a turn.  [found] is
    an [int]; it is modelled without overflow, which the count in the
    header (also an [int]) cannot match anyway.  Every turn consumes the tag
    byte, so a fuel above the length of the input is never used up. *)
Fixpoint IterateLoop {H : Type} `{Handler H} (count : Z) (fuel : nat)
  (input : list byte) (found : Z) (handler : H) : outcome H :=
  match fuel with
  | O => OutOfFuel
  | S fuel' =>
      match input with
      | [] =>
          if negb (found =? count)
          then Returned (Corruption "WriteBatch has wrong count" "") handler
          else Returned OK handler
      | c :: input =>
          let found := found + 1 in
          let tag := char_to_int c in
          if tag =? kTypeValue then
            match GetLengthPrefixedSlice input with
            | Some (key, input) =>
                match GetLengthPrefixedSlice input with
                | Some (value, input) =>
                    match handler_Put key value handler with
                    | Some handler =>
                        IterateLoop count fuel' input found handler
                    | None => Aborted
                    end
                | None =>
                    Returned (Corruption "bad WriteBatch Put" "") handler
                end
            | None => Returned (Corruption "bad WriteBatch Put" "") handler
            end
          else if tag =? kTypeDeletion then
            match GetLengthPrefixedSlice input with
            | Some (key, input) =>
                match handler_Delete key handler with
                | Some handler => IterateLoop count fuel' input found handler
                | None => Aborted
                end
            | None => Returned (Corruption "bad WriteBatch Delete" "") handler
            end
          else if tag =? kTypeFence then
            match GetLengthPrefixedSlice input with
            | Some (key, input) =>
                match GetVarint32 input with
                | Some (level, input) =>
                    match handler_HandleFence key level handler with
                    | Some handler =>
                        IterateLoop count fuel' input found handler
                    | None => Aborted
                    end
                | None =>
                    Returned (Corruption "unknown WriteBatch tag" "") handler
                end
            | None =>
                Returned (Corruption "unknown WriteBatch tag" "") handler
            end
          else Returned (Corruption "unknown WriteBatch tag" "") handler
      end
  end.

Definition Iterate {H : Type} `{Handler H} (b : t) (handler : H) : outcome H :=
  if (length (rep_ b) <? kHeader)%nat
  then Returned (Corruption "malformed WriteBatch (too small)" "") handler
  else
    let input := drop kHeader (rep_ b) in
    IterateLoop (Count b) (S (length input)) input 0 handler.

(** *** MemTableInserter *)

Record MemTableInserter : Type := mkMemTableInserter {
  mi_sequence_ : Z;
  mi_mem_ : MemTable
}.

(** [sequence_++] on a 64-bit unsigned counter. *)
Definition incr64 (s : Z) : Z := (s + 1) mod 2 ^ 64.

(** [HandleFence] builds a [FenceMetaData] that nothing keeps a pointer to;
    what is left of the call is the assertion and the advance of the
    sequence number. *)
#[export] Instance MemTableInserter_Handler : Handler MemTableInserter := {
  handler_Put key value h :=
    Some (mkMemTableInserter (incr64 (mi_sequence_ h))
            (MemTable_Add (mi_sequence_ h) kTypeValue key value (mi_mem_ h)));
  handler_Delete key h :=
    Some (mkMemTableInserter (incr64 (mi_sequence_ h))
            (MemTable_Add (mi_sequence_ h) kTypeDeletion key [] (mi_mem_ h)));
  handler_HandleFence key level h :=
    if level <? kNumLevels
    then Some (mkMemTableInserter (incr64 (mi_sequence_ h)) (mi_mem_ h))
    else None
}.

Definition InsertInto (b : t) (memtable : MemTable)
  : outcome MemTableInserter :=
  Iterate b (mkMemTableInserter (Sequence b) memtable).

(** *** FenceInserter *)

Record FenceInserter : Type := mkFenceInserter {
  new_batch : t;
  fi_sequence_ : Z;
  num_guards : list Z;
  bit_mask : Z
}.

Definition top_level_bits : Z := 27.
Definition bit_decrement : Z := 2.
Definition murmur_seed : Z := 42.

(** [assert(num_bits > 0 && num_bits < 32); bit_mask = (1 << num_bits) - 1]. *)
Definition set_mask (num_bits : Z) (h : FenceInserter) : option FenceInserter :=
  if (0 <? num_bits) && (num_bits <? 32)
  then Some (mkFenceInserter (new_batch h) (fi_sequence_ h) (num_guards h)
               (Z.shiftl 1 num_bits - 1))
  else None.

(** [for (unsigned j = i; j < kNumLevels; j++)]: [n] levels are left. *)
Fixpoint insert_guards (n : nat) (j : Z) (key : list byte) (h : FenceInserter)
  : FenceInserter :=
  match n with
  | O => h
  | S n' =>
      insert_guards n' (j + 1) key
        (mkFenceInserter (PutFence key j (new_batch h)) (fi_sequence_ h)
           (alter (fun c => c + 1) (Z.to_nat j) (num_guards h)) (bit_mask h))
  end.

(** [for (unsigned i = 0; i < kNumLevels; i++)]: [n] levels are left;
    [num_bits] is unsigned. *)
Fixpoint check_levels (n : nat) (i num_bits hash_result : Z) (key : list byte)
  (h : FenceInserter) : option FenceInserter :=
  match n with
  | O => Some h
  | S n' =>
      match set_mask num_bits h with
      | Some h =>
          if Z.land hash_result (bit_mask h) =? bit_mask h
          then Some (insert_guards n i key h)
          else check_levels n' (i + 1) ((num_bits - bit_decrement) mod 2 ^ 32)
                 hash_result key h
      | None => None
      end
  end.

Definition FenceInserter_Put (key value : list byte) (h : FenceInserter)
  : option FenceInserter :=
  let hash_result := MurmurHash3_x86_32 key murmur_seed in
  let num_bits := top_level_bits in
  match check_levels (Z.to_nat kNumLevels) 0 num_bits hash_result key h with
  | Some h =>
      Some (mkFenceInserter (new_batch h) (incr64 (fi_sequence_ h))
              (num_guards h) (bit_mask h))
  | None => None
  end.

#[export] Instance FenceInserter_Handler : Handler FenceInserter := {
  handler_Put := FenceInserter_Put;
  handler_Delete key h :=
    Some (mkFenceInserter (new_batch h) (incr64 (fi_sequence_ h))
            (num_guards h) (bit_mask h));
  handler_HandleFence key level h := None
}.

(** [FenceInserter()] followed by the two assignments of [SetFences]. *)
Definition SetFences (batch new_batch : t) : outcome FenceInserter :=
  Iterate batch
    (mkFenceInserter new_batch (Sequence batch)
       (replicate (Z.to_nat kNumLevels) 0) 0).


(** *** Batches built by calls, and their records *)

(** A call of one of the three builders; also, read as a record, what
    [Iterate] hands to the handler. *)
Inductive op : Type :=
| OpPut (key value : list byte)
| OpDelete (key : list byte)
| OpFence (key : list byte) (level : Z).

Definition apply_op (b : t) (o : op) : t :=
  match o with
  | OpPut key value => Put key value b
  | OpDelete key => Delete key b
  | OpFence key level => PutFence key level b
  end.

Definition apply_ops (ops : list op) (b : t) : t := fold_left apply_op ops b.

(** The bytes of one record. *)
Definition enc_op (o : op) : list byte :=
  match o with
  | OpPut key value =>
      [z2b kTypeValue] ++ PutLengthPrefixedSlice [] key
      ++ PutLengthPrefixedSlice [] value
  | OpDelete key => [z2b kTypeDeletion] ++ PutLengthPrefixedSlice [] key
  | OpFence key level =>
      [z2b kTypeFence] ++ PutLengthPrefixedSlice [] key ++ PutVarint32 [] level
  end.

(** One handler call for one record; the level of a fence travels as a
    [uint32_t]. *)
Definition dispatch {H : Type} `{Handler H} (h : option H) (o : op) : option H :=
  match h with
  | Some h =>
      match o with
      | OpPut key value => handler_Put key value h
      | OpDelete key => handler_Delete key h
      | OpFence key level => handler_HandleFence key (level mod 2 ^ 32) h
      end
  | None => None
  end.

(** The calls for a list of records, one each, in order. *)
Definition dispatch_all {H : Type} `{Handler H} (ops : list op) (h : H)
  : option H :=
  fold_left dispatch ops (Some h).

(** A handler that only writes down the calls it receives. *)
#[export] Instance Recorder : Handler (list op) := {
  handler_Put key value h := Some (h ++ [OpPut key value]);
  handler_Delete key h := Some (h ++ [OpDelete key]);
  handler_HandleFence key level h := Some (h ++ [OpFence key level])
}.

Definition op_ok (o : op) : Prop :=
  match o with
  | OpPut key value =>
      Z.of_nat (length key) < 2 ^ 32 /\ Z.of_nat (length value) < 2 ^ 32
  | OpDelete key => Z.of_nat (length key) < 2 ^ 32
  | OpFence key level => Z.of_nat (length key) < 2 ^ 32
  end.

(** The [ValueType] tags are small distinct enumerators. *)
Hypothesis tags_range :
  0 <= kTypeDeletion < 128 /\ 0 <= kTypeValue < 128 /\ 0 <= kTypeFence < 128.
Hypothesis tags_distinct :
  kTypeValue <> kTypeDeletion /\ kTypeFence <> kTypeValue
  /\ kTypeFence <> kTypeDeletion.

Lemma char_to_int_tag tag : 0 <= tag < 128 -> char_to_int (z2b tag) = tag.
Proof.
  intros H. unfold char_to_int. rewrite b2z_z2b_small by lia.
  destruct (Z.ltb_spec tag 128); [reflexivity|lia].
Qed.

(** A batch seen as sequence header, count header and records. *)
Definition batch (s c body : list byte) : t := mk (s ++ c ++ body).

Definition header_ok (s c : list byte) : Prop :=
  length s = 8%nat /\ length c = 4%nat.

Lemma DecodeFixed32_head c body :
  length c = 4%nat -> DecodeFixed32 (c ++ body) = DecodeFixed32 c.
Proof.
  destruct c as [|b0 [|b1 [|b2 [|b3 [|]]]]]; try discriminate. reflexivity.
Qed.

Lemma Count_batch s c body :
  header_ok s c -> Count (batch s c body) = to_int (DecodeFixed32 c).
Proof.
  intros [Hs Hc]. unfold Count, batch. cbn [rep_].
  rewrite drop_app_length' by lia. now rewrite DecodeFixed32_head.
Qed.

Lemma SetCount_batch s c body n :
  header_ok s c -> SetCount (batch s c body) n = batch s (EncodeFixed32 n) body.
Proof.
  intros [Hs Hc]. unfold SetCount, batch. cbn [rep_]. f_equal.
  rewrite take_app_length' by lia.
  replace (s ++ c ++ body) with ((s ++ c) ++ body) by now rewrite app_assoc.
  rewrite drop_app_length' by (rewrite length_app; lia). reflexivity.
Qed.

Lemma Sequence_batch s c body :
  header_ok s c -> Sequence (batch s c body) = DecodeFixed64 (s ++ c).
Proof.
  intros [Hs Hc]. unfold Sequence, batch, DecodeFixed64. cbn [rep_].
  destruct s as [|s0 [|s1 [|s2 [|s3 [|s4 [|s5 [|s6 [|s7 [|]]]]]]]]];
    try discriminate.
  destruct c as [|c0 [|c1 [|c2 [|c3 [|]]]]]; try discriminate. reflexivity.
Qed.

Lemma header_ok_Encode s n : length s = 8%nat -> header_ok s (EncodeFixed32 n).
Proof. intros Hs. split; [exact Hs|reflexivity]. Qed.

Lemma apply_op_batch s c body o :
  header_ok s c ->
  apply_op (batch s c body) o
  = batch s (EncodeFixed32 (to_int (DecodeFixed32 c) + 1)) (body ++ enc_op o).
Proof.
  intros Hh. destruct o; cbn [apply_op]; unfold Put, Delete, PutFence;
    cbv zeta; rewrite Count_batch, SetCount_batch by exact Hh;
    unfold batch; cbn [rep_ enc_op];
    rewrite ?(PutLengthPrefixedSlice_app (PutLengthPrefixedSlice _ _)),
      ?(PutVarint32_app (PutLengthPrefixedSlice _ _)),
      ?(PutLengthPrefixedSlice_app (_ ++ _));
    f_equal; now rewrite <- !app_assoc.
Qed.

Lemma to_int_Encode n :
  0 <= n < 2 ^ 31 -> to_int (DecodeFixed32 (EncodeFixed32 n)) = n.
Proof.
  intros H. rewrite <- (app_nil_r (EncodeFixed32 n)), DecodeFixed32_Encode.
  rewrite Z.mod_small by lia. unfold to_int.
  destruct (Z.ltb_spec n (2 ^ 31)); [reflexivity|lia].
Qed.

(** The calls append their records and count them. *)
Lemma apply_ops_batch ops s c body :
  header_ok s c ->
  0 <= to_int (DecodeFixed32 c) ->
  to_int (DecodeFixed32 c) + Z.of_nat (length ops) < 2 ^ 31 ->
  exists c',
    header_ok s c' /\
    to_int (DecodeFixed32 c') = to_int (DecodeFixed32 c) + Z.of_nat (length ops) /\
    apply_ops ops (batch s c body) = batch s c' (body ++ flat_map enc_op ops).
Proof.
  revert c body. induction ops as [|o ops IH]; intros c body Hh H0 Hn.
  - exists c. simpl. rewrite app_nil_r. repeat split; try apply Hh. lia.
  - cbn [apply_ops fold_left]. rewrite apply_op_batch by exact Hh.
    cbn [length] in Hn.
    destruct (IH (EncodeFixed32 (to_int (DecodeFixed32 c) + 1))
                (body ++ enc_op o)) as (c' & Hh' & Hc' & E).
    + apply header_ok_Encode, Hh.
    + rewrite to_int_Encode by lia. lia.
    + rewrite to_int_Encode by lia. lia.
    + exists c'. split; [exact Hh'|]. split.
      * rewrite Hc', to_int_Encode by lia. cbn [length]. lia.
      * unfold apply_ops in E. rewrite E. cbn [flat_map].
        now rewrite <- app_assoc.
Qed.

Lemma new_batch_view : new = batch (replicate 8 x00) (replicate 4 x00) [].
Proof. reflexivity. Qed.

Lemma IterateLoop_nil {H : Type} `{Handler H} count fuel found (h : H) :
  IterateLoop count (S fuel) [] found h
  = if negb (found =? count)
    then Returned (Corruption "WriteBatch has wrong count" "") h
    else Returned OK h.
Proof. reflexivity. Qed.

(** One record is parsed back and dispatched. *)
Lemma IterateLoop_op {H : Type} `{Handler H} count fuel o rest found (h : H) :
  op_ok o ->
  IterateLoop count (S fuel) (enc_op o ++ rest) found h
  = match dispatch (Some h) o with
    | Some h' => IterateLoop count fuel rest (found + 1) h'
    | None => Aborted
    end.
Proof.
  destruct tags_range as (Rd & Rv & Rf).
  destruct tags_distinct as (Dvd & Dfv & Dfd).
  intros Ho. destruct o; cbn [enc_op dispatch op_ok] in *;
    rewrite <- !app_assoc; cbn [app IterateLoop];
    rewrite char_to_int_tag by assumption.
  - rewrite Z.eqb_refl.
    destruct Ho as [Hk Hv].
    rewrite !GetLengthPrefixedSlice_Put by assumption. reflexivity.
  - destruct (Z.eqb_spec kTypeDeletion kTypeValue); [congruence|].
    rewrite Z.eqb_refl.
    rewrite GetLengthPrefixedSlice_Put by assumption. reflexivity.
  - destruct (Z.eqb_spec kTypeFence kTypeValue); [congruence|].
    destruct (Z.eqb_spec kTypeFence kTypeDeletion); [congruence|].
    rewrite Z.eqb_refl.
    rewrite GetLengthPrefixedSlice_Put by assumption.
    unfold PutVarint32 at 1. rewrite app_nil_l.
    assert (Hm : 0 <= level mod 2 ^ 32 < 2 ^ 32)
      by (apply Z.mod_pos_bound; lia).
    replace (EncodeVarint 4 (level mod 2 ^ 32))
      with (PutVarint32 [] (level mod 2 ^ 32))
      by (unfold PutVarint32; now rewrite app_nil_l, Z.mod_mod by lia).
    rewrite GetVarint32_Put by exact Hm. reflexivity.
Qed.

Lemma enc_op_nonempty o : (0 < length (enc_op o))%nat.
Proof. destruct o; simpl; lia. Qed.

Lemma dispatch_None {H : Type} `{Handler H} ops :
  fold_left dispatch ops (@None H) = None.
Proof. induction ops; simpl; auto. Qed.

(** All the records are parsed back and dispatched in order, then the
    count is compared. *)
Lemma IterateLoop_ops {H : Type} `{Handler H} count ops fuel found (h : H) :
  Forall op_ok ops -> (length (flat_map enc_op ops) < fuel)%nat ->
  IterateLoop count fuel (flat_map enc_op ops) found h
  = match dispatch_all ops h with
    | Some h' =>
        if negb (found + Z.of_nat (length ops) =? count)
        then Returned (Corruption "WriteBatch has wrong count" "") h'
        else Returned OK h'
    | None => Aborted
    end.
Proof.
  intros V. revert fuel found h.
  induction V as [|o ops Ho Hops IH]; intros fuel found h Hf.
  - destruct fuel; [simpl in Hf; lia|]. simpl. now rewrite Z.add_0_r.
  - destruct fuel; [simpl in Hf; lia|].
    cbn [flat_map]. rewrite IterateLoop_op by exact Ho.
    unfold dispatch_all. cbn [fold_left].
    destruct (dispatch (Some h) o) as [h'|] eqn:D.
    + rewrite IH.
      * unfold dispatch_all. cbn [length].
        replace (found + 1 + Z.of_nat (length ops))
          with (found + Z.of_nat (S (length ops))) by lia.
        reflexivity.
      * cbn [flat_map] in Hf. rewrite length_app in Hf.
        pose proof (enc_op_nonempty o). lia.
    + now rewrite dispatch_None.
Qed.

Lemma Iterate_batch {H : Type} `{Handler H} s c body (h : H) :
  header_ok s c ->
  Iterate (batch s c body) h
  = IterateLoop (to_int (DecodeFixed32 c)) (S (length body)) body 0 h.
Proof.
  intros Hh. pose proof Hh as [Hs Hc]. unfold Iterate.
  rewrite Count_batch by exact Hh. unfold batch, kHeader. cbn [rep_].
  rewrite !length_app, Hs, Hc.
  destruct (Nat.ltb_spec (8 + (4 + length body)) 12); [lia|].
  replace (s ++ c ++ body) with ((s ++ c) ++ body) by now rewrite app_assoc.
  rewrite drop_app_length' by (rewrite length_app; lia). reflexivity.
Qed.

(** A fence level as the handler receives it. *)
Definition as_record (o : op) : op :=
  match o with
  | OpFence key level => OpFence key (level mod 2 ^ 32)
  | _ => o
  end.

Lemma dispatch_all_Recorder ops (acc : list op) :
  dispatch_all ops acc = Some (acc ++ map as_record ops).
Proof.
  unfold dispatch_all. revert acc.
  induction ops as [|o ops IH]; intros acc; simpl.
  - now rewrite app_nil_r.
  - destruct o; simpl; rewrite IH, <- app_assoc; reflexivity.
Qed.

Lemma apply_ops_new ops :
  Forall op_ok ops -> Z.of_nat (length ops) < 2 ^ 31 ->
  Count (apply_ops ops new) = Z.of_nat (length ops) /\
  forall (H : Type) (HH : Handler H) (h : H),
    Iterate (apply_ops ops new) h
    = match dispatch_all ops h with
      | Some h' => Returned OK h'
      | None => Aborted
      end.
Proof.
  intros V Hn.
  assert (H0 : header_ok (replicate 8 x00) (replicate 4 x00))
    by (split; reflexivity).
  destruct (apply_ops_batch ops _ _ [] H0) as (c' & Hh & Hc & E);
    [vm_compute; congruence|change (to_int _) with 0; lia|].
  change (to_int (DecodeFixed32 (replicate 4 x00))) with 0 in Hc.
  rewrite <- new_batch_view in E. rewrite app_nil_l in E.
  split.
  - rewrite E, Count_batch by exact Hh. lia.
  - intros H HH h. rewrite E, Iterate_batch by exact Hh.
    rewrite IterateLoop_ops by (auto; lia).
    destruct (dispatch_all ops h); [|reflexivity].
    rewrite Hc, Z.eqb_refl. reflexivity.
Qed.

(** C3. For every sequence of [Put], [Delete] and [PutFence] calls on an
    empty batch (fewer than 2^31 of them, the range of the [int] count, with
    keys and values shorter than 2^32 bytes), the count in the header is the
    number of calls, and [Iterate] with any handler makes exactly one
    handler call for each call made, in the order of the calls, and returns
    OK (unless the handler itself stops the process); read with the
    recording handler it yields exactly the calls made. *)
Theorem Iterate_calls (ops : list op) :
  Forall op_ok ops -> Z.of_nat (length ops) < 2 ^ 31 ->
  Count (apply_ops ops new) = Z.of_nat (length ops) /\
  (forall (H : Type) (HH : Handler H) (h : H),
     Iterate (apply_ops ops new) h
     = match dispatch_all ops h with
       | Some h' => Returned OK h'
       | None => Aborted
       end) /\
  Iterate (apply_ops ops new) (@nil op) = Returned OK (map as_record ops) /\
  Iterate (apply_ops ops (Clear (apply_ops ops new))) (@nil op)
  = Returned OK (map as_record ops).
Proof.
  intros V Hn. destruct (apply_ops_new ops V Hn) as [C G].
  split; [exact C|]. split; [exact G|].
  assert (R : Iterate (apply_ops ops new) (@nil op)
              = Returned OK (map as_record ops))
    by (rewrite G, dispatch_all_Recorder; reflexivity).
  split; exact R.
Qed.

(** *** The concrete scenario *)

Lemma SetSequence_batch s c body seq :
  header_ok s c ->
  SetSequence (batch s c body) seq = batch (EncodeFixed64 seq) c body.
Proof.
  intros [Hs Hc]. unfold SetSequence, batch. cbn [rep_].
  now rewrite drop_app_length' by lia.
Qed.

Lemma Sequence_SetSequence s c body seq :
  header_ok s c -> 0 <= seq < 2 ^ 64 ->
  Sequence (SetSequence (batch s c body) seq) = seq.
Proof.
  intros Hh Hseq. rewrite SetSequence_batch by exact Hh.
  unfold Sequence, batch. cbn [rep_].
  rewrite DecodeFixed64_Encode. apply Z.mod_small. lia.
Qed.

Lemma length_batch s c body :
  header_ok s c -> length (rep_ (batch s c body)) = (12 + length body)%nat.
Proof.
  intros [Hs Hc]. unfold batch. cbn [rep_]. rewrite !length_app. lia.
Qed.

(** C8. The batch built by [Put(k1,v1)], [Delete(k2)], [Put(k3,v3)] and
    given the sequence number 5 has count 3; [InsertInto] returns OK after
    adding [k1] with sequence 5, the deletion of [k2] with 6 and [k3] with
    7, in that order, one more for each record; and [ApproximateSize] is 12
    plus the lengths of the three records. *)
Theorem scenario_put_delete_put
  (k1 v1 k2 k3 v3 : list byte) (memtable : MemTable) :
  Z.of_nat (length k1) < 2 ^ 32 -> Z.of_nat (length v1) < 2 ^ 32 ->
  Z.of_nat (length k2) < 2 ^ 32 ->
  Z.of_nat (length k3) < 2 ^ 32 -> Z.of_nat (length v3) < 2 ^ 32 ->
  let b := SetSequence (Put k3 v3 (Delete k2 (Put k1 v1 new))) 5 in
  Sequence b = 5 /\
  Count b = 3 /\
  InsertInto b memtable
  = Returned OK
      (mkMemTableInserter 8
         (MemTable_Add 7 kTypeValue k3 v3
            (MemTable_Add 6 kTypeDeletion k2 []
               (MemTable_Add 5 kTypeValue k1 v1 memtable)))) /\
  ApproximateSize b
  = 12 + Z.of_nat (length (enc_op (OpPut k1 v1)))
    + Z.of_nat (length (enc_op (OpDelete k2)))
    + Z.of_nat (length (enc_op (OpPut k3 v3))).
Proof.
  intros H1 H2 H3 H4 H5 b.
  set (ops := [OpPut k1 v1; OpDelete k2; OpPut k3 v3]).
  assert (V : Forall op_ok ops) by (repeat constructor; assumption).
  assert (H0 : header_ok (replicate 8 x00) (replicate 4 x00))
    by (split; reflexivity).
  destruct (apply_ops_batch ops _ _ [] H0) as (c' & Hh & Hc & E);
    [vm_compute; congruence|vm_compute; reflexivity|].
  change (to_int (DecodeFixed32 (replicate 4 x00))) with 0 in Hc.
  change (Z.of_nat (length ops)) with 3 in Hc. rewrite Z.add_0_l in Hc.
  rewrite <- new_batch_view, app_nil_l in E.
  assert (Eb : b = batch (EncodeFixed64 5) c' (flat_map enc_op ops)).
  { unfold b. change (Put k3 v3 (Delete k2 (Put k1 v1 new)))
      with (apply_ops ops new).
    rewrite E. now apply SetSequence_batch. }
  assert (Hh5 : header_ok (EncodeFixed64 5) c')
    by (split; [reflexivity|apply Hh]).
  assert (Es : Sequence b = 5).
  { unfold b. change (Put k3 v3 (Delete k2 (Put k1 v1 new)))
      with (apply_ops ops new).
    rewrite E. apply Sequence_SetSequence; [exact Hh|lia]. }
  split; [exact Es|]. split; [|split].
  - rewrite Eb, Count_batch by exact Hh5. exact Hc.
  - unfold InsertInto. rewrite Es, Eb, Iterate_batch by exact Hh5.
    rewrite IterateLoop_ops by (auto; lia).
    rewrite Hc. reflexivity.
  - unfold ApproximateSize. rewrite Eb, length_batch by exact Hh5.
    unfold ops. cbn [flat_map]. rewrite !length_app. cbn [length]. lia.
Qed.


(** *** Append *)

Lemma IterateLoop_fuel {H : Type} `{Handler H} count f1 f2 input found (h : H) :
  (length input < f1)%nat -> (length input < f2)%nat ->
  IterateLoop count f1 input found h = IterateLoop count f2 input found h.
Proof.
  revert f2 input found h.
  induction f1 as [|f1 IH]; intros f2 input found h H1 H2; [lia|].
  destruct f2 as [|f2]; [lia|].
  destruct input as [|c input]; [reflexivity|].
  cbn [IterateLoop]. cbn [length] in H1, H2.
  repeat match goal with
  | |- context [if ?t =? ?k then _ else _] => destruct (t =? k)
  end; try reflexivity.
  - destruct (GetLengthPrefixedSlice input) as [[key i1]|] eqn:E1;
      [|reflexivity].
    destruct (GetLengthPrefixedSlice i1) as [[value i2]|] eqn:E2;
      [|reflexivity].
    apply GetLengthPrefixedSlice_shorter in E1, E2.
    destruct (handler_Put key value h); [|reflexivity]. apply IH; lia.
  - destruct (GetLengthPrefixedSlice input) as [[key i1]|] eqn:E1;
      [|reflexivity].
    apply GetLengthPrefixedSlice_shorter in E1.
    destruct (handler_Delete key h); [|reflexivity]. apply IH; lia.
  - destruct (GetLengthPrefixedSlice input) as [[key i1]|] eqn:E1;
      [|reflexivity].
    destruct (GetVarint32 i1) as [[level i2]|] eqn:E2; [|reflexivity].
    apply GetLengthPrefixedSlice_shorter in E1.
    apply GetVarint32_shorter in E2.
    destruct (handler_HandleFence key level h); [|reflexivity]. apply IH; lia.
Qed.

Lemma Iterate_total {H : Type} `{Handler H} (b : t) (h : H) :
  Iterate b h <> OutOfFuel.
Proof.
  unfold Iterate. destruct (length (rep_ b) <? kHeader)%nat; [discriminate|].
  generalize (drop kHeader (rep_ b)) as input. intros input.
  generalize 0 as found. revert h.
  assert (G : forall fuel input found (h : H), (length input < fuel)%nat ->
            IterateLoop (Count b) fuel input found h <> OutOfFuel).
  { induction fuel as [|fuel IH]; intros i found h Hf; [lia|].
    destruct i as [|c i]; cbn [IterateLoop].
    - destruct (negb (found =? Count b)); discriminate.
    - cbn [length] in Hf.
      repeat match goal with
      | |- context [if ?t =? ?k then _ else _] => destruct (t =? k)
      end; try discriminate.
      + destruct (GetLengthPrefixedSlice i) as [[key i1]|] eqn:E1;
          [|discriminate].
        destruct (GetLengthPrefixedSlice i1) as [[value i2]|] eqn:E2;
          [|discriminate].
        apply GetLengthPrefixedSlice_shorter in E1, E2.
        destruct (handler_Put key value h); [|discriminate]. apply IH; lia.
      + destruct (GetLengthPrefixedSlice i) as [[key i1]|] eqn:E1;
          [|discriminate].
        apply GetLengthPrefixedSlice_shorter in E1.
        destruct (handler_Delete key h); [|discriminate]. apply IH; lia.
      + destruct (GetLengthPrefixedSlice i) as [[key i1]|] eqn:E1;
          [|discriminate].
        destruct (GetVarint32 i1) as [[level i2]|] eqn:E2; [|discriminate].
        apply GetLengthPrefixedSlice_shorter in E1.
        apply GetVarint32_shorter in E2.
        destruct (handler_HandleFence key level h); [|discriminate].
        apply IH; lia. }
  intros h found. apply G. lia.
Qed.

(** If the records in [x] are read through with success, then on [x]
    followed by [y] the loop reads the same records and goes on with [y]. *)
Lemma IterateLoop_app fuel :
  forall count x found (h recs : list op),
  IterateLoop count fuel x found h = Returned OK recs ->
  exists t,
    recs = h ++ t /\ count = found + Z.of_nat (length t) /\
    forall y count' fuel' found' (h' : list op),
      (length (x ++ y) < fuel')%nat ->
      IterateLoop count' fuel' (x ++ y) found' h'
      = IterateLoop count' (S (length y)) y
          (found' + Z.of_nat (length t)) (h' ++ t).
Proof.
  induction fuel as [|fuel IH]; intros count x found h recs R;
    [discriminate|].
  destruct x as [|c x].
  - cbn [IterateLoop] in R.
    destruct (Z.eqb_spec found count) as [->|]; [|discriminate].
    cbn [negb] in R. injection R as <-.
    exists []. rewrite app_nil_r. split; [reflexivity|].
    split; [simpl; lia|].
    intros y count' fuel' found' h' Hf. rewrite app_nil_l in Hf |- *.
    change (Z.of_nat (length (@nil op))) with 0.
    rewrite Z.add_0_r, app_nil_r. apply IterateLoop_fuel; lia.
  - cbn [IterateLoop] in R.
    assert (Step : forall o x', 
      IterateLoop count fuel x' (found + 1) (h ++ [o]) = Returned OK recs ->
      (forall y count' fuel' found' (h' : list op),
         (length ((c :: x) ++ y) < fuel')%nat ->
         exists fuel'', (length (x' ++ y) < fuel'')%nat /\
         IterateLoop count' fuel' ((c :: x) ++ y) found' h'
         = IterateLoop count' fuel'' (x' ++ y) (found' + 1) (h' ++ [o])) ->
      exists t,
        recs = h ++ t /\ count = found + Z.of_nat (length t) /\
        forall y count' fuel' found' (h' : list op),
          (length ((c :: x) ++ y) < fuel')%nat ->
          IterateLoop count' fuel' ((c :: x) ++ y) found' h'
          = IterateLoop count' (S (length y)) y
              (found' + Z.of_nat (length t)) (h' ++ t)).
    { intros o x' R' Hstep.
      destruct (IH _ _ _ _ _ R') as (t & -> & -> & Ht).
      exists (o :: t). rewrite <- app_assoc. split; [reflexivity|].
      split; [cbn [length]; lia|].
      intros y count' fuel' found' h' Hf.
      destruct (Hstep y count' fuel' found' h' Hf) as (fuel'' & Hf'' & ->).
      rewrite (Ht y count' fuel'' _ _ Hf''). cbn [length].
      rewrite <- app_assoc. f_equal. lia. }
    destruct (Z.eqb_spec (char_to_int c) kTypeValue) as [Ev|Nv].
    { destruct (GetLengthPrefixedSlice x) as [[key i1]|] eqn:E1;
        [|discriminate].
      destruct (GetLengthPrefixedSlice i1) as [[value i2]|] eqn:E2;
        [|discriminate].
      cbn [handler_Put Recorder] in R.
      apply (Step (OpPut key value) i2 R).
      intros y count' fuel' found' h' Hf.
      destruct fuel' as [|fuel']; [simpl in Hf; lia|].
      exists fuel'. rewrite <- app_comm_cons. cbn [IterateLoop].
      rewrite Ev, Z.eqb_refl.
      rewrite (GetLengthPrefixedSlice_app _ _ _ y E1).
      rewrite (GetLengthPrefixedSlice_app _ _ _ y E2).
      apply GetLengthPrefixedSlice_shorter in E1, E2.
      split; [|reflexivity].
      rewrite <- app_comm_cons in Hf. cbn [length] in Hf.
      rewrite length_app in Hf |- *. lia. }
    destruct (Z.eqb_spec (char_to_int c) kTypeDeletion) as [Ed|Nd].
    { destruct (GetLengthPrefixedSlice x) as [[key i1]|] eqn:E1;
        [|discriminate].
      cbn [handler_Delete Recorder] in R.
      apply (Step (OpDelete key) i1 R).
      intros y count' fuel' found' h' Hf.
      destruct fuel' as [|fuel']; [simpl in Hf; lia|].
      exists fuel'. rewrite <- app_comm_cons. cbn [IterateLoop].
      destruct (Z.eqb_spec (char_to_int c) kTypeValue); [contradiction|].
      rewrite Ed, Z.eqb_refl.
      rewrite (GetLengthPrefixedSlice_app _ _ _ y E1).
      apply GetLengthPrefixedSlice_shorter in E1.
      split; [|reflexivity].
      rewrite <- app_comm_cons in Hf. cbn [length] in Hf.
      rewrite length_app in Hf |- *. lia. }
    destruct (Z.eqb_spec (char_to_int c) kTypeFence) as [Ef|Nf];
      [|discriminate].
    destruct (GetLengthPrefixedSlice x) as [[key i1]|] eqn:E1;
      [|discriminate].
    destruct (GetVarint32 i1) as [[level i2]|] eqn:E2; [|discriminate].
    cbn [handler_HandleFence Recorder] in R.
    apply (Step (OpFence key level) i2 R).
    intros y count' fuel' found' h' Hf.
    destruct fuel' as [|fuel']; [simpl in Hf; lia|].
    exists fuel'. rewrite <- app_comm_cons. cbn [IterateLoop].
    destruct (Z.eqb_spec (char_to_int c) kTypeValue); [contradiction|].
    destruct (Z.eqb_spec (char_to_int c) kTypeDeletion); [contradiction|].
    rewrite Ef, Z.eqb_refl.
    rewrite (GetLengthPrefixedSlice_app _ _ _ y E1).
    rewrite (GetVarint32_app _ _ _ y E2).
    apply GetLengthPrefixedSlice_shorter in E1.
    apply GetVarint32_shorter in E2.
    split; [|reflexivity].
    rewrite <- app_comm_cons in Hf. cbn [length] in Hf.
    rewrite length_app in Hf |- *. lia.
Qed.

Lemma batch_view (b : t) :
  (kHeader <= length (rep_ b))%nat ->
  exists s c body, header_ok s c /\ b = batch s c body.
Proof.
  intros Hl. destruct b as [rep]. cbn [rep_] in Hl. unfold kHeader in Hl.
  exists (take 8 rep), (take 4 (drop 8 rep)), (drop 12 rep).
  split.
  - split; rewrite ?length_take, ?length_drop; lia.
  - unfold batch. f_equal.
    rewrite <- (take_drop 8 rep) at 1. f_equal.
    rewrite <- (take_drop 4 (drop 8 rep)) at 1. f_equal.
    now rewrite drop_drop.
Qed.

Lemma Iterate_OK_header {H : Type} `{Handler H} (b : t) (h h' : H) :
  Iterate b h = Returned OK h' -> (kHeader <= length (rep_ b))%nat.
Proof.
  unfold Iterate. destruct (Nat.ltb_spec (length (rep_ b)) kHeader);
    [discriminate|lia].
Qed.

(** With any handler, [Iterate] makes the calls that the recording handler
    writes down, in that order, and ends with the same status. *)
Lemma IterateLoop_replay fuel :
  forall count x found (acc recs : list op) st,
  IterateLoop count fuel x found acc = Returned st recs ->
  exists t,
    recs = acc ++ t /\
    forall (H : Type) (HH : Handler H) (h : H),
      IterateLoop count fuel x found h
      = match dispatch_all t h with
        | Some h' => Returned st h'
        | None => Aborted
        end.
Proof.
  induction fuel as [|fuel IH]; intros count x found acc recs st R;
    [discriminate|].
  assert (Stop : forall st',
    Returned st' acc = Returned st recs ->
    (forall (H : Type) (HH : Handler H) (h : H),
       IterateLoop count (S fuel) x found h = Returned st' h) ->
    exists t,
      recs = acc ++ t /\
      forall (H : Type) (HH : Handler H) (h : H),
        IterateLoop count (S fuel) x found h
        = match dispatch_all t h with
          | Some h' => Returned st h'
          | None => Aborted
          end).
  { intros st' [= -> <-] G. exists []. rewrite app_nil_r.
    split; [reflexivity|]. intros H HH h. now rewrite G. }
  assert (Step : forall o x',
    IterateLoop count fuel x' (found + 1) (acc ++ [o]) = Returned st recs ->
    (forall (H : Type) (HH : Handler H) (h : H),
       IterateLoop count (S fuel) x found h
       = match dispatch (Some h) o with
         | Some h' => IterateLoop count fuel x' (found + 1) h'
         | None => Aborted
         end) ->
    exists t,
      recs = acc ++ t /\
      forall (H : Type) (HH : Handler H) (h : H),
        IterateLoop count (S fuel) x found h
        = match dispatch_all t h with
          | Some h' => Returned st h'
          | None => Aborted
          end).
  { intros o x' R' G. destruct (IH _ _ _ _ _ _ R') as (t & -> & Ht).
    exists (o :: t). rewrite <- app_assoc. split; [reflexivity|].
    intros H HH h. rewrite G. unfold dispatch_all. cbn [fold_left].
    destruct (dispatch (Some h) o) as [h1|].
    - apply Ht.
    - now rewrite dispatch_None. }
  destruct x as [|c x]; cbn [IterateLoop] in R.
  - destruct (negb (found =? count)) eqn:E;
      (eapply Stop; [exact R|]; intros H HH h; cbn [IterateLoop];
       now rewrite E).
  - destruct (Z.eqb_spec (char_to_int c) kTypeValue) as [Ev|Nv].
    { destruct (GetLengthPrefixedSlice x) as [[key i1]|] eqn:E1.
      2:{ eapply Stop; [exact R|]. intros H HH h. cbn [IterateLoop].
          now rewrite Ev, Z.eqb_refl, E1. }
      destruct (GetLengthPrefixedSlice i1) as [[value i2]|] eqn:E2.
      2:{ eapply Stop; [exact R|]. intros H HH h. cbn [IterateLoop].
          now rewrite Ev, Z.eqb_refl, E1, E2. }
      cbn [handler_Put Recorder] in R.
      apply (Step (OpPut key value) i2 R).
      intros H HH h. cbn [IterateLoop dispatch].
      now rewrite Ev, Z.eqb_refl, E1, E2. }
    destruct (Z.eqb_spec (char_to_int c) kTypeDeletion) as [Ed|Nd].
    { destruct (GetLengthPrefixedSlice x) as [[key i1]|] eqn:E1.
      2:{ eapply Stop; [exact R|]. intros H HH h. cbn [IterateLoop].
          destruct (Z.eqb_spec (char_to_int c) kTypeValue); [contradiction|].
          now rewrite Ed, Z.eqb_refl, E1. }
      cbn [handler_Delete Recorder] in R.
      apply (Step (OpDelete key) i1 R).
      intros H HH h. cbn [IterateLoop dispatch].
      destruct (Z.eqb_spec (char_to_int c) kTypeValue); [contradiction|].
      now rewrite Ed, Z.eqb_refl, E1. }
    destruct (Z.eqb_spec (char_to_int c) kTypeFence) as [Ef|Nf].
    { destruct (GetLengthPrefixedSlice x) as [[key i1]|] eqn:E1.
      2:{ eapply Stop; [exact R|]. intros H HH h. cbn [IterateLoop].
          destruct (Z.eqb_spec (char_to_int c) kTypeValue); [contradiction|].
          destruct (Z.eqb_spec (char_to_int c) kTypeDeletion);
            [contradiction|].
          now rewrite Ef, Z.eqb_refl, E1. }
      destruct (GetVarint32 i1) as [[level i2]|] eqn:E2.
      2:{ eapply Stop; [exact R|]. intros H HH h. cbn [IterateLoop].
          destruct (Z.eqb_spec (char_to_int c) kTypeValue); [contradiction|].
          destruct (Z.eqb_spec (char_to_int c) kTypeDeletion);
            [contradiction|].
          now rewrite Ef, Z.eqb_refl, E1, E2. }
      cbn [handler_HandleFence Recorder] in R.
      apply (Step (OpFence key level) i2 R).
      intros H HH h. cbn [IterateLoop dispatch].
      destruct (Z.eqb_spec (char_to_int c) kTypeValue); [contradiction|].
      destruct (Z.eqb_spec (char_to_int c) kTypeDeletion); [contradiction|].
      rewrite Ef, Z.eqb_refl, E1, E2.
      rewrite (Z.mod_small level) by (eapply GetVarint32_bound; eauto).
      reflexivity. }
    eapply Stop; [exact R|]. intros H HH h. cbn [IterateLoop].
    destruct (Z.eqb_spec (char_to_int c) kTypeValue); [contradiction|].
    destruct (Z.eqb_spec (char_to_int c) kTypeDeletion); [contradiction|].
    destruct (Z.eqb_spec (char_to_int c) kTypeFence); [contradiction|].
    reflexivity.
Qed.

Lemma Iterate_replay (b : t) st (recs : list op) :
  Iterate b (@nil op) = Returned st recs ->
  forall (H : Type) (HH : Handler H) (h : H),
    Iterate b h
    = match dispatch_all recs h with
      | Some h' => Returned st h'
      | None => Aborted
      end.
Proof.
  unfold Iterate. destruct (length (rep_ b) <? kHeader)%nat.
  - intros [= <- <-] H HH h. reflexivity.
  - intros R. destruct (IterateLoop_replay _ _ _ _ _ _ _ R) as (t & -> & G).
    exact G.
Qed.

(** C6. For two batches that [Iterate] reads through with success and
    whose counts add up within the range of [int]: [Append] goes through;
    iterating the result yields the records of the first batch in order,
    then those of the second, to the recording handler and, as handler
    calls, to any handler; its count is the sum of the two counts; and its
    first eight bytes, hence its sequence number, are those of the first
    batch. *)
Theorem Append_records (a b : t) (ra rb : list op) :
  Iterate a (@nil op) = Returned OK ra ->
  Iterate b (@nil op) = Returned OK rb ->
  Count a + Count b < 2 ^ 31 ->
  exists ab,
    Append a b = Some ab /\
    Iterate ab (@nil op) = Returned OK (ra ++ rb) /\
    (forall (H : Type) (HH : Handler H) (h : H),
       Iterate ab h
       = match dispatch_all (ra ++ rb) h with
         | Some h' => Returned OK h'
         | None => Aborted
         end) /\
    Count ab = Count a + Count b /\
    take 8 (rep_ ab) = take 8 (rep_ a) /\
    Sequence ab = Sequence a.
Proof.
  intros Ia Ib Hsum.
  destruct (batch_view a (Iterate_OK_header _ _ _ Ia))
    as (sa & ca & xa & Ha & ->).
  destruct (batch_view b (Iterate_OK_header _ _ _ Ib))
    as (sb & cb & xb & Hb & ->).
  rewrite Iterate_batch in Ia, Ib by assumption.
  rewrite !Count_batch in * by assumption.
  destruct (IterateLoop_app _ _ _ _ _ _ Ia) as (ta & -> & Ca & Fa).
  destruct (IterateLoop_app _ _ _ _ _ _ Ib) as (tb & -> & Cb & Fb).
  rewrite Z.add_0_l in Ca, Cb. rewrite !app_nil_l.
  set (n := to_int (DecodeFixed32 ca) + to_int (DecodeFixed32 cb)) in *.
  assert (Hab : header_ok sa (EncodeFixed32 n))
    by (apply header_ok_Encode, Ha).
  exists (batch sa (EncodeFixed32 n) (xa ++ xb)).
  assert (En : to_int (DecodeFixed32 (EncodeFixed32 n)) = n)
    by (apply to_int_Encode; lia).
  assert (Rab : Iterate (batch sa (EncodeFixed32 n) (xa ++ xb)) (@nil op)
                = Returned OK (ta ++ tb)).
  { rewrite Iterate_batch by exact Hab. rewrite En.
    rewrite Fa by lia. rewrite app_nil_l, Z.add_0_l.
    rewrite <- (app_nil_r xb) at 2.
    rewrite (Fb [] n (S (length xb))) by (rewrite app_nil_r; lia).
    cbn [length IterateLoop].
    replace (Z.of_nat (length ta) + Z.of_nat (length tb)) with n by lia.
    now rewrite Z.eqb_refl. }
  split; [|split; [|split; [|split; [|split]]]].
  - unfold Append. rewrite !Count_batch, SetCount_batch by assumption.
    fold n. rewrite length_batch by exact Hb. unfold kHeader.
    destruct (Nat.leb_spec 12 (12 + length xb)); [|lia].
    f_equal. unfold batch. cbn [rep_]. f_equal.
    replace (sb ++ cb ++ xb) with ((sb ++ cb) ++ xb) by now rewrite app_assoc.
    rewrite drop_app_length'
      by (destruct Hb; rewrite length_app; lia).
    now rewrite <- !app_assoc.
  - exact Rab.
  - apply Iterate_replay. exact Rab.
  - rewrite Count_batch by exact Hab. exact En.
  - unfold batch. cbn [rep_]. destruct Ha as [Hs _].
    now rewrite !take_app_length' by lia.
  - rewrite !Sequence_batch by assumption.
    destruct Ha as [Hs Hc]. clear -Hs Hc.
    destruct sa as [|s0 [|s1 [|s2 [|s3 [|s4 [|s5 [|s6 [|s7 [|]]]]]]]]];
      try discriminate. reflexivity.
Qed.

(** *** Guard selection *)

(** The low [bits] bits of [hash] are all set. *)
Definition low_bits_set (hash bits : Z) : Prop :=
  forall k, 0 <= k < bits -> Z.testbit hash k = true.

(** The bit threshold of level [i]: 27 at level 0, two less a level. *)
Definition threshold (i : Z) : Z := top_level_bits - bit_decrement * i.

(** [L] is the first level, scanning from level 0, whose threshold the
    hash meets. *)
Definition shallowest (hash L : Z) : Prop :=
  0 <= L < kNumLevels /\ low_bits_set hash (threshold L) /\
  forall i, 0 <= i < L -> ~ low_bits_set hash (threshold i).

(** The test of the source: [(hash_result & bit_mask) == bit_mask]. *)
Definition mask_hit (hash num_bits : Z) : bool :=
  Z.land hash (Z.shiftl 1 num_bits - 1) =? Z.shiftl 1 num_bits - 1.

Fixpoint first_level (n : nat) (i hash : Z) : option Z :=
  match n with
  | O => None
  | S n' =>
      if mask_hit hash (threshold i) then Some i
      else first_level n' (i + 1) hash
  end.

(** The levels at which a key is made a fence: a function of the key. *)
Definition guard_levels (key : list byte) : list Z :=
  match first_level (Z.to_nat kNumLevels) 0
          (MurmurHash3_x86_32 key murmur_seed) with
  | Some L => seqZ L (kNumLevels - L)
  | None => []
  end.

(** The fence records one record of the source batch gives rise to. *)
Definition guards_of (o : op) : list op :=
  match o with
  | OpPut key _ => map (OpFence key) (guard_levels key)
  | _ => []
  end.

Definition no_fence (o : op) : Prop :=
  match o with OpFence _ _ => False | _ => True end.

Lemma mask_hit_spec hash bits :
  0 <= bits -> mask_hit hash bits = true <-> low_bits_set hash bits.
Proof.
  intros Hb. unfold mask_hit, low_bits_set.
  rewrite Z.shiftl_1_l, Z.sub_1_r, <- Z.ones_equiv, Z.eqb_eq.
  split.
  - intros E k Hk.
    apply (f_equal (fun z => Z.testbit z k)) in E.
    rewrite Z.land_spec, Z.ones_spec_low, andb_true_r in E by lia. exact E.
  - intros Hs. apply Z.bits_inj'. intros k Hk.
    rewrite Z.land_spec.
    destruct (Z.lt_ge_cases k bits).
    + rewrite Z.ones_spec_low, Hs by lia. reflexivity.
    + rewrite Z.ones_spec_high by lia. apply andb_false_r.
Qed.

Lemma first_level_Some n i hash L :
  first_level n i hash = Some L ->
  i <= L < i + Z.of_nat n /\ mask_hit hash (threshold L) = true /\
  forall i', i <= i' < L -> mask_hit hash (threshold i') = false.
Proof.
  revert i. induction n as [|n IH]; intros i; [discriminate|].
  cbn [first_level]. destruct (mask_hit hash (threshold i)) eqn:E.
  - intros [= <-]. repeat split; try lia. exact E.
  - intros F. destruct (IH _ F) as (R & Hh & Hm).
    split; [lia|]. split; [exact Hh|].
    intros i' Hi'. destruct (Z.eq_dec i' i) as [->|]; [exact E|].
    apply Hm. lia.
Qed.

Lemma first_level_None n i hash :
  first_level n i hash = None ->
  forall i', i <= i' < i + Z.of_nat n -> mask_hit hash (threshold i') = false.
Proof.
  revert i. induction n as [|n IH]; intros i; [intros _ i' Hi'; lia|].
  cbn [first_level]. destruct (mask_hit hash (threshold i)) eqn:E;
    [discriminate|].
  intros F i' Hi'. destruct (Z.eq_dec i' i) as [->|]; [exact E|].
  apply (IH _ F). lia.
Qed.

Lemma threshold_nonneg i : i <= 13 -> 0 <= threshold i.
Proof. unfold threshold, top_level_bits, bit_decrement. lia. Qed.

Lemma first_level_shallowest hash L :
  0 <= kNumLevels <= 14 -> shallowest hash L ->
  first_level (Z.to_nat kNumLevels) 0 hash = Some L.
Proof.
  intros HN (HL & Hset & Hmiss).
  apply mask_hit_spec in Hset; [|apply threshold_nonneg; lia].
  destruct (first_level (Z.to_nat kNumLevels) 0 hash) as [L'|] eqn:F.
  - apply first_level_Some in F as (R & Hh & Hm). f_equal.
    destruct (Z.lt_trichotomy L' L) as [Hlt|[->|Hgt]]; [|reflexivity|].
    + exfalso. apply (Hmiss L'); [lia|].
      apply mask_hit_spec; [apply threshold_nonneg; lia|exact Hh].
    + rewrite Hm in Hset by lia. discriminate.
  - rewrite (first_level_None _ _ _ F L) in Hset by lia. discriminate.
Qed.

Lemma first_level_no_guard hash :
  0 <= kNumLevels <= 14 ->
  (forall i, 0 <= i < kNumLevels -> ~ low_bits_set hash (threshold i)) ->
  first_level (Z.to_nat kNumLevels) 0 hash = None.
Proof.
  intros HN Hmiss.
  destruct (first_level (Z.to_nat kNumLevels) 0 hash) as [L|] eqn:F;
    [|reflexivity].
  apply first_level_Some in F as (R & Hh & _).
  exfalso. apply (Hmiss L); [lia|].
  apply mask_hit_spec; [apply threshold_nonneg; lia|exact Hh].
Qed.

Lemma apply_ops_app ops1 ops2 b :
  apply_ops (ops1 ++ ops2) b = apply_ops ops2 (apply_ops ops1 b).
Proof. apply fold_left_app. Qed.

Lemma insert_guards_spec n j key h :
  new_batch (insert_guards n j key h)
  = apply_ops (map (OpFence key) (seqZ j (Z.of_nat n))) (new_batch h) /\
  fi_sequence_ (insert_guards n j key h) = fi_sequence_ h.
Proof.
  revert j h. induction n as [|n IH]; intros j h.
  - split; reflexivity.
  - cbn [insert_guards]. destruct (IH (j + 1) (mkFenceInserter
      (PutFence key j (new_batch h)) (fi_sequence_ h)
      (alter (fun c => c + 1) (Z.to_nat j) (num_guards h)) (bit_mask h)))
      as [E1 E2].
    split; [|exact E2].
    rewrite E1. cbn [new_batch].
    rewrite (seqZ_cons j (Z.of_nat (S n))) by lia.
    replace (Z.pred (Z.of_nat (S n))) with (Z.of_nat n) by lia.
    reflexivity.
Qed.

Lemma check_levels_spec n i nb hash key h :
  0 <= i -> i + Z.of_nat n <= 14 -> (n <> O -> nb = threshold i) ->
  exists h',
    check_levels n i nb hash key h = Some h' /\
    fi_sequence_ h' = fi_sequence_ h /\
    new_batch h'
    = apply_ops
        (map (OpFence key)
           (match first_level n i hash with
            | Some L => seqZ L (i + Z.of_nat n - L)
            | None => []
            end))
        (new_batch h).
Proof.
  revert i nb h. induction n as [|n IH]; intros i nb h Hi Hn Hnb.
  - exists h. repeat split.
  - rewrite (Hnb ltac:(discriminate)). cbn [check_levels first_level].
    unfold set_mask.
    assert (Ht : 0 < threshold i < 32)
      by (unfold threshold, top_level_bits, bit_decrement; lia).
    destruct (Z.ltb_spec 0 (threshold i)); [|lia].
    destruct (Z.ltb_spec (threshold i) 32); [|lia].
    cbn [andb bit_mask]. fold (mask_hit hash (threshold i)).
    destruct (mask_hit hash (threshold i)).
    + eexists. split; [reflexivity|].
      destruct (insert_guards_spec (S n) i key
                  (mkFenceInserter (new_batch h) (fi_sequence_ h)
                     (num_guards h) (Z.shiftl 1 (threshold i) - 1)))
        as [E1 E2].
      split; [exact E2|]. rewrite E1. cbn [new_batch].
      replace (i + Z.of_nat (S n) - i) with (Z.of_nat (S n)) by lia.
      reflexivity.
    + destruct (IH (i + 1) ((threshold i - bit_decrement) mod 2 ^ 32)
                  (mkFenceInserter (new_batch h) (fi_sequence_ h)
                     (num_guards h) (Z.shiftl 1 (threshold i) - 1)))
        as (h' & C & S1 & B1); [lia|lia| |].
      * intros Hn0. assert (i + 1 <= 13) by (destruct n; [congruence|lia]).
        unfold threshold, top_level_bits, bit_decrement in *.
        rewrite Z.mod_small by lia. lia.
      * exists h'. split; [exact C|]. split; [exact S1|].
        rewrite B1. cbn [new_batch].
        replace (i + 1 + Z.of_nat n) with (i + Z.of_nat (S n)) by lia.
        reflexivity.
Qed.

Lemma FenceInserter_Put_spec key value h :
  0 <= kNumLevels <= 14 ->
  exists h',
    FenceInserter_Put key value h = Some h' /\
    new_batch h' = apply_ops (map (OpFence key) (guard_levels key)) (new_batch h).
Proof.
  intros HN. unfold FenceInserter_Put.
  destruct (check_levels_spec (Z.to_nat kNumLevels) 0 top_level_bits
              (MurmurHash3_x86_32 key murmur_seed) key h)
    as (h' & C & _ & B); [lia|lia|reflexivity|].
  cbv zeta. rewrite C. eexists. split; [reflexivity|].
  cbn [new_batch]. rewrite B. unfold guard_levels.
  rewrite Z2Nat.id by lia. reflexivity.
Qed.

(** Over a batch of puts and deletes the handler appends, record after
    record, the fences of each put. *)
Lemma dispatch_all_FenceInserter ops (h : FenceInserter) :
  0 <= kNumLevels <= 14 -> Forall no_fence ops ->
  exists h',
    dispatch_all ops h = Some h' /\
    new_batch h' = apply_ops (flat_map guards_of ops) (new_batch h).
Proof.
  intros HN V. revert h. unfold dispatch_all.
  induction V as [|o ops Ho Hops IH]; intros h.
  - exists h. split; reflexivity.
  - cbn [fold_left flat_map]. rewrite apply_ops_app.
    destruct o as [key value|key|key level]; [| |contradiction].
    + cbn [dispatch handler_Put FenceInserter_Handler].
      destruct (FenceInserter_Put_spec key value h HN) as (h1 & -> & B1).
      destruct (IH h1) as (h' & D & B). exists h'. split; [exact D|].
      rewrite B, B1. reflexivity.
    + cbn [dispatch handler_Delete FenceInserter_Handler].
      destruct (IH (mkFenceInserter (new_batch h) (incr64 (fi_sequence_ h))
                      (num_guards h) (bit_mask h))) as (h' & D & B).
      exists h'. split; [exact D|]. rewrite B. reflexivity.
Qed.

Lemma SetFences_ops ops dest :
  0 <= kNumLevels <= 14 -> Forall op_ok ops -> Forall no_fence ops ->
  Z.of_nat (length ops) < 2 ^ 31 ->
  exists h',
    SetFences (apply_ops ops new) dest = Returned OK h' /\
    new_batch h' = apply_ops (flat_map guards_of ops) dest.
Proof.
  intros HN V NF Hn. unfold SetFences.
  destruct (apply_ops_new ops V Hn) as [_ G]. rewrite G.
  destruct (dispatch_all_FenceInserter ops
              (mkFenceInserter dest (Sequence (apply_ops ops new))
                 (replicate (Z.to_nat kNumLevels) 0) 0) HN NF)
    as (h' & -> & B).
  exists h'. split; [reflexivity|exact B].
Qed.

Lemma In_guards_of key j ops :
  In (OpFence key j) (flat_map guards_of ops)
  <-> (exists value, In (OpPut key value) ops) /\ In j (guard_levels key).
Proof.
  rewrite in_flat_map. split.
  - intros (o & Ho & Hin). destruct o as [k v|k|k l]; simpl in Hin;
      try contradiction.
    apply in_map_iff in Hin as (j' & [= -> ->] & Hj). eauto.
  - intros [(value & Hv) Hj]. exists (OpPut key value). split; [exact Hv|].
    simpl. apply in_map_iff. eauto.
Qed.


Lemma guard_levels_range key j :
  0 <= kNumLevels <= 14 -> In j (guard_levels key) -> 0 <= j < kNumLevels.
Proof.
  intros HN. unfold guard_levels.
  destruct (first_level _ _ _) as [L|] eqn:F; [|contradiction].
  apply first_level_Some in F as (R & _).
  intros Hj. apply list_elem_of_In, elem_of_seqZ in Hj. lia.
Qed.

(** C4. One run of the guard selector over a batch holding a single
    [Put] of [key], with an empty destination batch, returns OK, and the
    destination then holds fence records for [key] only, read back by
    [Iterate] as one record a level.  If [L] is the first level, from level
    0 with threshold 27 going down by 2 a level, at which the low bits of the
    hash are all set, the levels are [L], [L+1], ... up to the last level,
    each once: one fence record at [L] and at every level above [L], none
    below.  If no level meets its threshold there is no record at all.
    ([kNumLevels] is at most 14, so that every threshold is positive.) *)
Theorem single_put_guards (key value : list byte) :
  Z.of_nat (length key) < 2 ^ 32 -> Z.of_nat (length value) < 2 ^ 32 ->
  0 <= kNumLevels <= 14 ->
  exists h' levels,
    SetFences (Put key value new) new = Returned OK h' /\
    new_batch h' = apply_ops (map (OpFence key) levels) new /\
    Iterate (new_batch h') (@nil op) = Returned OK (map (OpFence key) levels) /\
    NoDup levels /\
    (forall L, shallowest (MurmurHash3_x86_32 key murmur_seed) L ->
       levels = seqZ L (kNumLevels - L) /\
       forall j, In j levels <-> L <= j < kNumLevels) /\
    ((forall i, 0 <= i < kNumLevels ->
        ~ low_bits_set (MurmurHash3_x86_32 key murmur_seed) (threshold i)) ->
     levels = []).
Proof.
  intros Hk Hv HN.
  destruct (SetFences_ops [OpPut key value] new HN) as (h' & S & B).
  { repeat constructor; assumption. }
  { repeat constructor. }
  { simpl. lia. }
  cbn [flat_map guards_of] in B. rewrite app_nil_r in B.
  exists h', (guard_levels key).
  split; [exact S|]. split; [exact B|].
  assert (Hr : forall j, In j (guard_levels key) -> 0 <= j < kNumLevels)
    by (intros j; apply guard_levels_range; exact HN).
  split; [|split; [|split]].
  - rewrite B.
    destruct (apply_ops_new (map (OpFence key) (guard_levels key)))
      as [_ G].
    + apply List.Forall_forall. intros o Ho.
      apply in_map_iff in Ho as (j & <- & _). exact Hk.
    + rewrite length_map. unfold guard_levels.
      destruct (first_level _ _ _) as [L|] eqn:F; [|simpl; lia].
      apply first_level_Some in F as (R & _).
      rewrite length_seqZ. lia.
    + rewrite G, dispatch_all_Recorder, app_nil_l, map_map.
      f_equal. apply map_ext_in. intros j Hj. simpl.
      rewrite Z.mod_small by (specialize (Hr j Hj); lia). reflexivity.
  - unfold guard_levels. destruct (first_level _ _ _);
      [apply NoDup_seqZ|constructor].
  - intros L HL. unfold guard_levels.
    rewrite (first_level_shallowest _ _ HN HL).
    split; [reflexivity|].
    intros j. rewrite <- list_elem_of_In, elem_of_seqZ.
    destruct HL as (HL & _). lia.
  - intros Hmiss. unfold guard_levels.
    now rewrite (first_level_no_guard _ HN Hmiss).
Qed.

(** C5. Two runs of the guard selector over any two batches of puts and
    deletes that both put [key], each into an empty destination batch, return
    OK, and the destination of each holds a fence for [key] at exactly the
    levels [guard_levels key], a list computed from the bytes of [key]
    alone (the hash with seed 42), whose first element is the shallowest
    level: the other records of the batch and their order have no part in
    it. *)
Theorem guard_levels_deterministic (key : list byte) (ops1 ops2 : list op) :
  0 <= kNumLevels <= 14 ->
  Forall op_ok ops1 -> Forall no_fence ops1 ->
  Z.of_nat (length ops1) < 2 ^ 31 ->
  Forall op_ok ops2 -> Forall no_fence ops2 ->
  Z.of_nat (length ops2) < 2 ^ 31 ->
  (exists value, In (OpPut key value) ops1) ->
  (exists value, In (OpPut key value) ops2) ->
  exists h1 h2 out1 out2,
    SetFences (apply_ops ops1 new) new = Returned OK h1 /\
    new_batch h1 = apply_ops out1 new /\
    SetFences (apply_ops ops2 new) new = Returned OK h2 /\
    new_batch h2 = apply_ops out2 new /\
    forall j,
      (In (OpFence key j) out1 <-> In j (guard_levels key)) /\
      (In (OpFence key j) out2 <-> In j (guard_levels key)).
Proof.
  intros HN V1 N1 L1 V2 N2 L2 P1 P2.
  destruct (SetFences_ops ops1 new HN V1 N1 L1) as (h1 & S1 & B1).
  destruct (SetFences_ops ops2 new HN V2 N2 L2) as (h2 & S2 & B2).
  exists h1, h2, (flat_map guards_of ops1), (flat_map guards_of ops2).
  repeat (split; [assumption|]).
  intros j. rewrite !In_guards_of.
  split; (split; [intros [_ Hj]; exact Hj|intros Hj; split; assumption]).
Qed.

(** *** Batches that [Iterate] refuses *)

(** The records of [ops], then whatever follows them. *)
Lemma IterateLoop_ops_then {H : Type} `{Handler H} count ops tail fuel found
  (h : H) :
  Forall op_ok ops -> (length (flat_map enc_op ops ++ tail) < fuel)%nat ->
  IterateLoop count fuel (flat_map enc_op ops ++ tail) found h
  = match dispatch_all ops h with
    | Some h' =>
        IterateLoop count (S (length tail)) tail
          (found + Z.of_nat (length ops)) h'
    | None => Aborted
    end.
Proof.
  intros V. revert fuel found h.
  induction V as [|o ops Ho Hops IH]; intros fuel found h Hf.
  - cbn [flat_map app dispatch_all fold_left length]. rewrite Z.add_0_r.
    apply IterateLoop_fuel; [exact Hf|lia].
  - destruct fuel; [cbn in Hf; lia|].
    cbn [flat_map]. rewrite <- app_assoc, IterateLoop_op by exact Ho.
    unfold dispatch_all. cbn [fold_left].
    destruct (dispatch (Some h) o) as [h'|] eqn:D.
    + rewrite IH.
      * unfold dispatch_all. cbn [length].
        replace (found + 1 + Z.of_nat (length ops))
          with (found + Z.of_nat (S (length ops))) by lia.
        reflexivity.
      * cbn [flat_map] in Hf. rewrite <- app_assoc, length_app in Hf.
        pose proof (enc_op_nonempty o). lia.
    + now rewrite dispatch_None.
Qed.

(** The batch built by [ops], as header and records. *)
Lemma apply_ops_new_view ops :
  Forall op_ok ops -> Z.of_nat (length ops) < 2 ^ 31 ->
  exists c,
    length c = 4%nat /\
    to_int (DecodeFixed32 c) = Z.of_nat (length ops) /\
    apply_ops ops new = batch (replicate 8 x00) c (flat_map enc_op ops).
Proof.
  intros V Hn.
  assert (H0 : header_ok (replicate 8 x00) (replicate 4 x00))
    by (split; reflexivity).
  destruct (apply_ops_batch ops _ _ [] H0) as (c' & Hh & Hc & E);
    [vm_compute; congruence|change (to_int _) with 0; lia|].
  change (to_int (DecodeFixed32 (replicate 4 x00))) with 0 in Hc.
  rewrite <- new_batch_view in E. rewrite app_nil_l in E.
  exists c'. split; [apply Hh|]. split; [lia|exact E].
Qed.

Lemma to_int_mod n : - 2 ^ 31 <= n < 2 ^ 31 -> to_int (n mod 2 ^ 32) = n.
Proof.
  clear.
  intros Hn. unfold to_int.
  destruct (Z.lt_ge_cases n 0) as [Hneg|Hpos].
  - replace (n mod 2 ^ 32) with (n + 2 ^ 32)
      by (apply Z.mod_unique with (q := -1); lia).
    destruct (Z.ltb_spec (n + 2 ^ 32) (2 ^ 31)); lia.
  - rewrite Z.mod_small by lia.
    destruct (Z.ltb_spec n (2 ^ 31)); lia.
Qed.

(** When the count in the header is not the number of records, [Iterate]
    still makes every handler call, in order, and only then returns the
    corruption "WriteBatch has wrong count": the calls are not undone. *)
Theorem Iterate_wrong_count (ops : list op) (n : Z) :
  Forall op_ok ops -> Z.of_nat (length ops) < 2 ^ 31 ->
  - 2 ^ 31 <= n < 2 ^ 31 -> n <> Z.of_nat (length ops) ->
  Count (SetCount (apply_ops ops new) n) = n /\
  forall (H : Type) (HH : Handler H) (h : H),
    Iterate (SetCount (apply_ops ops new) n) h
    = match dispatch_all ops h with
      | Some h' => Returned (Corruption "WriteBatch has wrong count" "") h'
      | None => Aborted
      end.
Proof.
  intros V Hn Hi Hne.
  destruct (apply_ops_new_view ops V Hn) as (c & Hc & _ & ->).
  assert (H0 : header_ok (replicate 8 x00) c) by (split; [reflexivity|exact Hc]).
  assert (H1 : header_ok (replicate 8 x00) (EncodeFixed32 n))
    by (split; reflexivity).
  rewrite SetCount_batch by exact H0.
  assert (En : to_int (DecodeFixed32 (EncodeFixed32 n)) = n).
  { rewrite <- (app_nil_r (EncodeFixed32 n)), DecodeFixed32_Encode.
    now apply to_int_mod. }
  split.
  - rewrite Count_batch by exact H1. exact En.
  - intros H HH h. rewrite Iterate_batch by exact H1.
    rewrite IterateLoop_ops by (auto; lia). rewrite En, Z.add_0_l.
    destruct (dispatch_all ops h); [|reflexivity].
    destruct (Z.eqb_spec (Z.of_nat (length ops)) n); [congruence|reflexivity].
Qed.

(** The message for a record of each kind that is cut short. *)
Definition truncated_msg (o : op) : string :=
  match o with
  | OpPut _ _ => "bad WriteBatch Put"
  | OpDelete _ => "bad WriteBatch Delete"
  | OpFence _ _ => "unknown WriteBatch tag"
  end.

Lemma IterateLoop_truncated {H : Type} `{Handler H} count fuel o q r found
  (h : H) :
  op_ok o -> enc_op o = q ++ r -> q <> [] -> r <> [] ->
  IterateLoop count (S fuel) q found h
  = Returned (Corruption (truncated_msg o) "") h.
Proof.
  destruct tags_range as (Rd & Rv & Rf).
  destruct tags_distinct as (Dvd & Dfv & Dfd).
  intros Ho E Hq Hr.
  destruct q as [|c q]; [contradiction|]. clear Hq.
  destruct o as [key value|key|key level];
    cbn [enc_op op_ok truncated_msg app] in *;
    injection E as <- E; cbn [IterateLoop];
    rewrite char_to_int_tag by assumption.
  - rewrite Z.eqb_refl. destruct Ho as [Hk Hv]. symmetry in E.
    apply cut_app in E as [(r' & E & Hr')|(q' & -> & E)].
    + now rewrite (GetLengthPrefixedSlice_truncated key q r' Hk E Hr').
    + rewrite GetLengthPrefixedSlice_Put by exact Hk.
      now rewrite (GetLengthPrefixedSlice_truncated value q' r Hv E Hr).
  - destruct (Z.eqb_spec kTypeDeletion kTypeValue); [congruence|].
    rewrite Z.eqb_refl.
    now rewrite (GetLengthPrefixedSlice_truncated key q r Ho E Hr).
  - destruct (Z.eqb_spec kTypeFence kTypeValue); [congruence|].
    destruct (Z.eqb_spec kTypeFence kTypeDeletion); [congruence|].
    rewrite Z.eqb_refl. symmetry in E.
    apply cut_app in E as [(r' & E & Hr')|(q' & -> & E)].
    + now rewrite (GetLengthPrefixedSlice_truncated key q r' Ho E Hr').
    + rewrite GetLengthPrefixedSlice_Put by exact Ho.
      now rewrite (GetVarint32_truncated level q' r E Hr).
Qed.

Lemma Iterate_rep_app {H : Type} `{Handler H} ops tail (h : H) :
  Forall op_ok ops -> Z.of_nat (length ops) < 2 ^ 31 ->
  Iterate (mk (rep_ (apply_ops ops new) ++ tail)) h
  = match dispatch_all ops h with
    | Some h' =>
        IterateLoop (Z.of_nat (length ops)) (S (length tail)) tail
          (Z.of_nat (length ops)) h'
    | None => Aborted
    end.
Proof.
  intros V Hn.
  destruct (apply_ops_new_view ops V Hn) as (c & Hc & Ec & ->).
  assert (Hh : header_ok (replicate 8 x00) c) by (split; [reflexivity|exact Hc]).
  replace (mk (rep_ (batch (replicate 8 x00) c (flat_map enc_op ops)) ++ tail))
    with (batch (replicate 8 x00) c (flat_map enc_op ops ++ tail))
    by (unfold batch; cbn [rep_]; now rewrite <- !app_assoc).
  rewrite Iterate_batch by exact Hh.
  rewrite IterateLoop_ops_then by (auto; lia).
  now rewrite Ec, Z.add_0_l.
Qed.

(** Bytes after the records of a batch.  If they start with a byte that is
    none of the three record tags, [Iterate] returns the corruption "unknown
    WriteBatch tag"; if they are the beginning of a record that is cut
    short, it returns "bad WriteBatch Put" for a put, "bad WriteBatch
    Delete" for a deletion and "unknown WriteBatch tag" for a fence.  Either
    way the handler has received the whole records before them. *)
Theorem Iterate_bad_record
  (ops : list op) (c : byte) (rest : list byte) (o : op) (q r : list byte) :
  Forall op_ok ops -> Z.of_nat (length ops) < 2 ^ 31 ->
  char_to_int c <> kTypeValue -> char_to_int c <> kTypeDeletion ->
  char_to_int c <> kTypeFence ->
  op_ok o -> enc_op o = q ++ r -> q <> [] -> r <> [] ->
  forall (H : Type) (HH : Handler H) (h : H),
    Iterate (mk (rep_ (apply_ops ops new) ++ c :: rest)) h
    = match dispatch_all ops h with
      | Some h' => Returned (Corruption "unknown WriteBatch tag" "") h'
      | None => Aborted
      end /\
    Iterate (mk (rep_ (apply_ops ops new) ++ q)) h
    = match dispatch_all ops h with
      | Some h' => Returned (Corruption (truncated_msg o) "") h'
      | None => Aborted
      end.
Proof.
  intros V Hn Nv Nd Nf Ho E Hq Hr H HH h.
  rewrite !Iterate_rep_app by assumption.
  destruct (dispatch_all ops h) as [h'|]; [|split; reflexivity].
  split.
  - cbn [IterateLoop].
    destruct (Z.eqb_spec (char_to_int c) kTypeValue); [contradiction|].
    destruct (Z.eqb_spec (char_to_int c) kTypeDeletion); [contradiction|].
    destruct (Z.eqb_spec (char_to_int c) kTypeFence); [contradiction|].
    reflexivity.
  - now apply (IterateLoop_truncated _ _ o q r).
Qed.

(** A proper prefix of the records ends inside (or just before) one of
    them. *)
Lemma prefix_of_records ops p r :
  flat_map enc_op ops = p ++ r -> r <> [] ->
  exists k o q r',
    ops !! k = Some o /\ p = flat_map enc_op (take k ops) ++ q /\
    enc_op o = q ++ r' /\ r' <> [].
Proof.
  revert p. induction ops as [|o ops IH]; intros p E Hr.
  - cbn in E. symmetry in E. apply app_eq_nil in E as [_ ->]. contradiction.
  - cbn [flat_map] in E. symmetry in E.
    apply cut_app in E as [(r' & E & Hr')|(q' & -> & E)].
    + exists 0%nat, o, p, r'. repeat split; assumption.
    + destruct (IH q' E Hr) as (k & o' & q & r' & Hk & -> & Eo & Hr').
      exists (S k), o', q, r'. cbn [take flat_map].
      rewrite <- app_assoc. repeat split; assumption.
Qed.

Lemma Forall_take_ok k ops : Forall op_ok ops -> Forall op_ok (take k ops).
Proof.
  intros V. rewrite <- (take_drop k ops) in V.
  apply Forall_app in V. apply V.
Qed.

(** A batch built by [Put], [Delete] and [PutFence] and then cut short
    anywhere is refused by [Iterate], after the handler has received the
    records that are whole: as too small when the cut is inside the header;
    with the message of the record when the cut is inside a record; and,
    thanks to the count in the header, as having the wrong count when the
    cut falls between two records. *)
Theorem Iterate_prefix_rejected (ops : list op) (p r : list byte) :
  Forall op_ok ops -> Z.of_nat (length ops) < 2 ^ 31 ->
  rep_ (apply_ops ops new) = p ++ r -> r <> [] ->
  (exists msg k,
     Iterate (mk p) (@nil op)
     = Returned (Corruption msg "") (map as_record (take k ops))) /\
  ((length p < kHeader)%nat ->
   Iterate (mk p) (@nil op)
   = Returned (Corruption "malformed WriteBatch (too small)" "") []) /\
  (forall j,
     p = take (kHeader + length (flat_map enc_op (take j ops)))
           (rep_ (apply_ops ops new)) ->
     Iterate (mk p) (@nil op)
     = Returned (Corruption "WriteBatch has wrong count" "")
         (map as_record (take j ops))).
Proof.
  intros V Hn E Hr.
  destruct (apply_ops_new_view ops V Hn) as (c & Hc & Ec & Eb).
  assert (Hh : header_ok (replicate 8 x00) c) by (split; [reflexivity|exact Hc]).
  assert (Short : (length p < kHeader)%nat ->
            Iterate (mk p) (@nil op)
            = Returned (Corruption "malformed WriteBatch (too small)" "") []).
  { intros Hp. unfold Iterate. cbn [rep_].
    destruct (Nat.ltb_spec (length p) kHeader); [reflexivity|lia]. }
  assert (Whole : forall k tail,
            Iterate (batch (replicate 8 x00) c
                       (flat_map enc_op (take k ops) ++ tail)) (@nil op)
            = IterateLoop (Z.of_nat (length ops)) (S (length tail)) tail
                (Z.of_nat (length (take k ops))) (map as_record (take k ops))).
  { intros k tail. rewrite Iterate_batch by exact Hh.
    rewrite IterateLoop_ops_then by (auto using Forall_take_ok; lia).
    now rewrite dispatch_all_Recorder, Ec, Z.add_0_l, app_nil_l. }
  rewrite Eb in E |- *. unfold batch in E |- *. cbn [rep_] in E |- *.
  split; [|split; [exact Short|]].
  - destruct (Nat.lt_ge_cases (length p) kHeader) as [Hp|Hp].
    { exists "malformed WriteBatch (too small)"%string, 0%nat.
      rewrite take_0. now apply Short. }
    unfold kHeader in Hp.
    set (hdr := replicate 8 x00 ++ c).
    assert (Lh : length hdr = 12%nat)
      by (unfold hdr; rewrite length_app, Hc; reflexivity).
    rewrite app_assoc in E. fold hdr in E.
    assert (Ep : p = hdr ++ take (length p - 12) (flat_map enc_op ops)).
    { transitivity (take (length p) (p ++ r));
        [symmetry; apply take_app_length|].
      rewrite <- E, take_app_ge by lia. now rewrite Lh. }
    assert (Er : r = drop (length p - 12) (flat_map enc_op ops)).
    { transitivity (drop (length p) (p ++ r));
        [symmetry; apply drop_app_length|].
      rewrite <- E, drop_app_ge by lia. now rewrite Lh. }
    destruct (prefix_of_records ops (take (length p - 12) (flat_map enc_op ops)) r)
      as (k & o & q & r' & Hk & Eq & Eo & Hr'); [|exact Hr|].
    { rewrite Er. symmetry. apply take_drop. }
    assert (Vo : op_ok o).
    { rewrite List.Forall_forall in V. apply V.
      apply list_elem_of_In. eapply list_elem_of_lookup_2; eauto. }
    assert (Em : mk p = batch (replicate 8 x00) c
                          (flat_map enc_op (take k ops) ++ q)).
    { unfold batch. f_equal. rewrite Ep, Eq. unfold hdr.
      now rewrite <- !app_assoc. }
    rewrite Em, Whole.
    destruct q as [|b q].
    + exists "WriteBatch has wrong count"%string, k. cbn [IterateLoop].
      apply lookup_lt_Some in Hk.
      rewrite length_take, Nat.min_l by lia.
      destruct (Z.eqb_spec (Z.of_nat k) (Z.of_nat (length ops))); [lia|].
      reflexivity.
    + exists (truncated_msg o), k.
      apply (IterateLoop_truncated _ _ o (b :: q) r'); auto.
  - intros j Ej.
    assert (Lj : (j < length ops)%nat).
    { destruct (Nat.lt_ge_cases j (length ops)) as [H|H]; [exact H|].
      exfalso. rewrite (take_ge ops j) in Ej by lia.
      rewrite take_ge in Ej
        by (rewrite !length_app, Hc, length_replicate; unfold kHeader; lia).
      rewrite Ej in E. apply Hr.
      apply (f_equal (@length byte)) in E. rewrite !length_app in E.
      destruct r; [reflexivity|cbn in E; lia]. }
    assert (Em : mk p = batch (replicate 8 x00) c
                          (flat_map enc_op (take j ops) ++ [])).
    { unfold batch. f_equal. rewrite Ej, app_nil_r.
      rewrite <- (take_drop j ops) at 2. rewrite flat_map_app.
      rewrite !app_assoc.
      rewrite take_app_length'; [reflexivity|].
      rewrite !length_app, Hc, length_replicate. unfold kHeader. lia. }
    rewrite Em, Whole. cbn [IterateLoop].
    rewrite length_take, Nat.min_l by lia.
    destruct (Z.eqb_spec (Z.of_nat j) (Z.of_nat (length ops))); [lia|].
    reflexivity.
Qed.

(** *** InsertInto *)

(** What [MemTableInserter] does to the table for one record that bears
    the sequence number [seq]: a fence record adds nothing. *)
Definition table_add (seq : Z) (o : op) (mem : MemTable) : MemTable :=
  match o with
  | OpPut key value => MemTable_Add seq kTypeValue key value mem
  | OpDelete key => MemTable_Add seq kTypeDeletion key [] mem
  | OpFence _ _ => mem
  end.

(** The records in order, the one at position [i] bearing the number
    [s + i] (a 64-bit unsigned number). *)
Definition table_add_from (s i : Z) (ops : list op) (mem : MemTable)
  : MemTable :=
  fold_left (fun m p => table_add ((s + fst p) mod 2 ^ 64) (snd p) m)
    (combine (seqZ i (Z.of_nat (length ops))) ops) mem.

(** The level of a fence record, as the [unsigned] the handler receives,
    passes the assertion of [HandleFence]. *)
Definition fence_level_ok (o : op) : Prop :=
  match o with
  | OpFence _ level => level mod 2 ^ 32 < kNumLevels
  | _ => True
  end.

Lemma dispatch_all_MemTableInserter ops s i mem :
  Forall fence_level_ok ops ->
  dispatch_all ops (mkMemTableInserter ((s + i) mod 2 ^ 64) mem)
  = Some (mkMemTableInserter ((s + i + Z.of_nat (length ops)) mod 2 ^ 64)
            (table_add_from s i ops mem)).
Proof.
  intros V. revert i mem. unfold dispatch_all, table_add_from.
  induction V as [|o ops Ho Hops IH]; intros i mem.
  - cbn. now rewrite Z.add_0_r.
  - cbn [length]. rewrite (seqZ_cons i (Z.of_nat (S (length ops)))) by lia.
    replace (Z.pred (Z.of_nat (S (length ops)))) with (Z.of_nat (length ops))
      by lia.
    cbn [combine fold_left fst snd].
    assert (En : incr64 ((s + i) mod 2 ^ 64) = (s + Z.succ i) mod 2 ^ 64).
    { unfold incr64. rewrite Z.add_mod_idemp_l by lia. f_equal. lia. }
    replace (s + i + Z.of_nat (S (length ops)))
      with (s + Z.succ i + Z.of_nat (length ops)) by lia.
    destruct o as [key value|key|key level];
      cbn [dispatch handler_Put handler_Delete handler_HandleFence
           MemTableInserter_Handler mi_sequence_ mi_mem_ table_add].
    + rewrite En. apply IH.
    + rewrite En. apply IH.
    + cbn [fence_level_ok] in Ho.
      destruct (Z.ltb_spec (level mod 2 ^ 32) kNumLevels); [|lia].
      rewrite En. apply IH.
Qed.

(** The batch built by [ops] after the sequence number was set. *)
Lemma apply_ops_seq_view ops s :
  Forall op_ok ops -> Z.of_nat (length ops) < 2 ^ 31 ->
  exists c,
    length c = 4%nat /\
    to_int (DecodeFixed32 c) = Z.of_nat (length ops) /\
    apply_ops ops (SetSequence new s)
    = batch (EncodeFixed64 s) c (flat_map enc_op ops).
Proof.
  intros V Hn.
  assert (H0 : header_ok (replicate 8 x00) (replicate 4 x00))
    by (split; reflexivity).
  assert (H1 : header_ok (EncodeFixed64 s) (replicate 4 x00))
    by (split; reflexivity).
  rewrite new_batch_view, SetSequence_batch by exact H0.
  destruct (apply_ops_batch ops _ _ [] H1) as (c' & Hh & Hc & E);
    [vm_compute; congruence|change (to_int _) with 0; lia|].
  change (to_int (DecodeFixed32 (replicate 4 x00))) with 0 in Hc.
  rewrite app_nil_l in E.
  exists c'. split; [apply Hh|]. split; [lia|exact E].
Qed.

Lemma Sequence_view s c body :
  0 <= s < 2 ^ 64 -> Sequence (batch (EncodeFixed64 s) c body) = s.
Proof.
  clear.
  intros Hs. unfold Sequence, batch. cbn [rep_].
  rewrite DecodeFixed64_Encode. now apply Z.mod_small.
Qed.

(** [InsertInto] gives the records of a batch consecutive sequence
    numbers, starting from the number in the header and in the order of the
    records: the record at position [i] goes into the table under
    [s + i] (modulo 2^64).  A fence record adds nothing to the table but
    uses up a number.  The inserter ends at [s] plus the number of
    records. *)
Theorem InsertInto_sequence_numbers
  (ops : list op) (s : Z) (memtable : MemTable) :
  Forall op_ok ops -> Forall fence_level_ok ops ->
  Z.of_nat (length ops) < 2 ^ 31 -> 0 <= s < 2 ^ 64 ->
  InsertInto (apply_ops ops (SetSequence new s)) memtable
  = Returned OK
      (mkMemTableInserter ((s + Z.of_nat (length ops)) mod 2 ^ 64)
         (table_add_from s 0 ops memtable)).
Proof.
  intros V F Hn Hs.
  destruct (apply_ops_seq_view ops s V Hn) as (c & Hc & Ec & ->).
  assert (Hh : header_ok (EncodeFixed64 s) c) by (split; [reflexivity|exact Hc]).
  unfold InsertInto. rewrite Sequence_view by exact Hs.
  rewrite Iterate_batch by exact Hh.
  rewrite IterateLoop_ops by (auto; lia).
  replace s with ((s + 0) mod 2 ^ 64) at 1
    by (rewrite Z.add_0_r; now apply Z.mod_small).
  rewrite dispatch_all_MemTableInserter by exact F.
  rewrite Ec, Z.add_0_l, Z.eqb_refl, Z.add_0_r. reflexivity.
Qed.



(** *** SetFences, and what becomes of its output *)

Lemma guard_levels_length key :
  0 <= kNumLevels <= 14 ->
  Z.of_nat (length (guard_levels key)) <= kNumLevels.
Proof.
  intros HN. unfold guard_levels.
  destruct (first_level _ _ _) as [L|] eqn:F; [|cbn; lia].
  apply first_level_Some in F as (R & _). rewrite length_seqZ. lia.
Qed.

Lemma guards_length ops :
  0 <= kNumLevels <= 14 ->
  Z.of_nat (length (flat_map guards_of ops))
  <= kNumLevels * Z.of_nat (length ops).
Proof.
  intros HN. induction ops as [|o ops IH]; [cbn; lia|].
  cbn [flat_map length]. rewrite length_app.
  assert (Z.of_nat (length (guards_of o)) <= kNumLevels).
  { destruct o; cbn [guards_of length]; try lia.
    rewrite length_map. now apply guard_levels_length. }
  lia.
Qed.

Lemma guards_ok ops :
  0 <= kNumLevels <= 14 -> Forall op_ok ops ->
  Forall op_ok (flat_map guards_of ops) /\
  Forall fence_level_ok (flat_map guards_of ops) /\
  map as_record (flat_map guards_of ops) = flat_map guards_of ops.
Proof.
  intros HN V. induction V as [|o ops Ho Hops (IH1 & IH2 & IH3)].
  - repeat split; constructor.
  - cbn [flat_map]. rewrite map_app, IH3.
    assert (G : Forall op_ok (guards_of o) /\
                Forall fence_level_ok (guards_of o) /\
                map as_record (guards_of o) = guards_of o).
    { destruct o as [key value|key|key level]; cbn [guards_of];
        try (repeat split; constructor).
      destruct Ho as [Hk _].
      assert (R : forall j, In j (guard_levels key) -> 0 <= j < kNumLevels)
        by (intros j; now apply guard_levels_range).
      revert R. induction (guard_levels key) as [|j l IHl]; intros R.
      - repeat split; constructor.
      - destruct IHl as (I1 & I2 & I3); [intros j' Hj'; apply R; now right|].
        pose proof (R j (or_introl eq_refl)) as Rj.
        cbn [map]. rewrite I3. repeat split.
        + constructor; [exact Hk|exact I1].
        + constructor; [|exact I2]. cbn. rewrite Z.mod_small by lia. lia.
        + cbn [as_record]. now rewrite Z.mod_small by lia. }
    destruct G as (G1 & G2 & G3). rewrite G3.
    repeat split; try apply Forall_app; auto.
Qed.

(** [SetFences] reads a batch of puts and deletes and appends to the
    destination batch, after the records it already holds, the fence
    records of each put: put by put in the order of the batch, and for each
    put level by level from its first guard level up to the last level.  A
    deletion gives no fence record.  The count of the destination is raised
    by the number of records appended. *)
Theorem SetFences_appends_guards (ops dops : list op) :
  0 <= kNumLevels <= 14 ->
  Forall op_ok ops -> Forall no_fence ops -> Z.of_nat (length ops) < 2 ^ 31 ->
  Forall op_ok dops ->
  Z.of_nat (length dops) + kNumLevels * Z.of_nat (length ops) < 2 ^ 31 ->
  exists h',
    SetFences (apply_ops ops new) (apply_ops dops new) = Returned OK h' /\
    Iterate (new_batch h') (@nil op)
    = Returned OK (map as_record dops ++ flat_map guards_of ops) /\
    Count (new_batch h')
    = Z.of_nat (length dops) + Z.of_nat (length (flat_map guards_of ops)) /\
    (forall key value,
       guards_of (OpPut key value) = map (OpFence key) (guard_levels key)) /\
    (forall key, guards_of (OpDelete key) = []).
Proof.
  intros HN V NF Hn Vd Hd.
  destruct (SetFences_ops ops (apply_ops dops new) HN V NF Hn) as (h' & S & B).
  exists h'. split; [exact S|].
  destruct (guards_ok ops HN V) as (G1 & G2 & G3).
  pose proof (guards_length ops HN) as GL.
  rewrite B, <- apply_ops_app.
  destruct (apply_ops_new (dops ++ flat_map guards_of ops)) as [C G].
  { apply Forall_app. split; assumption. }
  { rewrite length_app. lia. }
  split; [|split; [|split; reflexivity]].
  - rewrite G, dispatch_all_Recorder, app_nil_l, map_app, G3. reflexivity.
  - rewrite C, length_app. lia.
Qed.

Lemma table_add_from_fences s i ops mem :
  Forall (fun o => match o with OpFence _ _ => True | _ => False end) ops ->
  table_add_from s i ops mem = mem.
Proof.
  unfold table_add_from. intros F. revert i.
  induction F as [|o ops Ho Hops IH]; intros i; [reflexivity|].
  cbn [length]. rewrite (seqZ_cons i (Z.of_nat (S (length ops)))) by lia.
  replace (Z.pred (Z.of_nat (S (length ops)))) with (Z.of_nat (length ops))
    by lia.
  cbn [combine fold_left fst snd].
  destruct o; try contradiction. cbn [table_add]. apply IH.
Qed.

(** The fence batch that [SetFences] fills from a batch of puts and deletes
    can always be given to [InsertInto]: every level in it is below
    [kNumLevels], so no assertion fails and OK is returned.  Nothing is
    added to the table; the inserter only counts the records. *)
Theorem SetFences_then_InsertInto (ops : list op) (memtable : MemTable) :
  0 <= kNumLevels <= 14 ->
  Forall op_ok ops -> Forall no_fence ops ->
  kNumLevels * Z.of_nat (length ops) < 2 ^ 31 ->
  Z.of_nat (length ops) < 2 ^ 31 ->
  exists h',
    SetFences (apply_ops ops new) new = Returned OK h' /\
    InsertInto (new_batch h') memtable
    = Returned OK (mkMemTableInserter (Count (new_batch h')) memtable).
Proof.
  intros HN V NF Hg Hn.
  destruct (SetFences_ops ops new HN V NF Hn) as (h' & S & B).
  exists h'. split; [exact S|].
  destruct (guards_ok ops HN V) as (G1 & G2 & G3).
  pose proof (guards_length ops HN) as GL.
  destruct (apply_ops_new (flat_map guards_of ops) G1) as [C G]; [lia|].
  rewrite B, C. unfold InsertInto. rewrite G.
  assert (Es : Sequence (apply_ops (flat_map guards_of ops) new) = 0).
  { destruct (apply_ops_new_view (flat_map guards_of ops) G1) as (c & _ & _ & ->);
      [lia|].
    reflexivity. }
  rewrite Es.
  change 0 with ((0 + 0) mod 2 ^ 64) at 1.
  rewrite dispatch_all_MemTableInserter by exact G2.
  rewrite table_add_from_fences.
  - rewrite !Z.add_0_l, Z.mod_small by lia. reflexivity.
  - clear. induction ops as [|o ops IH]; [constructor|].
    cbn [flat_map]. apply Forall_app. split; [|exact IH].
    destruct o; cbn [guards_of]; try constructor.
    induction (guard_levels key); constructor; auto.
Qed.

(** *** The header and the records *)

(** The view of a batch as header and records needs nothing of the
    configuration. *)
Lemma batch_hdr (b : t) :
  (kHeader <= length (rep_ b))%nat ->
  exists s c body, header_ok s c /\ b = batch s c body.
Proof.
  clear. intros Hl. destruct b as [rep]. cbn [rep_] in Hl. unfold kHeader in Hl.
  exists (take 8 rep), (take 4 (drop 8 rep)), (drop 12 rep).
  split.
  - split; rewrite ?length_take, ?length_drop; lia.
  - unfold batch. f_equal.
    rewrite <- (take_drop 8 rep) at 1. f_equal.
    rewrite <- (take_drop 4 (drop 8 rep)) at 1. f_equal.
    now rewrite drop_drop.
Qed.

Lemma Count_hdr s c body :
  header_ok s c -> Count (batch s c body) = to_int (DecodeFixed32 c).
Proof.
  clear. intros [Hs Hc]. unfold Count, batch. cbn [rep_].
  rewrite drop_app_length' by (symmetry; exact Hs).
  now rewrite DecodeFixed32_head.
Qed.

Lemma SetCount_hdr s c body n :
  header_ok s c -> SetCount (batch s c body) n = batch s (EncodeFixed32 n) body.
Proof.
  clear. intros [Hs Hc]. unfold SetCount, batch. cbn [rep_]. f_equal.
  rewrite take_app_length' by (symmetry; exact Hs).
  replace (s ++ c ++ body) with ((s ++ c) ++ body) by now rewrite app_assoc.
  rewrite drop_app_length' by (rewrite length_app, Hs, Hc; reflexivity).
  reflexivity.
Qed.

Lemma SetSequence_hdr s c body seq :
  header_ok s c ->
  SetSequence (batch s c body) seq = batch (EncodeFixed64 seq) c body.
Proof.
  clear. intros [Hs Hc]. unfold SetSequence, batch. cbn [rep_].
  now rewrite drop_app_length' by (symmetry; exact Hs).
Qed.

Lemma length_hdr s c body :
  header_ok s c -> length (rep_ (batch s c body)) = (12 + length body)%nat.
Proof.
  clear. intros [Hs Hc]. unfold batch. cbn [rep_].
  rewrite !length_app, Hs, Hc. reflexivity.
Qed.

Lemma drop_hdr s c body :
  header_ok s c -> drop kHeader (rep_ (batch s c body)) = body.
Proof.
  clear. intros [Hs Hc]. unfold batch, kHeader. cbn [rep_].
  rewrite app_assoc. apply drop_app_length'.
  rewrite length_app, Hs, Hc. reflexivity.
Qed.

Lemma apply_op_hdr s c body o :
  header_ok s c ->
  apply_op (batch s c body) o
  = batch s (EncodeFixed32 (to_int (DecodeFixed32 c) + 1)) (body ++ enc_op o).
Proof.
  clear. intros Hh. destruct o; cbn [apply_op]; unfold Put, Delete, PutFence;
    cbv zeta; rewrite Count_hdr, SetCount_hdr by exact Hh;
    unfold batch; cbn [rep_ enc_op];
    rewrite ?(PutLengthPrefixedSlice_app (PutLengthPrefixedSlice _ _)),
      ?(PutVarint32_app (PutLengthPrefixedSlice _ _)),
      ?(PutLengthPrefixedSlice_app (_ ++ _));
    f_equal; now rewrite <- !app_assoc.
Qed.

Lemma z2b_of_mod x b : x mod 256 = b2z b -> z2b x = b.
Proof.
  clear.
  intros E. rewrite <- (z2b_b2z b). unfold z2b. rewrite E.
  pose proof (b2z_range b). now rewrite (Z.mod_small (b2z b)) by lia.
Qed.

(** Four bytes are the little-endian encoding of the number they decode
    to. *)
Lemma EncodeFixed32_Decode c :
  length c = 4%nat -> EncodeFixed32 (DecodeFixed32 c) = c.
Proof.
  clear.
  destruct c as [|b0 [|b1 [|b2 [|b3 [|]]]]]; try discriminate. intros _.
  unfold EncodeFixed32, DecodeFixed32.
  pose proof (b2z_range b0). pose proof (b2z_range b1).
  pose proof (b2z_range b2). pose proof (b2z_range b3).
  rewrite (lor_shiftl_add _ _ 8) by lia.
  rewrite (lor_shiftl_add _ _ 16) by lia.
  rewrite (lor_shiftl_add _ _ 24) by lia.
  rewrite !Z.shiftr_div_pow2 by lia.
  change (2 ^ 8) with 256 in *. change (2 ^ 16) with 65536 in *.
  change (2 ^ 24) with 16777216 in *.
  set (D := b2z b0 + b2z b1 * 256 + b2z b2 * 65536 + b2z b3 * 16777216).
  assert (E1 : D / 256 = b2z b1 + b2z b2 * 256 + b2z b3 * 65536)
    by (symmetry; apply Z.div_unique with (r := b2z b0); unfold D; lia).
  assert (E2 : D / 65536 = b2z b2 + b2z b3 * 256)
    by (symmetry;
        apply Z.div_unique with (r := b2z b0 + b2z b1 * 256); unfold D; lia).
  assert (E3 : D / 16777216 = b2z b3)
    by (symmetry;
        apply Z.div_unique with (r := b2z b0 + b2z b1 * 256 + b2z b2 * 65536);
        unfold D; lia).
  rewrite E1, E2, E3.
  repeat f_equal; apply z2b_of_mod; symmetry.
  - apply Z.mod_unique
      with (q := b2z b1 + b2z b2 * 256 + b2z b3 * 65536); unfold D; lia.
  - apply Z.mod_unique with (q := b2z b2 + b2z b3 * 256); lia.
  - apply Z.mod_unique with (q := b2z b3); lia.
  - symmetry. apply Z.mod_small; lia.
Qed.

Lemma EncodeFixed32_mod v : EncodeFixed32 (v mod 2 ^ 32) = EncodeFixed32 v.
Proof.
  clear.
  rewrite <- (DecodeFixed32_Encode v []), app_nil_r.
  now apply EncodeFixed32_Decode.
Qed.

Lemma EncodeFixed32_congr a b :
  a mod 2 ^ 32 = b mod 2 ^ 32 -> EncodeFixed32 a = EncodeFixed32 b.
Proof.
  clear.
  intros E. now rewrite <- (EncodeFixed32_mod a), E, EncodeFixed32_mod.
Qed.

Lemma to_int_congr u : to_int u mod 2 ^ 32 = u mod 2 ^ 32.
Proof.
  clear.
  unfold to_int. destruct (u <? 2 ^ 31); [reflexivity|].
  replace (u - 2 ^ 32) with (u + (-1) * 2 ^ 32) by lia.
  apply Z.mod_add. lia.
Qed.

Lemma Append_batch sa ca xa sb cb xb :
  header_ok sa ca -> header_ok sb cb ->
  Append (batch sa ca xa) (batch sb cb xb)
  = Some (batch sa
            (EncodeFixed32 (to_int (DecodeFixed32 ca) + to_int (DecodeFixed32 cb)))
            (xa ++ xb)).
Proof.
  clear. intros Ha Hb. unfold Append.
  rewrite !Count_hdr, SetCount_hdr by assumption.
  rewrite length_hdr by exact Hb. unfold kHeader.
  destruct (Nat.leb_spec 12 (12 + length xb)); [|lia].
  f_equal. fold kHeader. rewrite drop_hdr by exact Hb.
  unfold batch. cbn [rep_]. now rewrite <- !app_assoc.
Qed.

(** [Append] on batches that have their header.  Appending the empty batch
    changes nothing, byte for byte.  Appending is associative: [a] with [b]
    appended and then [c] is the same batch, byte for byte, as [a] with
    the batch "[b] then [c]" appended, also when the 32-bit count wraps
    around.  The sequence number is always the receiver's. *)
Theorem Append_identity_assoc (a b c : t) :
  (kHeader <= length (rep_ a))%nat -> (kHeader <= length (rep_ b))%nat ->
  (kHeader <= length (rep_ c))%nat ->
  Append a new = Some a /\
  exists ab bc abc,
    Append a b = Some ab /\ Append b c = Some bc /\
    Append ab c = Some abc /\ Append a bc = Some abc /\
    take 8 (rep_ abc) = take 8 (rep_ a) /\
    drop kHeader (rep_ abc)
    = drop kHeader (rep_ a) ++ drop kHeader (rep_ b) ++ drop kHeader (rep_ c).
Proof.
  clear. intros La Lb Lc.
  destruct (batch_hdr a La) as (sa & ca & xa & Ha & ->).
  destruct (batch_hdr b Lb) as (sb & cb & xb & Hb & ->).
  destruct (batch_hdr c Lc) as (sc & cc & xc & Hc & ->).
  split.
  - rewrite new_batch_view, Append_batch by (try exact Ha; split; reflexivity).
    change (to_int (DecodeFixed32 (replicate 4 x00))) with 0.
    rewrite Z.add_0_r, app_nil_r. do 2 f_equal.
    rewrite (EncodeFixed32_congr _ (DecodeFixed32 ca)) by apply to_int_congr.
    apply EncodeFixed32_Decode, Ha.
  - set (na := to_int (DecodeFixed32 ca)).
    set (nb := to_int (DecodeFixed32 cb)).
    set (nc := to_int (DecodeFixed32 cc)).
    assert (Hab : header_ok sa (EncodeFixed32 (na + nb)))
      by (apply header_ok_Encode, Ha).
    assert (Hbc : header_ok sb (EncodeFixed32 (nb + nc)))
      by (apply header_ok_Encode, Hb).
    assert (Er : forall x, to_int (DecodeFixed32 (EncodeFixed32 x)) mod 2 ^ 32
                           = x mod 2 ^ 32).
    { intros x. rewrite to_int_congr.
      rewrite <- (app_nil_r (EncodeFixed32 x)), DecodeFixed32_Encode.
      apply Z.mod_mod. lia. }
    exists (batch sa (EncodeFixed32 (na + nb)) (xa ++ xb)),
           (batch sb (EncodeFixed32 (nb + nc)) (xb ++ xc)),
           (batch sa (EncodeFixed32 (na + nb + nc)) (xa ++ xb ++ xc)).
    split; [now apply Append_batch|]. split; [now apply Append_batch|].
    split; [|split; [|split]].
    + rewrite Append_batch by assumption. fold nc.
      rewrite <- app_assoc. do 2 f_equal. apply EncodeFixed32_congr.
      rewrite Z.add_mod, Er, <- Z.add_mod by lia. reflexivity.
    + rewrite Append_batch by assumption. fold na.
      do 2 f_equal. apply EncodeFixed32_congr.
      rewrite Z.add_mod, Er, <- Z.add_mod by lia. f_equal. lia.
    + unfold batch. cbn [rep_]. destruct Ha as [Hs _].
      now rewrite !take_app_length' by lia.
    + rewrite !drop_hdr by (try assumption; now apply header_ok_Encode, Ha).
      reflexivity.
Qed.

(** The calls on any batch that has its header, whatever its count. *)
Lemma apply_ops_batch_any ops s c body :
  header_ok s c ->
  exists c', header_ok s c' /\
    apply_ops ops (batch s c body) = batch s c' (body ++ flat_map enc_op ops).
Proof.
  clear. revert c body. induction ops as [|o ops IH]; intros c body Hh.
  - exists c. cbn. now rewrite app_nil_r.
  - cbn [apply_ops fold_left]. rewrite apply_op_hdr by exact Hh.
    destruct (IH (EncodeFixed32 (to_int (DecodeFixed32 c) + 1))
                (body ++ enc_op o)) as (c' & Hh' & E).
    { apply header_ok_Encode, Hh. }
    exists c'. split; [exact Hh'|].
    unfold apply_ops in E. rewrite E. cbn [flat_map].
    now rewrite <- app_assoc.
Qed.

Lemma enc_op_length o : (2 <= length (enc_op o))%nat.
Proof.
  clear. destruct o; cbn [enc_op]; rewrite ?length_app; cbn [length];
    unfold PutLengthPrefixedSlice, PutVarint32; rewrite ?length_app;
    cbn [app length];
    match goal with
    | |- context [EncodeVarint 4 ?v] =>
        pose proof (EncodeVarint_nonempty 4 v);
        destruct (EncodeVarint 4 v); [contradiction|cbn [length]; lia]
    end.
Qed.

(** [Put], [Delete] and [PutFence] only append, on any batch that has its
    header and whatever its count: the sequence number and the records
    already there stay as they are, the new records follow in the order of
    the calls, and [ApproximateSize] grows by exactly their length, at least
    two bytes a call. *)
Theorem calls_only_append (ops : list op) (b : t) :
  (kHeader <= length (rep_ b))%nat ->
  take 8 (rep_ (apply_ops ops b)) = take 8 (rep_ b) /\
  Sequence (apply_ops ops b) = Sequence b /\
  drop kHeader (rep_ (apply_ops ops b))
  = drop kHeader (rep_ b) ++ flat_map enc_op ops /\
  ApproximateSize (apply_ops ops b)
  = ApproximateSize b + Z.of_nat (length (flat_map enc_op ops)) /\
  ApproximateSize b + 2 * Z.of_nat (length ops)
  <= ApproximateSize (apply_ops ops b).
Proof.
  clear. intros Lb. destruct (batch_hdr b Lb) as (s & c & body & Hh & ->).
  destruct (apply_ops_batch_any ops s c body Hh) as (c' & Hh' & ->).
  assert (Hsize : ApproximateSize (batch s c' (body ++ flat_map enc_op ops))
                  = ApproximateSize (batch s c body)
                    + Z.of_nat (length (flat_map enc_op ops))).
  { unfold ApproximateSize. rewrite !length_hdr by assumption.
    rewrite length_app. lia. }
  split; [|split; [|split; [|split]]].
  - unfold batch. cbn [rep_]. destruct Hh as [Hs _].
    now rewrite !take_app_length' by lia.
  - rewrite !Sequence_batch by assumption.
    destruct Hh as [Hs Hc], Hh' as [_ Hc']. clear -Hs Hc Hc'.
    destruct s as [|s0 [|s1 [|s2 [|s3 [|s4 [|s5 [|s6 [|s7 [|]]]]]]]]];
      try discriminate. reflexivity.
  - now rewrite !drop_hdr.
  - exact Hsize.
  - rewrite Hsize.
    assert (2 * Z.of_nat (length ops)
            <= Z.of_nat (length (flat_map enc_op ops))); [|lia].
    clear. induction ops as [|o ops IH]; [cbn; lia|].
    cbn [flat_map length]. rewrite length_app.
    pose proof (enc_op_length o). lia.
Qed.

(** The two header fields are independent of each other and of the
    records: setting the sequence number changes neither the count nor the
    records, setting the count changes neither the sequence number nor the
    records, each is read back as it was set, and the two setters commute. *)
Theorem header_fields_independent (b : t) (s n : Z) :
  (kHeader <= length (rep_ b))%nat ->
  0 <= s < 2 ^ 64 -> - 2 ^ 31 <= n < 2 ^ 31 ->
  (Sequence (SetSequence b s) = s /\ Count (SetSequence b s) = Count b /\
   drop kHeader (rep_ (SetSequence b s)) = drop kHeader (rep_ b)) /\
  (Count (SetCount b n) = n /\ Sequence (SetCount b n) = Sequence b /\
   drop kHeader (rep_ (SetCount b n)) = drop kHeader (rep_ b)) /\
  SetSequence (SetCount b n) s = SetCount (SetSequence b s) n.
Proof.
  clear. intros Lb Hs Hn.
  destruct (batch_hdr b Lb) as (s0 & c & body & Hh & ->).
  assert (H1 : header_ok (EncodeFixed64 s) c) by (split; [reflexivity|apply Hh]).
  assert (H2 : header_ok s0 (EncodeFixed32 n)) by (apply header_ok_Encode, Hh).
  rewrite SetSequence_hdr, SetCount_hdr by exact Hh.
  rewrite SetSequence_hdr by exact H2. rewrite SetCount_hdr by exact H1.
  split; [|split; [|reflexivity]].
  - split; [now apply Sequence_view|]. split.
    + now rewrite !Count_hdr.
    + now rewrite !drop_hdr.
  - split; [|split].
    + rewrite Count_hdr by exact H2.
      rewrite <- (app_nil_r (EncodeFixed32 n)), DecodeFixed32_Encode.
      now apply to_int_mod.
    + rewrite !Sequence_batch by assumption.
      destruct Hh as [Hs0 Hc]. clear -Hs0 Hc.
      destruct s0 as [|a0 [|a1 [|a2 [|a3 [|a4 [|a5 [|a6 [|a7 [|]]]]]]]]];
        try discriminate. reflexivity.
    + now rewrite !drop_hdr.
Qed.

End WithConfig.
End WriteBatch.

(** ** A concrete configuration *)

Module Concrete.

Import VersionEdit.

(** Seven levels; internal keys as their encoded bytes, an empty encoding
    being refused by [DecodeFrom]; keys compared by length. *)
Definition kNumLevels : Z := 7.
Definition InternalKey : Type := list byte.
Definition ikey_Encode (k : InternalKey) : list byte := k.
Definition ikey_DecodeFrom (s : list byte) : option InternalKey :=
  match s with
  | [] => None
  | _ :: _ => Some s
  end.
Definition ikey_empty : InternalKey := [].
Definition Compare (a b : InternalKey) : Z :=
  Z.of_nat (length a) - Z.of_nat (length b).

Lemma kNumLevels_int : kNumLevels <= 2 ^ 31.
Proof. unfold kNumLevels. lia. Defined.

Lemma Compare_trans a b c :
  Compare a b < 0 -> Compare b c < 0 -> Compare a c < 0.
Proof. unfold Compare. lia. Defined.

Lemma Compare_asym a b : Compare a b < 0 -> ~ Compare b a < 0.
Proof. unfold Compare. lia. Defined.

Definition edit : Type := VersionEdit.t InternalKey.
Definition fresh : edit := VersionEdit.new kNumLevels InternalKey.
Definition encode (e : edit) : list byte :=
  VersionEdit.EncodeTo InternalKey ikey_Encode e [].
Definition decode (src : list byte) (e : edit) : outcome edit :=
  VersionEdit.DecodeFrom kNumLevels InternalKey ikey_DecodeFrom ikey_empty
    Compare src e.
Definition build (cs : list (call InternalKey)) : option edit :=
  VersionEdit.build kNumLevels InternalKey ikey_empty Compare cs.

Definition key_a : InternalKey := [x61].
Definition key_bc : InternalKey := [x62; x63].

(** An edit that uses each kind of entry once. *)
Definition calls : list (call InternalKey) :=
  [ CSetComparatorName InternalKey [x6c; x64; x62];
    CSetLogNumber InternalKey 9;
    CSetNextFile InternalKey 300;
    CSetCompactPointer InternalKey 1 key_a;
    CAddFile InternalKey 2 11 4096 key_a key_bc;
    CRemoveFile InternalKey 0 4;
    CDeleteFence InternalKey 3 key_bc;
    CAddFence InternalKey 2 key_a;
    CAddCompleteFence InternalKey 6 key_bc;
    CDeleteSentinelFile InternalKey 1 8 ].

Definition built_edit : edit :=
  match build calls with
  | Some e => e
  | None => fresh
  end.

Lemma key_ok_a : key_ok InternalKey ikey_Encode ikey_DecodeFrom key_a.
Proof. split; [reflexivity|vm_compute; reflexivity]. Defined.

Lemma key_ok_bc : key_ok InternalKey ikey_Encode ikey_DecodeFrom key_bc.
Proof. split; [reflexivity|vm_compute; reflexivity]. Defined.








(** A log number, then a compaction pointer at level 9. *)
Definition bad_level_src : list byte := [x02; x01; x05; x09; x01; x61].

Lemma DecodeFrom_level_out_of_range_witness :
  decode bad_level_src fresh
  = Returned (Corruption "VersionEdit" "compaction pointer")
      (SetLogNumber InternalKey 1 (Clear kNumLevels InternalKey fresh)).
Proof.
  apply (VersionEdit.DecodeFrom_level_out_of_range kNumLevels InternalKey
           ikey_DecodeFrom ikey_empty Compare bad_level_src fresh
           [x05; x09; x01; x61] (locals_init InternalKey ikey_empty)
           (SetLogNumber InternalKey 1 (Clear kNumLevels InternalKey fresh))
           5 [x09; x01; x61] 9 [x01; x61] "compaction pointer").
  - apply (Reaches_step kNumLevels InternalKey ikey_DecodeFrom ikey_empty
             Compare bad_level_src (locals_init InternalKey ikey_empty)
             (Clear kNumLevels InternalKey fresh) 2 [x01; x05; x09; x01; x61]
             [x05; x09; x01; x61] (locals_init InternalKey ikey_empty)
             (SetLogNumber InternalKey 1 (Clear kNumLevels InternalKey fresh)));
      [vm_compute; reflexivity|vm_compute; reflexivity|apply Reaches_here].
  - vm_compute. reflexivity.
  - vm_compute. reflexivity.
  - vm_compute. reflexivity.
  - unfold kNumLevels. lia.
Defined.

(** A fence at level 1 that holds three segments, and its plain twin. *)
Definition fence3 : FenceMetaData InternalKey :=
  mkFence InternalKey 0 1 3 key_a key_a key_bc [7; 8; 9] [].



(** *** The write batch: tags 0, 1 and 2, a stand-in for the hash, and a
    table that keeps what is added to it. *)

Import WriteBatch.

Definition kTypeDeletion : Z := 0.
Definition kTypeValue : Z := 1.
Definition kTypeFence : Z := 2.

(** A key of one byte hashes to 2^25 - 1: its low 25 bits are set, its low
    27 bits are not. *)
Definition hash (key : list byte) (seed : Z) : Z :=
  (Z.of_nat (length key) * 33554431 + seed - 42) mod 2 ^ 32.

Definition MemTable : Type := list (Z * Z * list byte * list byte).
Definition MemTable_Add (seq type : Z) (key value : list byte) (m : MemTable)
  : MemTable :=
  m ++ [(seq, type, key, value)].

Lemma tags_range :
  0 <= kTypeDeletion < 128 /\ 0 <= kTypeValue < 128 /\ 0 <= kTypeFence < 128.
Proof. unfold kTypeDeletion, kTypeValue, kTypeFence. lia. Defined.

Lemma tags_distinct :
  kTypeValue <> kTypeDeletion /\ kTypeFence <> kTypeValue
  /\ kTypeFence <> kTypeDeletion.
Proof. unfold kTypeDeletion, kTypeValue, kTypeFence. lia. Defined.

Definition batch_of (ops : list op) : WriteBatch.t :=
  apply_ops kTypeDeletion kTypeValue kTypeFence ops WriteBatch.new.

Definition iterate {H : Type} `{Handler H} (b : WriteBatch.t) (h : H)
  : outcome H :=
  Iterate kTypeDeletion kTypeValue kTypeFence b h.

Definition three_ops : list op :=
  [OpPut [x6b; x31] [x76; x31]; OpDelete [x6b; x32]; OpFence [x6b; x33] 3].

Lemma three_ops_ok : Forall op_ok three_ops.
Proof.
  unfold three_ops.
  repeat (apply List.Forall_cons; [cbn [op_ok]|]);
    try apply List.Forall_nil;
    repeat match goal with |- _ /\ _ => split end;
    vm_compute; reflexivity.
Defined.

Lemma Iterate_calls_witness :
  Count (batch_of three_ops) = 3 /\
  (forall (H : Type) (HH : Handler H) (h : H),
     iterate (batch_of three_ops) h
     = match dispatch_all three_ops h with
       | Some h' => Returned OK h'
       | None => Aborted
       end) /\
  iterate (batch_of three_ops) (@nil op) = Returned OK three_ops.
Proof.
  destruct (WriteBatch.Iterate_calls kTypeDeletion kTypeValue kTypeFence
              tags_range tags_distinct three_ops three_ops_ok)
    as (C & G & R & _).
  - vm_compute. reflexivity.
  - split; [exact C|]. split; [exact G|exact R].
Defined.

Lemma scenario_put_delete_put_witness :
  let b := SetSequence
             (Put kTypeValue [x6b; x33] [x76; x33]
                (Delete kTypeDeletion [x6b; x32]
                   (Put kTypeValue [x6b; x31] [x76; x31] WriteBatch.new))) 5 in
  Sequence b = 5 /\ Count b = 3 /\
  InsertInto kNumLevels kTypeDeletion kTypeValue kTypeFence MemTable
    MemTable_Add b []
  = Returned OK
      (mkMemTableInserter MemTable 8
         [(5, kTypeValue, [x6b; x31], [x76; x31]);
          (6, kTypeDeletion, [x6b; x32], []);
          (7, kTypeValue, [x6b; x33], [x76; x33])]) /\
  ApproximateSize b = 12 + 7 + 4 + 7.
Proof.
  apply (WriteBatch.scenario_put_delete_put kNumLevels kTypeDeletion
           kTypeValue kTypeFence MemTable MemTable_Add tags_range
           tags_distinct [x6b; x31] [x76; x31] [x6b; x32] [x6b; x33]
           [x76; x33] []);
    vm_compute; reflexivity.
Defined.

Definition batch_a : WriteBatch.t :=
  SetSequence (batch_of [OpPut [x6b; x31] [x76; x31]; OpDelete [x6b; x32]]) 9.
Definition batch_b : WriteBatch.t :=
  batch_of [OpFence [x6b; x33] 3].

Lemma Append_records_witness :
  exists ab,
    Append batch_a batch_b = Some ab /\
    iterate ab (@nil op)
    = Returned OK ([OpPut [x6b; x31] [x76; x31]; OpDelete [x6b; x32]]
                   ++ [OpFence [x6b; x33] 3]) /\
    (forall (H : Type) (HH : Handler H) (h : H),
       iterate ab h
       = match dispatch_all
                 ([OpPut [x6b; x31] [x76; x31]; OpDelete [x6b; x32]]
                  ++ [OpFence [x6b; x33] 3]) h with
         | Some h' => Returned OK h'
         | None => Aborted
         end) /\
    Count ab = Count batch_a + Count batch_b /\
    take 8 (rep_ ab) = take 8 (rep_ batch_a) /\
    Sequence ab = Sequence batch_a.
Proof.
  apply (WriteBatch.Append_records kTypeDeletion kTypeValue kTypeFence
           tags_distinct batch_a batch_b);
    vm_compute; reflexivity.
Defined.

Lemma single_put_guards_witness :
  exists h' levels,
    SetFences kNumLevels kTypeDeletion kTypeValue kTypeFence hash
      (Put kTypeValue [x6b] [x76] WriteBatch.new) WriteBatch.new
    = Returned OK h' /\
    new_batch h'
    = apply_ops kTypeDeletion kTypeValue kTypeFence
        (map (OpFence [x6b]) levels) WriteBatch.new /\
    iterate (new_batch h') (@nil op)
    = Returned OK (map (OpFence [x6b]) levels) /\
    NoDup levels /\
    (forall L, shallowest kNumLevels (hash [x6b] murmur_seed) L ->
       levels = seqZ L (kNumLevels - L) /\
       forall j, In j levels <-> L <= j < kNumLevels) /\
    ((forall i, 0 <= i < kNumLevels ->
        ~ low_bits_set (hash [x6b] murmur_seed) (threshold i)) ->
     levels = []).
Proof.
  apply (WriteBatch.single_put_guards kNumLevels kTypeDeletion kTypeValue
           kTypeFence hash tags_range tags_distinct [x6b] [x76]).
  - vm_compute. reflexivity.
  - vm_compute. reflexivity.
  - unfold kNumLevels. lia.
Defined.

Definition source1 : list op := [OpPut [x6b] [x76]; OpDelete [x64]].
Definition source2 : list op :=
  [OpDelete [x64]; OpPut [x6b; x6b] [x77]; OpPut [x6b] [x78]].

Lemma guard_levels_deterministic_witness :
  exists h1 h2 out1 out2,
    SetFences kNumLevels kTypeDeletion kTypeValue kTypeFence hash
      (batch_of source1) WriteBatch.new = Returned OK h1 /\
    new_batch h1
    = apply_ops kTypeDeletion kTypeValue kTypeFence out1 WriteBatch.new /\
    SetFences kNumLevels kTypeDeletion kTypeValue kTypeFence hash
      (batch_of source2) WriteBatch.new = Returned OK h2 /\
    new_batch h2
    = apply_ops kTypeDeletion kTypeValue kTypeFence out2 WriteBatch.new /\
    forall j,
      (In (OpFence [x6b] j) out1 <-> In j (guard_levels kNumLevels hash [x6b]))
      /\
      (In (OpFence [x6b] j) out2 <-> In j (guard_levels kNumLevels hash [x6b])).
Proof.
  apply (WriteBatch.guard_levels_deterministic kNumLevels kTypeDeletion
           kTypeValue kTypeFence hash tags_range tags_distinct [x6b]
           source1 source2).
  - unfold kNumLevels. lia.
  - repeat (apply List.Forall_cons; [cbn [op_ok]|]);
      try apply List.Forall_nil;
      repeat match goal with |- _ /\ _ => split end; vm_compute; reflexivity.
  - repeat (apply List.Forall_cons; [exact I|]). apply List.Forall_nil.
  - vm_compute. reflexivity.
  - repeat (apply List.Forall_cons; [cbn [op_ok]|]);
      try apply List.Forall_nil;
      repeat match goal with |- _ /\ _ => split end; vm_compute; reflexivity.
  - repeat (apply List.Forall_cons; [exact I|]). apply List.Forall_nil.
  - vm_compute. reflexivity.
  - exists [x76]. left. reflexivity.
  - exists [x78]. right. right. left. reflexivity.
Defined.

(** *** Instances of the further properties of the edit *)

Lemma in_levels_1 : in_levels kNumLevels 1.
Proof. unfold in_levels, kNumLevels. lia. Defined.

Lemma in_levels_2 : in_levels kNumLevels 2.
Proof. unfold in_levels, kNumLevels. lia. Defined.

(** What [decode] leaves, whatever the status. *)
Definition decoded_of (src : list byte) (e0 : edit) : edit :=
  match decode src e0 with
  | Returned _ e => e
  | _ => fresh
  end.

Lemma EncodeTo_skips_sentinels_and_fence_files_witness :
  (exists e1,
     AddSentinelFileNo kNumLevels InternalKey 2 5 built_edit = Some e1 /\
     VersionEdit.EncodeTo InternalKey ikey_Encode e1 []
     = VersionEdit.EncodeTo InternalKey ikey_Encode built_edit []) /\
  (exists e1 e2,
     AddFenceWithFiles kNumLevels InternalKey ikey_empty 2 3 key_a key_a
       key_bc [7; 8; 9] built_edit = Some e1 /\
     AddFence kNumLevels InternalKey ikey_empty 2 key_a built_edit = Some e2 /\
     VersionEdit.EncodeTo InternalKey ikey_Encode e1 []
     = VersionEdit.EncodeTo InternalKey ikey_Encode e2 []).
Proof.
  destruct (VersionEdit.EncodeTo_skips_sentinels_and_fence_files kNumLevels
              InternalKey ikey_Encode ikey_empty 2 built_edit []
              (FileMetaData_new InternalKey ikey_empty) 1 4096 11 0 5 None
              key_bc key_a key_a 3 [7; 8; 9] in_levels_2)
    as (_ & _ & P3 & P4).
  split; [exact P3|exact P4].
Defined.

(** A log number, then an entry tagged 8. *)
Definition unknown_tag_src : list byte := [x02; x01; x08; x00].

Lemma DecodeFrom_bad_tag_witness :
  decode unknown_tag_src fresh
  = Returned (Corruption "VersionEdit" "unknown tag")
      (SetLogNumber InternalKey 1 (VersionEdit.Clear kNumLevels InternalKey fresh)).
Proof.
  destruct (VersionEdit.DecodeFrom_bad_tag kNumLevels InternalKey
              ikey_DecodeFrom ikey_empty Compare unknown_tag_src fresh
              [x08; x00] (locals_init InternalKey ikey_empty)
              (SetLogNumber InternalKey 1
                 (VersionEdit.Clear kNumLevels InternalKey fresh)))
    as [P _].
  - apply (Reaches_step kNumLevels InternalKey ikey_DecodeFrom ikey_empty
             Compare unknown_tag_src (locals_init InternalKey ikey_empty)
             (VersionEdit.Clear kNumLevels InternalKey fresh) 2
             [x01; x08; x00] [x08; x00] (locals_init InternalKey ikey_empty)
             (SetLogNumber InternalKey 1
                (VersionEdit.Clear kNumLevels InternalKey fresh)));
      [vm_compute; reflexivity|vm_compute; reflexivity|apply Reaches_here].
  - discriminate.
  - change (Coding.GetVarint32 [x08; x00]) with (Some (8, [x00])) in P.
    apply P. reflexivity.
Defined.

Lemma BySmallestPair_strict_order_witness :
  BySmallestPair InternalKey Compare (1, key_a) (1, key_bc) = true /\
  BySmallestPair InternalKey Compare (1, key_bc) (1, key_a) = false /\
  BySmallestPair InternalKey Compare (0, key_bc) (1, key_a) = true.
Proof.
  destruct (VersionEdit.BySmallestPair_strict_order InternalKey Compare
              Compare_trans Compare_asym) as (_ & A & _ & L & K).
  assert (Hk : BySmallestPair InternalKey Compare (1, key_a) (1, key_bc)
               = true) by (apply K; vm_compute; reflexivity).
  split; [exact Hk|]. split; [apply A; exact Hk|].
  apply (L 0 key_bc 1 key_a). lia.
Defined.

Lemma DecodeFrom_levels_in_range_witness :
  levels_in_range kNumLevels InternalKey (decoded_of (encode built_edit) fresh).
Proof.
  apply (VersionEdit.DecodeFrom_levels_in_range kNumLevels InternalKey
           ikey_DecodeFrom ikey_empty Compare (encode built_edit) OK).
  vm_compute. reflexivity.
Defined.



Lemma DecodeFrom_keeps_stale_members_witness :
  In (3, key_bc)
    (deleted_fences_ InternalKey (decoded_of [x02; x01] built_edit)) /\
  In (1, 8)
    (deleted_sentinel_files_ InternalKey (decoded_of [x02; x01] built_edit)).
Proof.
  destruct (VersionEdit.DecodeFrom_keeps_stale_members kNumLevels InternalKey
              ikey_DecodeFrom ikey_empty Compare [x02; x01] built_edit OK
              (decoded_of [x02; x01] built_edit)) as (P1 & P2 & _).
  - vm_compute. reflexivity.
  - split; [apply P1|apply P2]; vm_compute; left; reflexivity.
Defined.

Lemma DecodeFrom_sentinel_tags_witness :
  (exists e',
     AddSentinelFileNo kNumLevels InternalKey 2 11 fresh = Some e' /\
     decode [x0d; x02; x0b] fresh = Returned OK e') /\
  decode [x10; x02; x0b; x80; x20; x01; x61; x02; x62; x63] fresh
  = Returned OK (AddFile InternalKey ikey_empty 2 11 4096 key_a key_bc fresh).
Proof.
  destruct (VersionEdit.DecodeFrom_sentinel_tags kNumLevels InternalKey
              ikey_Encode ikey_DecodeFrom ikey_empty Compare kNumLevels_int
              2 11 4096 key_a key_bc in_levels_2) as (P1 & P2 & _).
  - unfold u64. lia.
  - unfold u64. lia.
  - exact key_ok_a.
  - exact key_ok_bc.
  - split; [exact P1|exact P2].
Defined.

Lemma RemoveFile_order_irrelevant_witness :
  RemoveFile InternalKey 5 1 (RemoveFile InternalKey 0 9 built_edit)
  = RemoveFile InternalKey 0 9 (RemoveFile InternalKey 5 1 built_edit) /\
  RemoveFile InternalKey 5 1 (RemoveFile InternalKey 5 1 built_edit)
  = RemoveFile InternalKey 5 1 built_edit.
Proof.
  destruct (VersionEdit.RemoveFile_order_irrelevant kNumLevels InternalKey
              ikey_empty Compare calls built_edit 5 1 0 9) as (P1 & P2 & _).
  - reflexivity.
  - split; [exact P1|exact P2].
Defined.





Lemma UpdateFences_counts_calls_witness :
  exists fence_array',
    UpdateFences kNumLevels InternalKey built_edit [0; 0; 5; 0; 0; 0; 0; 77]
    = Some fence_array' /\
    fence_array' !! 2%nat = Some 6 /\
    fence_array' !! 6%nat = Some 0 /\
    fence_array' !! 7%nat = Some 77.
Proof.
  destruct (VersionEdit.UpdateFences_counts_calls kNumLevels InternalKey
              ikey_empty Compare calls built_edit [0; 0; 5; 0; 0; 0; 0; 77])
    as (fa & U & _ & K & J).
  - reflexivity.
  - vm_compute. lia.
  - exists fa. split; [exact U|]. split; [|split].
    + apply (K 2 5); [unfold kNumLevels; lia|reflexivity].
    + apply (K 6 0); [unfold kNumLevels; lia|reflexivity].
    + rewrite (J 7%nat); [reflexivity|vm_compute; lia].
Defined.

Lemma unchecked_level_not_decodable_witness :
  decode (encode (SetCompactPointer InternalKey 7 key_a fresh)) fresh
  = Returned (Corruption "VersionEdit" "compaction pointer") fresh /\
  decode (encode (RemoveFile InternalKey (-1) 4 fresh)) fresh
  = Returned (Corruption "VersionEdit" "deleted file") fresh.
Proof.
  destruct (VersionEdit.unchecked_level_not_decodable kNumLevels InternalKey
              ikey_Encode ikey_DecodeFrom ikey_empty Compare kNumLevels_int
              7 4 0 key_a key_a key_bc) as (P1 & _).
  - lia.
  - unfold in_levels, kNumLevels. lia.
  - destruct (VersionEdit.unchecked_level_not_decodable kNumLevels
                InternalKey ikey_Encode ikey_DecodeFrom ikey_empty Compare
                kNumLevels_int (-1) 4 0 key_a key_a key_bc)
      as (_ & _ & P3 & _).
    + lia.
    + unfold in_levels, kNumLevels. lia.
    + split; [exact P1|exact P3].
Defined.

Lemma DecodeFrom_fence_assertions_witness :
  decode [x0a; x01; x02; x01; x61] fresh = Aborted /\
  decode [x0f; x01; x02; x01; x61] fresh = Aborted /\
  decode [x0a; x01; x02; x01; x61; x01; x61; x02; x62; x63; x05] fresh
  = Aborted.
Proof.
  destruct (VersionEdit.DecodeFrom_fence_assertions kNumLevels InternalKey
              ikey_Encode ikey_DecodeFrom ikey_empty Compare kNumLevels_int
              1 2 key_a key_a key_bc [] [] 5 fresh in_levels_1)
    as (P1 & P2 & P3 & _).
  - unfold u64. lia.
  - lia.
  - exact key_ok_a.
  - exact key_ok_a.
  - exact key_ok_bc.
  - reflexivity.
  - lia.
  - unfold kFileInsideFence. lia.
  - split; [exact P1|]. split; [exact P2|exact P3].
Defined.

(** The fence [fence3], whose own level is 1, copied into level 2. *)
Definition moved_fence_edit : edit :=
  match AddFenceFromExisting kNumLevels InternalKey 2 fence3 fresh with
  | Some e => e
  | None => fresh
  end.

Lemma fence_comes_back_at_its_own_level_witness :
  new_fences_ InternalKey moved_fence_edit !! 2%nat = Some [fence3] /\
  exists d,
    decode (encode moved_fence_edit) fresh = Returned OK d /\
    new_fences_ InternalKey d !! 2%nat = Some [] /\
    new_fences_ InternalKey d !! 1%nat
    = Some [plain_fence InternalKey ikey_empty 1 key_a].
Proof.
  destruct (VersionEdit.fence_comes_back_at_its_own_level kNumLevels
              InternalKey ikey_Encode ikey_DecodeFrom ikey_empty Compare
              kNumLevels_int 2 fence3 moved_fence_edit in_levels_2)
    as (P1 & _ & d & D & Q1 & Q2).
  - exact in_levels_1.
  - exact key_ok_a.
  - cbn. lia.
  - reflexivity.
  - split; [exact P1|]. exists d. split; [exact D|].
    split; [exact Q1|exact Q2].
Defined.

Lemma DecodeFrom_key_refused_witness :
  decode [x05; x01; x00] fresh
  = Returned (Corruption "VersionEdit" "compaction pointer")
      (VersionEdit.Clear kNumLevels InternalKey fresh) /\
  decode [x0a; x01; x00; x00] fresh
  = Returned (Corruption "VersionEdit" "new-fence entry")
      (VersionEdit.Clear kNumLevels InternalKey fresh).
Proof.
  destruct (VersionEdit.DecodeFrom_key_refused kNumLevels InternalKey
              ikey_DecodeFrom ikey_empty Compare kNumLevels_int 1 [] [] 0
              fresh in_levels_1) as (P1 & _ & P3 & _).
  - cbn. lia.
  - unfold u64. lia.
  - reflexivity.
  - split; [exact P1|exact P3].
Defined.

(** *** Instances of the further properties of the batch *)

Lemma Iterate_wrong_count_witness :
  Count (SetCount (batch_of three_ops) 5) = 5 /\
  iterate (SetCount (batch_of three_ops) 5) (@nil op)
  = Returned (Corruption "WriteBatch has wrong count" "") three_ops.
Proof.
  destruct (WriteBatch.Iterate_wrong_count kTypeDeletion kTypeValue
              kTypeFence tags_range tags_distinct three_ops 5 three_ops_ok)
    as (C & G).
  - vm_compute. reflexivity.
  - lia.
  - vm_compute. discriminate.
  - split; [exact C|]. exact (G (list op) Recorder []).
Defined.

Lemma Iterate_bad_record_witness :
  iterate (WriteBatch.mk (rep_ (batch_of three_ops) ++ [x09])) (@nil op)
  = Returned (Corruption "unknown WriteBatch tag" "") three_ops /\
  iterate (WriteBatch.mk (rep_ (batch_of three_ops) ++ [x01; x01])) (@nil op)
  = Returned (Corruption "bad WriteBatch Put" "") three_ops.
Proof.
  destruct (WriteBatch.Iterate_bad_record kTypeDeletion kTypeValue kTypeFence
              tags_range tags_distinct three_ops x09 []
              (OpPut [x6b] [x76]) [x01; x01] [x6b; x01; x76] three_ops_ok)
    with (H := list op) (HH := Recorder) (h := @nil op) as (P1 & P2).
  - vm_compute. reflexivity.
  - vm_compute. discriminate.
  - vm_compute. discriminate.
  - vm_compute. discriminate.
  - cbn [op_ok]. split; vm_compute; reflexivity.
  - reflexivity.
  - discriminate.
  - discriminate.
  - split; [exact P1|exact P2].
Defined.

Lemma Iterate_prefix_rejected_witness :
  (exists msg k,
     iterate (WriteBatch.mk (take 19 (rep_ (batch_of three_ops)))) (@nil op)
     = Returned (Corruption msg "") (map as_record (take k three_ops))) /\
  iterate (WriteBatch.mk (take 19 (rep_ (batch_of three_ops)))) (@nil op)
  = Returned (Corruption "WriteBatch has wrong count" "")
      [OpPut [x6b; x31] [x76; x31]].
Proof.
  destruct (WriteBatch.Iterate_prefix_rejected kTypeDeletion kTypeValue
              kTypeFence tags_range tags_distinct three_ops
              (take 19 (rep_ (batch_of three_ops)))
              (drop 19 (rep_ (batch_of three_ops))) three_ops_ok)
    as (P1 & _ & P3).
  - vm_compute. reflexivity.
  - symmetry. apply take_drop.
  - vm_compute. discriminate.
  - split; [exact P1|]. apply (P3 1%nat). reflexivity.
Defined.

Lemma three_ops_levels : Forall (fence_level_ok kNumLevels) three_ops.
Proof.
  unfold three_ops.
  repeat (apply List.Forall_cons; [cbn [fence_level_ok]|]);
    try apply List.Forall_nil; try exact I.
  vm_compute. reflexivity.
Defined.

Lemma InsertInto_sequence_numbers_witness :
  InsertInto kNumLevels kTypeDeletion kTypeValue kTypeFence MemTable
    MemTable_Add
    (apply_ops kTypeDeletion kTypeValue kTypeFence three_ops
       (SetSequence WriteBatch.new 5)) []
  = Returned OK
      (mkMemTableInserter MemTable 8
         [(5, kTypeValue, [x6b; x31], [x76; x31]);
          (6, kTypeDeletion, [x6b; x32], [])]).
Proof.
  apply (WriteBatch.InsertInto_sequence_numbers kNumLevels kTypeDeletion
           kTypeValue kTypeFence MemTable MemTable_Add tags_range
           tags_distinct three_ops 5 [] three_ops_ok three_ops_levels).
  - vm_compute. reflexivity.
  - lia.
Defined.


Lemma source1_ok : Forall op_ok source1.
Proof.
  unfold source1.
  repeat (apply List.Forall_cons; [cbn [op_ok]|]);
    try apply List.Forall_nil;
    repeat match goal with |- _ /\ _ => split end; vm_compute; reflexivity.
Defined.

Lemma source1_no_fence : Forall no_fence source1.
Proof.
  unfold source1. repeat (apply List.Forall_cons; [exact I|]).
  apply List.Forall_nil.
Defined.

Lemma SetFences_appends_guards_witness :
  exists h',
    SetFences kNumLevels kTypeDeletion kTypeValue kTypeFence hash
      (batch_of source1) (batch_of [OpDelete [x64]])
    = Returned OK h' /\
    iterate (new_batch h') (@nil op)
    = Returned OK
        [OpDelete [x64]; OpFence [x6b] 1; OpFence [x6b] 2; OpFence [x6b] 3;
         OpFence [x6b] 4; OpFence [x6b] 5; OpFence [x6b] 6] /\
    Count (new_batch h') = 7.
Proof.
  destruct (WriteBatch.SetFences_appends_guards kNumLevels kTypeDeletion
              kTypeValue kTypeFence hash tags_range tags_distinct source1
              [OpDelete [x64]]) as (h' & S & R & C & _).
  - unfold kNumLevels. lia.
  - exact source1_ok.
  - exact source1_no_fence.
  - vm_compute. reflexivity.
  - apply List.Forall_cons; [vm_compute; reflexivity|apply List.Forall_nil].
  - vm_compute. reflexivity.
  - exists h'. split; [exact S|]. split; [exact R|exact C].
Defined.

Lemma SetFences_then_InsertInto_witness :
  exists h',
    SetFences kNumLevels kTypeDeletion kTypeValue kTypeFence hash
      (batch_of source1) WriteBatch.new
    = Returned OK h' /\
    InsertInto kNumLevels kTypeDeletion kTypeValue kTypeFence MemTable
      MemTable_Add (new_batch h') [(1, 1, [x61], [x62])]
    = Returned OK
        (mkMemTableInserter MemTable (Count (new_batch h'))
           [(1, 1, [x61], [x62])]).
Proof.
  apply (WriteBatch.SetFences_then_InsertInto kNumLevels kTypeDeletion
           kTypeValue kTypeFence hash MemTable MemTable_Add tags_range
           tags_distinct source1 [(1, 1, [x61], [x62])]).
  - unfold kNumLevels. lia.
  - exact source1_ok.
  - exact source1_no_fence.
  - vm_compute. reflexivity.
  - vm_compute. reflexivity.
Defined.

Lemma Append_identity_assoc_witness :
  Append batch_a WriteBatch.new = Some batch_a /\
  exists ab bc abc,
    Append batch_a batch_b = Some ab /\
    Append batch_b (batch_of three_ops) = Some bc /\
    Append ab (batch_of three_ops) = Some abc /\
    Append batch_a bc = Some abc.
Proof.
  destruct (WriteBatch.Append_identity_assoc batch_a batch_b
              (batch_of three_ops))
    as (I & ab & bc & abc & A1 & A2 & A3 & A4 & _).
  - vm_compute. lia.
  - vm_compute. lia.
  - vm_compute. lia.
  - split; [exact I|]. exists ab, bc, abc. repeat split; assumption.
Defined.

Lemma calls_only_append_witness :
  Sequence (apply_ops kTypeDeletion kTypeValue kTypeFence three_ops batch_a)
  = Sequence batch_a /\
  ApproximateSize
    (apply_ops kTypeDeletion kTypeValue kTypeFence three_ops batch_a)
  = ApproximateSize batch_a + 16.
Proof.
  destruct (WriteBatch.calls_only_append kTypeDeletion kTypeValue kTypeFence
              three_ops batch_a) as (_ & S & _ & A & _).
  - vm_compute. lia.
  - split; [exact S|exact A].
Defined.

Lemma header_fields_independent_witness :
  Sequence (SetSequence batch_a 7) = 7 /\
  Count (SetSequence batch_a 7) = Count batch_a /\
  Count (SetCount batch_a 2) = 2 /\
  Sequence (SetCount batch_a 2) = Sequence batch_a /\
  SetSequence (SetCount batch_a 2) 7 = SetCount (SetSequence batch_a 7) 2.
Proof.
  destruct (WriteBatch.header_fields_independent batch_a 7 2)
    as ((S1 & C1 & _) & (C2 & S2 & _) & E).
  - vm_compute. lia.
  - lia.
  - lia.
  - repeat split; assumption.
Defined.

End Concrete.
